(** * manga-translate-mvp: reading order, box merging, language
    normalisation and the batched translation pipeline

    A shallow embedding of [ocr_utils.py], [translate_utils.py], the OCR
    helpers and the data path of [process_local] of [app.py], and the
    sandbox lifecycle of [daytona_runner.py], with the properties stated
    about them.

    Conventions of the embedding.
    - Python [float] and [int] quantities (coordinates, confidences, scores,
      sleep durations) are rationals [Q].  Sums, differences, halvings and
      comparisons of coordinates are exact, as they are in binary64 for the
      pixel coordinates of an image, and so is the mean confidence of a
      merged region.  The operations whose rounding decides a result (the
      row height, the score of a reading, the backoff delay) are rounded
      to binary64, ties to even, by [PyNum.round_double].  Infinities and
      NaN are not modelled.
    - Language tags, backend names, keys and HTTP header values are
      [string]s whose characters are the code points 0..255 (ISO-8859-1),
      on which [str.strip], [str.lower] and [str.isdigit] are tabulated in
      full.  OCR and translated text is a sequence of arbitrary Unicode code
      points ([ustr]).
    - A function that can raise returns an [option], [None] standing for the
      exception.  Remote services, the OCR engine, [random.random] and
      [json.loads] are oracles of an environment record, and the calls and
      sleeps the code performs are logged in an event history.
    - The Daytona SDK is an oracle as well; the module's global variables
      and the log of the SDK calls form an explicit state. *)

From Stdlib Require Import ZArith QArith Qround Qabs Qminmax String Ascii Lia
Lqa DecimalString.
From stdpp Require Import base option list gmap sorting.

#[local] Open Scope string_scope.
#[local] Open Scope list_scope.
#[local] Set Warnings "-register-all".

(** ** Strings over the code points 0..255 *)
Module Latin1.

Definition code (c : ascii) : N := N_of_ascii c.

(** [str.isspace] on one character: TAB..CR, FS..US, SPACE, NEL, NBSP. *)
Definition isspace (c : ascii) : bool :=
  let n := code c in
  (((9 <=? n) && (n <=? 13)) || ((28 <=? n) && (n <=? 32))
   || (n =? 133) || (n =? 160))%N.

(** [str.isdigit] on one character: the decimal digits and the
    superscripts two, three and one. *)
Definition isdigit_char (c : ascii) : bool :=
  let n := code c in
  (((48 <=? n) && (n <=? 57)) || (n =? 178) || (n =? 179) || (n =? 185))%N.

Definition is_ascii_digit (c : ascii) : bool :=
  let n := code c in ((48 <=? n) && (n <=? 57))%N.

(** [str.lower] on one character: A..Z and the accented capitals
    0xC0..0xDE except the multiplication sign. *)
Definition lower_char (c : ascii) : ascii :=
  let n := code c in
  if (((65 <=? n) && (n <=? 90))
      || ((192 <=? n) && (n <=? 222) && negb (n =? 215)))%N
  then ascii_of_N (n + 32) else c.

Fixpoint lower (s : string) : string :=
  match s with
  | EmptyString => EmptyString
  | String c r => String (lower_char c) (lower r)
  end.

Fixpoint lstrip (s : string) : string :=
  match s with
  | EmptyString => EmptyString
  | String c r => if isspace c then lstrip r else s
  end.

Fixpoint rstrip (s : string) : string :=
  match s with
  | EmptyString => EmptyString
  | String c r =>
      match rstrip r with
      | EmptyString => if isspace c then EmptyString else String c EmptyString
      | r' => String c r'
      end
  end.

(** [s.strip()] *)
Definition strip (s : string) : string := rstrip (lstrip s).

(** [s.startswith(p)] *)
Definition startswith (s p : string) : bool := String.prefix p s.

(** Truth value of a string. *)
Definition truthy (s : string) : bool :=
  match s with EmptyString => false | _ => true end.

(** [x in (a, b, ...)] for strings. *)
Definition mem (x : string) (l : list string) : bool :=
  existsb (String.eqb x) l.

(** [s.isdigit()]: non-empty and every character is a digit. *)
Fixpoint all_digits (s : string) : bool :=
  match s with
  | EmptyString => true
  | String c r => isdigit_char c && all_digits r
  end.

Definition isdigit (s : string) : bool := truthy s && all_digits s.

Fixpoint int_acc (acc : Z) (s : string) : option Z :=
  match s with
  | EmptyString => Some acc
  | String c r =>
      if is_ascii_digit c
      then int_acc (10 * acc + (Z.of_N (code c) - 48)) r
      else None
  end.

(** The number of decimal digits [s] starts with. *)
Fixpoint leading_digits (s : string) : nat :=
  match s with
  | EmptyString => 0
  | String c r => if is_ascii_digit c then S (leading_digits r) else 0
  end.

(** The interpreter's default limit on the digits [int] converts (CPython
    3.11 and later, and the security releases of 3.7 to 3.10). *)
Definition max_str_digits : nat := 4300.

(** [int(s)] for a string accepted by [isdigit]: the decimal value, or
    [None] for the [ValueError] raised on more than 4300 digits or on a
    superscript digit. *)
Definition int (s : string) : option Z :=
  match s with
  | EmptyString => None
  | _ => if (max_str_digits <? leading_digits s)%nat then None
         else int_acc 0 s
  end.

End Latin1.

(** ** Text over arbitrary Unicode code points *)

Abbreviation ustr := (list N).

Module Ustr.

(** A literal of the source, character by character. *)
Fixpoint lit (s : string) : ustr :=
  match s with
  | EmptyString => []
  | String c r => Latin1.code c :: lit r
  end.

(** [str.isspace] on one code point. *)
Definition isspace (n : N) : bool :=
  (((9 <=? n) && (n <=? 13)) || ((28 <=? n) && (n <=? 32))
   || (n =? 133) || (n =? 160) || (n =? 5760)
   || ((8192 <=? n) && (n <=? 8202)) || (n =? 8232) || (n =? 8233)
   || (n =? 8239) || (n =? 8287) || (n =? 12288))%N.

Fixpoint lstrip_by (drop : N → bool) (s : ustr) : ustr :=
  match s with
  | [] => []
  | c :: r => if drop c then lstrip_by drop r else s
  end.

Fixpoint rstrip_by (drop : N → bool) (s : ustr) : ustr :=
  match s with
  | [] => []
  | c :: r =>
      match rstrip_by drop r with
      | [] => if drop c then [] else [c]
      | r' => c :: r'
      end
  end.

(** [s.strip()] *)
Definition strip (s : ustr) : ustr := rstrip_by isspace (lstrip_by isspace s).

(** [s.strip(chars)] *)
Definition strip_chars (s chars : ustr) : ustr :=
  let drop c := bool_decide (c ∈ chars) in
  rstrip_by drop (lstrip_by drop s).

(** [s.startswith(p)] *)
Fixpoint startswith (s p : ustr) : bool :=
  match p, s with
  | [], _ => true
  | _ :: _, [] => false
  | a :: p', b :: s' => (a =? b)%N && startswith s' p'
  end.

(** [sep.join(parts)] *)
Fixpoint join (sep : ustr) (parts : list ustr) : ustr :=
  match parts with
  | [] => []
  | [s] => s
  | s :: rest => s ++ sep ++ join sep rest
  end.

(** [str(z)] for an integer. *)
Definition dec (z : Z) : ustr := lit (NilZero.string_of_int (Z.to_int z)).

End Ustr.

(** ** Items and Python objects *)

(** A value decoded from JSON.  A float carries the text [str] renders
    it as. *)
Inductive pyobj : Type :=
| PNone
| PBool (b : bool)
| PInt (z : Z)
| PFloat (rendered : ustr)
| PStr (s : ustr)
| PList (l : list pyobj)
| PDict (d : list (ustr * pyobj)).

(** [type(o).__name__] *)
Definition type_name (o : pyobj) : string :=
  match o with
  | PNone => "NoneType"
  | PBool _ => "bool"
  | PInt _ => "int"
  | PFloat _ => "float"
  | PStr _ => "str"
  | PList _ => "list"
  | PDict _ => "dict"
  end.

Abbreviation point := (Q * Q)%type.

(** The dictionary of one text region: the keys ["text"], ["box"],
    ["conf"] set by the pipeline, and the optional ["index"] and
    ["translation"]. *)
Record item : Type := Item {
  text : ustr;
  box : list point;
  conf : Q;
  index : option Z;
  translation : option pyobj
}.

(** ** Python arithmetic on numbers *)
Module PyNum.

(** [a < b] *)
Definition Qltb (a b : Q) : bool := negb (Qle_bool b a).

(** [min(xs)] and [max(xs)] of a sequence: the first least (greatest)
    element; [None] on the empty sequence, where Python raises. *)
Definition py_min (xs : list Q) : option Q :=
  match xs with
  | [] => None
  | x :: r => Some (fold_left (λ best y, if Qltb y best then y else best) r x)
  end.

Definition py_max (xs : list Q) : option Q :=
  match xs with
  | [] => None
  | x :: r => Some (fold_left (λ best y, if Qltb best y then y else best) r x)
  end.

(** [min(a, b)] and [max(a, b)] of two arguments. *)
Definition min2 (a b : Q) : Q := if Qltb b a then b else a.
Definition max2 (a b : Q) : Q := if Qltb a b then b else a.

(** [sum(xs)] *)
Definition Qsum (l : list Q) : Q := foldl Qplus 0%Q l.

(** *** Binary64 *)

(** [2 ** k] for any integer [k]. *)
Definition pow2 (k : Z) : Q :=
  if (0 <=? k)%Z then inject_Z (2 ^ k) else 1 # Z.to_pos (2 ^ (- k)).

(** The nearest integer, ties to the even one. *)
Definition rint (q : Q) : Z :=
  let f := Qfloor q in
  let frac := (q - inject_Z f)%Q in
  if Qltb frac (1 # 2) then f
  else if Qltb (1 # 2) frac then (f + 1)%Z
  else if Z.even f then f else (f + 1)%Z.

(** The binary64 number nearest to [q], ties to even: 53 significant
    bits over the binade [2 ** e <= |q| < 2 ** (e + 1)], and no unit in
    the last place below [2 ** -1074].  Overflow is not modelled. *)
Definition round_double (q : Q) : Q :=
  let q := Qred q in
  let n := Z.abs (Qnum q) in
  if (n =? 0)%Z then 0%Q
  else
    let a := Qabs q in
    let e0 := (Z.log2 n - Z.log2 (Zpos (Qden q)))%Z in
    let e := if Qle_bool (pow2 e0) a then e0 else (e0 - 1)%Z in
    let u := Z.max (e - 52) (-1074) in
    let m := rint (a / pow2 u) in
    let r := (inject_Z m * pow2 u)%Q in
    Qred (if (Qnum q <? 0)%Z then - r else r).

(** [a + b], [a - b], [a * b] and [a / b] on floats. *)
Definition fadd (a b : Q) : Q := round_double (a + b).
Definition fsub (a b : Q) : Q := round_double (a - b).
Definition fmul (a b : Q) : Q := round_double (a * b).
Definition fdiv (a b : Q) : Q := round_double (a / b).

(** [sum(xs)] of floats: from 0, left to right, each addition rounded.
    The compensated summation of CPython 3.12 and later, which can differ
    in the last place, is not modelled. *)
Definition fsum (l : list Q) : Q := foldl fadd 0%Q l.

End PyNum.

(** ** [ocr_utils.py] *)
Module OcrUtils.
Import PyNum.

(** The tuple [(x1, y1, x2, y2)]. *)
Record rect : Type := Rect { rx1 : Q; ry1 : Q; rx2 : Q; ry2 : Q }.

Definition box_to_rect (box : list point) : option rect :=
  let xs := map fst box in
  let ys := map snd box in
  x1 ← py_min xs; y1 ← py_min ys; x2 ← py_max xs; y2 ← py_max ys;
  Some (Rect x1 y1 x2 y2).

Definition rect_center (r : rect) : point :=
  ((rx1 r + rx2 r) / 2, (ry1 r + ry2 r) / 2)%Q.

(** [sorted(l, key=...)] is a stable sort; [leb a b] compares the keys.
    Its result is the one stable arrangement, computed here by insertion. *)
Fixpoint insert_by {A} (leb : A → A → bool) (x : A) (l : list A) : list A :=
  match l with
  | [] => [x]
  | y :: r => if leb x y then x :: y :: r else y :: insert_by leb x r
  end.

Definition py_sorted {A} (leb : A → A → bool) (l : list A) : list A :=
  foldr (insert_by leb) [] l.

(** An item with its centre [((cx, cy), it)]. *)
Abbreviation centered := (point * item)%type.

Definition center_item (it : item) : option centered :=
  r ← box_to_rect (box it); Some (rect_center r, it).

(** [row_bucket = max(12.0, y_span / 20.0)]: the difference and the
    quotient are rounded as the floats they are. *)
Definition row_bucket_of (ys : list Q) : Q :=
  let y_span := match py_max ys, py_min ys with
                | Some hi, Some lo => fsub hi lo
                | _, _ => 1%Q
                end in
  max2 12 (fdiv y_span 20).

(** [int(y // row_bucket)]: floor division of floats gives the floor of
    the exact quotient. *)
Definition row_key (row_bucket y : Q) : Z := Qfloor (y / row_bucket).

(** [buckets.setdefault(k, []).append(v)] *)
Definition setdefault_append (k : Z) (v : centered)
    (buckets : gmap Z (list centered)) : gmap Z (list centered) :=
  <[k := default [] (buckets !! k) ++ [v]]> buckets.

Definition group_rows (row_bucket : Q) (centers : list centered)
  : gmap Z (list centered) :=
  foldl (λ buckets c, setdefault_append (row_key row_bucket (c.1.2)) c buckets)
        ∅ centers.

(** [sorted(buckets.keys())] *)
Definition sorted_keys (buckets : gmap Z (list centered)) : list Z :=
  py_sorted Z.leb (elements (dom buckets)).

Definition cx_leb (a b : centered) : bool := Qle_bool (a.1.1) (b.1.1).

Definition order_rows (row_bucket : Q) (centers : list centered) : list item :=
  let buckets := group_rows row_bucket centers in
  flat_map (λ rk, map snd (py_sorted cx_leb (default [] (buckets !! rk))))
           (sorted_keys buckets).

Definition sort_reading_order (items : list item) : option (list item) :=
  match items with
  | [] => Some items
  | _ =>
      centers ← mapM center_item items;
      let ys := map (λ c : centered, c.1.2) centers in
      Some (order_rows (row_bucket_of ys) centers)
  end.

(** The merge predicate of line 83. *)
Definition same_line (threshold : Q) (ci cj : point) : bool :=
  Qltb (Qabs (ci.2 - cj.2)) (threshold / 2)
  && Qltb (Qabs (ci.1 - cj.1)) (threshold * 2).

(** The inner loop over [j in range(i + 1, len(items))]. *)
Fixpoint scan_partners (items : list item) (threshold : Q) (ci : point)
    (js : list nat) (to_merge : list item) (skip : gset nat)
  : option (list item * gset nat) :=
  match js with
  | [] => Some (to_merge, skip)
  | j :: js' =>
      if decide (j ∈ skip) then
        scan_partners items threshold ci js' to_merge skip
      else
        it_j ← items !! j;
        rect_j ← box_to_rect (box it_j);
        if same_line threshold ci (rect_center rect_j)
        then scan_partners items threshold ci js'
               (to_merge ++ [it_j]) ({[ j ]} ∪ skip)
        else scan_partners items threshold ci js' to_merge skip
  end.

(** Lines 91 to 112: the region synthesised from a group. *)
Definition merge_group (to_merge : list item) : option item :=
  let merged_text := Ustr.join (Ustr.lit " ") (map text to_merge) in
  all_boxes ← mapM (λ it, box_to_rect (box it)) to_merge;
  x1 ← py_min (map rx1 all_boxes);
  y1 ← py_min (map ry1 all_boxes);
  x2 ← py_max (map rx2 all_boxes);
  y2 ← py_max (map ry2 all_boxes);
  let merged_box := [(x1, y1); (x2, y1); (x2, y2); (x1, y2)] in
  let avg_conf :=
    (Qsum (map conf to_merge) / inject_Z (Z.of_nat (length to_merge)))%Q in
  Some (Item merged_text merged_box avg_conf None None).

(** The outer loop over [enumerate(items)]. *)
Fixpoint merge_loop (items : list item) (threshold : Q)
    (rest : list (nat * item)) (merged : list item) (skip : gset nat)
  : option (list item) :=
  match rest with
  | [] => Some merged
  | (i, it) :: rest' =>
      if decide (i ∈ skip) then merge_loop items threshold rest' merged skip
      else
        rect_i ← box_to_rect (box it);
        '(to_merge, skip') ←
          scan_partners items threshold (rect_center rect_i)
            (seq (S i) (length items - S i)) [it] skip;
        if (length to_merge =? 1)%nat
        then merge_loop items threshold rest' (merged ++ [it]) skip'
        else
          m ← merge_group to_merge;
          merge_loop items threshold rest' (merged ++ [m]) skip'
  end.

Definition enumerate {A} (l : list A) : list (nat * A) :=
  imap (λ i x, (i, x)) l.

Definition merge_nearby_boxes (items : list item) (threshold : Q)
  : option (list item) :=
  if (length items <=? 1)%nat then Some items
  else merge_loop items threshold (enumerate items) [] ∅.

End OcrUtils.

(** ** The language normaliser of [app.py] *)
Module App.

(** The tags the normaliser pairs with English. *)
Definition chinese_tags : list string :=
  ["ch_sim"; "ch_tra"; "zh_sim"; "zh_tra"].
Definition latin_tags : list string :=
  ["fr"; "es"; "de"; "ru"; "pt"; "it"; "tr"].
Definition recognized_tags : list string :=
  chinese_tags ++ ["ja"; "ko"] ++ ["ar"] ++ latin_tags.

(** [(primary or "en").strip().lower()]; [None] is an unspecified tag. *)
Definition normalized_primary (primary : option string) : string :=
  let p := match primary with
           | Some s => if Latin1.truthy s then s else "en"
           | None => "en"
           end in
  Latin1.lower (Latin1.strip p).

Definition safe_easyocr_lang_list (primary : option string) : list string :=
  let primary := normalized_primary primary in
  if Latin1.mem primary chinese_tags then
    if Latin1.startswith primary "ch_sim" || String.eqb primary "zh_sim"
    then ["ch_sim"; "en"] else ["ch_tra"; "en"]
  else if Latin1.mem primary ["ja"; "ko"] then [primary; "en"]
  else if String.eqb primary "ar" then ["ar"; "en"]
  else if Latin1.mem primary latin_tags then [primary; "en"]
  else [if Latin1.truthy primary then primary else "en"].

(** One raw detection [(box, text, conf)] of the OCR engine. *)
Abbreviation detection := (list point * ustr * Q)%type.

(** [_clean]: detections with non-blank text, the text stripped. *)
Definition clean (raw : list detection) : list detection :=
  omap (λ d : detection,
          let t := Ustr.strip (d.1.2) in
          match t with
          | [] => None
          | _ => Some (d.1.1, t, d.2)
          end) raw.

(** [_score]: number of cleaned detections times their mean confidence,
    the sum, the quotient and the product rounded as the floats they
    are. *)
Definition score (raw : list detection) : Q :=
  let raw := clean raw in
  match raw with
  | [] => 0%Q
  | _ =>
      let confs := map snd raw in
      let avg_conf :=
        PyNum.fdiv (PyNum.fsum confs)
          (inject_Z (Z.of_nat (Nat.max 1 (length confs)))) in
      PyNum.fmul (inject_Z (Z.of_nat (length raw))) avg_conf
  end.

(** The dictionary [best]. *)
Record best_result : Type := Best {
  best_lang : string;
  best_raw : list detection;
  best_score : Q
}.

Definition candidates : list string :=
  ["ja"; "ch_sim"; "ko"; "en"; "ar"; "fr"; "ch_tra"].

(** The OCR engine: [ocr calls langs] is what building the reader for
    [langs] and reading the page yields at the [calls]-th invocation,
    [None] when either step raises. *)
Definition ocr_oracle : Type := nat → list string → option (list detection).

(** The probing loop; [calls] counts the invocations made so far. *)
Fixpoint probe (ocr : ocr_oracle) (calls : nat) (todo : list string)
    (best : best_result) : best_result :=
  match todo with
  | [] => best
  | primary :: todo' =>
      let langs := safe_easyocr_lang_list (Some primary) in
      match ocr calls langs with
      | None => probe ocr (S calls) todo' best
      | Some raw =>
          let s := score raw in
          let best :=
            if PyNum.Qltb (best_score best) s then Best primary raw s
            else best in
          if Qle_bool 6 (best_score best)
             && (8 <=? length (clean (best_raw best)))%nat
          then best
          else probe ocr (S calls) todo' best
      end
  end.

Definition run_ocr_auto (ocr : ocr_oracle) : string * list detection :=
  let best := probe ocr 0 candidates (Best "en" [] 0) in
  (best_lang best, best_raw best).

End App.

(** ** [translate_utils.py] *)
Module TranslateUtils.
Import PyNum.

(** *** The outside world *)

(** An exception caught by the handlers of [translate_openai_batch],
    with the text [str(e)] renders. *)
Inductive pyerr : Type :=
| JSONDecodeError (msg : ustr)
| OtherError (msg : ustr).

(** The request [_openai_chat_completions] posts: the key, the model and
    the user payload. *)
Record chat_request : Type := ChatRequest {
  req_api_key : string;
  req_model : string;
  req_source_language : string;
  req_target_language : string;
  req_segments : list ustr
}.

(** What the code observes of a chat-completions response. *)
Record chat_response : Type := ChatResponse {
  status_code : Z;
  (** [r.headers.get("Retry-After")] *)
  retry_after : option string;
  (** lines 163 to 169: the body decodes and names insufficient_quota *)
  quota_exhausted : bool;
  (** [r.text] *)
  body_text : ustr;
  (** [r.json()["choices"][0]["message"]["content"]], a string, or the
      exception its evaluation raises *)
  message_content : pyerr + ustr
}.

(** The request of [translate_libre]. *)
Record libre_request : Type := LibreRequest {
  libre_q : ustr;
  libre_source : string;
  libre_target : string
}.

Record libre_response : Type := LibreResponse {
  libre_status : Z;
  (** [r.json()], [None] when it raises *)
  libre_json : option pyobj
}.

(** The effects the code performs, in the order it performs them. *)
Inductive event : Type :=
| ChatCall (req : chat_request)
| LibreCall (req : libre_request)
| Sleep (secs : Q).

Abbreviation history := (list event).

(** The environment: every oracle may depend on the whole history. *)
Record env : Type := Env {
  (** [requests.post] to the chat endpoint; [inl] when it raises *)
  chat_post : history → chat_request → pyerr + chat_response;
  (** [requests.post] to the fallback service; [None] when it raises *)
  libre_post : history → libre_request → option libre_response;
  (** [random.random()] *)
  random : history → Q;
  (** [json.loads] *)
  json_loads : ustr → pyerr + pyobj;
  (** [str] of a list or dictionary *)
  repr_container : pyobj → ustr
}.

(** Computations that extend the history. *)
Definition M (A : Type) : Type := history → A * history.

Definition ret {A} (a : A) : M A := λ h, (a, h).

Definition bind {A B} (m : M A) (k : A → M B) : M B :=
  λ h, let '(a, h') := m h in k a h'.

Notation "'do' x <- m ; k" := (bind m (λ x, k))
  (at level 10, x name, m at level 100, k at level 200,
   format "'do'  x  <-  m ;  '/' k").

(** [time.sleep(secs)] *)
Definition sleep (secs : Q) : M unit := λ h, (tt, h ++ [Sleep secs]).

(** [r.ok]: the status is not a client or server error. *)
Definition status_ok (status : Z) : bool :=
  negb ((400 <=? status)%Z && (status <? 600)%Z).

(** [d.get(key)] on a decoded dictionary. *)
Fixpoint dict_get (d : list (ustr * pyobj)) (key : ustr) : option pyobj :=
  match d with
  | [] => None
  | (k, v) :: r => if bool_decide (k = key) then Some v else dict_get r key
  end.

(** *** [translate_libre] *)

(** The body of the [try]: [None] when an exception reaches the
    handler. *)
Definition libre_try (e : env) (text : ustr) (src tgt : string)
  : M (option pyobj) :=
  λ h,
    let req := LibreRequest text src tgt in
    let h' := h ++ [LibreCall req] in
    match libre_post e h req with
    | None => (None, h')
    | Some r =>
        if status_ok (libre_status r) then
          match libre_json r with
          | Some (PDict d) =>
              let key := Ustr.lit "translatedText" in
              (Some (default (PStr text) (dict_get d key)), h')
          | _ => (None, h')
          end
        else (Some (PStr text), h')
    end.

(** The function itself; its result is [None] when it raises, which the
    handler [except Exception: return text] never lets happen. *)
Definition translate_libre (e : env) (text : ustr) (src tgt : string)
  : M (option pyobj) :=
  do r <- libre_try e text src tgt;
  match r with
  | Some v => ret (Some v)
  | None => ret (Some (PStr text))
  end.

(** *** [translate_openai_batch] *)

Definition lang_map (tag : string) : string :=
  if Latin1.mem tag ["ch_sim"; "ch_tra"; "zh_sim"; "zh_tra"] then "zh"
  else tag.

(** Nearest integer, ties to even. *)
Definition round_half_even (q : Q) : Z :=
  let f := Qfloor q in
  let frac := (q - inject_Z f)%Q in
  if Qltb frac (1 # 2) then f
  else if Qltb (1 # 2) frac then (f + 1)%Z
  else if Z.even f then f else (f + 1)%Z.

(** [f"{q:.1f}"] for the non-negative durations the code formats. *)
Definition format_1f (q : Q) : ustr :=
  let t := round_half_even (q * 10) in
  Ustr.dec (t / 10) ++ Ustr.lit "." ++ Ustr.dec (t mod 10).

(** [str(t)] *)
Definition str_of (e : env) (t : pyobj) : ustr :=
  match t with
  | PNone => Ustr.lit "None"
  | PBool true => Ustr.lit "True"
  | PBool false => Ustr.lit "False"
  | PInt z => Ustr.dec z
  | PFloat rendered => rendered
  | PStr s => s
  | PList _ | PDict _ => repr_container e t
  end.

(** [requests.post] through [_openai_chat_completions]. *)
Definition post (e : env) (req : chat_request) : M (pyerr + chat_response) :=
  λ h, (chat_post e h req, h ++ [ChatCall req]).

(** [(2 ** attempt) + (random.random() * 1.5)], the product and the sum
    rounded; the value of the oracle is read as the float nearest to
    it. *)
Definition backoff (e : env) (h : history) (attempt : nat) : Q :=
  fadd (inject_Z (2 ^ Z.of_nat attempt))
       (fmul (round_double (random e h)) (3 # 2)).

(** Lines 171 to 177: the duration of the sleep after a 429 response;
    [None] when [int] raises. *)
Definition rate_limit_sleep (e : env) (retry_after : option string)
    (attempt : nat) : M (option Q) :=
  λ h,
    let sleep_s :=
      match retry_after with
      | Some s =>
          if Latin1.isdigit s then inject_Z <$> Latin1.int s
          else Some (backoff e h attempt)
      | None => Some (backoff e h attempt)
      end in
    (min2 45 <$> sleep_s, h).

(** Lines 192 to 195: removal of a markdown code fence. *)
Definition strip_fences (content : ustr) : ustr :=
  if Ustr.startswith content (Ustr.lit "```") then
    let content := Ustr.strip_chars content (Ustr.lit "`") in
    if Ustr.startswith content (Ustr.lit "json")
    then Ustr.strip (drop 4 content) else content
  else content.

Definition bad_shape (texts : list ustr) : pyerr :=
  OtherError (Ustr.lit "Bad JSON shape: expected list of "
              ++ Ustr.dec (Z.of_nat (length texts))).

Definition no_get_attribute (o : pyobj) : pyerr :=
  OtherError (Ustr.lit "'" ++ Ustr.lit (type_name o)
              ++ Ustr.lit "' object has no attribute 'get'").

(** Lines 189 to 206: the translations of a successful response, or the
    exception raised on the way. *)
Definition parse_translations (e : env) (texts : list ustr)
    (r : chat_response) : pyerr + list ustr :=
  match message_content r with
  | inl err => inl err
  | inr raw =>
      let content := strip_fences (Ustr.strip raw) in
      match json_loads e content with
      | inl err => inl err
      | inr (PDict d) =>
          match default PNone (dict_get d (Ustr.lit "translations")) with
          | PList translations =>
              if (length translations =? length texts)%nat then
                inr (imap (λ i t, match t with
                                  | PNone => default [] (texts !! i)
                                  | _ => str_of e t
                                  end) translations)
              else inl (bad_shape texts)
          | _ => inl (bad_shape texts)
          end
      | inr data => inl (no_get_attribute data)
      end
  end.

(** The text [last_err] receives in the two handlers. *)
Definition describe (err : pyerr) : ustr :=
  match err with
  | JSONDecodeError msg => Ustr.lit "JSON parse error: " ++ msg
  | OtherError msg => Ustr.lit "Unexpected error: " ++ msg
  end.

(** [min(10, 1.5 + attempt)] *)
Definition handler_sleep (attempt : nat) : Q :=
  min2 10 ((3 # 2) + inject_Z (Z.of_nat attempt)).

Definition rate_limit_message (attempt max_retries : nat) (sleep_s : Q)
  : ustr :=
  Ustr.lit "429 rate limit (attempt " ++ Ustr.dec (Z.of_nat attempt + 1)
  ++ Ustr.lit "/" ++ Ustr.dec (Z.of_nat max_retries)
  ++ Ustr.lit "), waiting " ++ format_1f sleep_s ++ Ustr.lit "s".

(** The [ValueError] of [int(s)]: the digit limit is checked on the
    digits the string starts with, before the rest is looked at. *)
Definition int_error (s : string) : pyerr :=
  if (Latin1.max_str_digits <? Latin1.leading_digits s)%nat then
    OtherError
      (Ustr.lit "Exceeds the limit (4300 digits) for integer string conversion"
       ++ Ustr.lit ": value has "
       ++ Ustr.dec (Z.of_nat (Latin1.leading_digits s))
       ++ Ustr.lit " digits; use sys.set_int_max_str_digits() "
       ++ Ustr.lit "to increase the limit")
  else
    OtherError (Ustr.lit "invalid literal for int() with base 10: '"
                ++ Ustr.lit s ++ Ustr.lit "'").

(** The loop [for attempt in range(max_retries)] over the attempts still
    [todo].  It ends with [inl translations] at the [return] of line 206,
    and with [inr last_err] when it breaks or runs out. *)
Fixpoint attempts (e : env) (req : chat_request) (texts : list ustr)
    (max_retries : nat) (todo : list nat) (last_err : option ustr)
  : M (list ustr + option ustr) :=
  match todo with
  | [] => ret (inr last_err)
  | attempt :: todo' =>
      let handle err :=
        do _ <- sleep (handler_sleep attempt);
        attempts e req texts max_retries todo' (Some (describe err)) in
      do r <- post e req;
      match r with
      | inl err => handle err
      | inr r =>
          if (status_code r =? 429)%Z then
            if quota_exhausted r
            then ret (inr (Some (Ustr.lit "insufficient_quota")))
            else
              do s <- rate_limit_sleep e (retry_after r) attempt;
              match s with
              | None => handle (int_error (default "" (retry_after r)))
              | Some sleep_s =>
                  do _ <- sleep sleep_s;
                  attempts e req texts max_retries todo'
                    (Some (rate_limit_message attempt max_retries sleep_s))
              end
          else if negb (status_ok (status_code r)) then
            ret (inr (Some (Ustr.lit "OpenAI error "
                            ++ Ustr.dec (status_code r) ++ Ustr.lit ": "
                            ++ take 200 (body_text r))))
          else
            match parse_translations e texts r with
            | inl err => handle err
            | inr translations => ret (inl translations)
            end
      end
  end.

(** The tag of the failure fallback, lines 219 to 221. *)
Definition failure_tag (last_err : option ustr) : ustr :=
  match last_err with
  | Some ((_ :: _) as err) =>
      Ustr.lit "[OpenAI failed: " ++ err ++ Ustr.lit "]"
  | _ => Ustr.lit "[OpenAI failed]"
  end.

Definition translate_openai_batch (e : env) (texts : list ustr)
    (src tgt api_key model : string) (max_retries : nat) : M (list ustr) :=
  if negb (Latin1.truthy api_key) then
    ret (map (λ t, Ustr.lit "[Missing OpenAI key] " ++ t) texts)
  else
    let req := ChatRequest api_key model (lang_map src) (lang_map tgt) texts in
    do out <- attempts e req texts max_retries (seq 0 max_retries) None;
    match out with
    | inl translations => ret translations
    | inr last_err =>
        let tag := failure_tag last_err in
        ret (map (λ t, tag ++ Ustr.lit " " ++ t) texts)
    end.

(** *** [translate_batch] *)

(** [range(0, stop, step)]; [None] for the [ValueError] of a zero step. *)
Definition py_range (stop : nat) (step : Z) : option (list nat) :=
  if (step =? 0)%Z then None
  else if (step <? 0)%Z then Some []
  else
    let k := Z.to_nat step in
    Some (map (λ n, n * k)%nat (seq 0 ((stop + k - 1) / k))).

Definition set_translation (it : item) (t : pyobj) : item :=
  Item (text it) (box it) (conf it) (index it) (Some t).

Section Batch.
Variables (e : env) (ocr_lang target_lang openai_key openai_model : string).

(** Lines 268 to 277: the loop over [zip(chunk, chunk_results)]. *)
Fixpoint reconcile (pairs : list (ustr * ustr)) (translated_texts : list pyobj)
  : M (list pyobj) :=
  match pairs with
  | [] => ret translated_texts
  | (original, result) :: pairs' =>
      if Ustr.startswith result (Ustr.lit "[OpenAI failed") then
        do fallback <- translate_libre e original ocr_lang target_lang;
        match fallback with
        | Some fallback => reconcile pairs' (translated_texts ++ [fallback])
        | None => reconcile pairs' (translated_texts ++ [PStr result])
        end
      else reconcile pairs' (translated_texts ++ [PStr result])
  end.

(** Lines 255 to 280: the loop over the batch offsets. *)
Fixpoint batches (texts : list ustr) (batch_size : nat) (offsets : list nat)
    (translated_texts : list pyobj) : M (list pyobj) :=
  match offsets with
  | [] => ret translated_texts
  | i :: offsets' =>
      let chunk := take batch_size (drop i texts) in
      do chunk_results <-
        translate_openai_batch e chunk ocr_lang target_lang openai_key
          openai_model 5;
      do translated_texts <-
        reconcile (zip chunk chunk_results) translated_texts;
      do _ <- sleep (1 # 2);
      batches texts batch_size offsets' translated_texts
  end.

(** Lines 289 to 291: one fallback-service call per item; [None] if a
    call raises. *)
Fixpoint libre_each (items : list item) : M (option (list item)) :=
  match items with
  | [] => ret (Some [])
  | it :: items' =>
      do r <- translate_libre e (Ustr.strip (text it)) ocr_lang target_lang;
      match r with
      | None => ret None
      | Some t =>
          do rest <- libre_each items';
          ret (cons (set_translation it t) <$> rest)
      end
  end.

Definition translate_batch (items : list item) (backend : string)
    (batch_size : Z) : M (option (list item)) :=
  match items with
  | [] => ret (Some items)
  | _ =>
      let texts := map (λ it, Ustr.strip (text it)) items in
      if Latin1.startswith backend "OpenAI" then
        match py_range (length texts) batch_size with
        | None => ret None
        | Some offsets =>
            do translated_texts <-
              batches texts (Z.to_nat batch_size) offsets [];
            ret (Some (imap (λ i it,
                         set_translation it
                           (default (PStr (text it)) (translated_texts !! i)))
                       items))
        end
      else libre_each items
  end.

End Batch.

End TranslateUtils.

(** ** Notions used to state the properties *)
Module OcrSpec.
Import PyNum OcrUtils.

#[export] Instance Qeq_decision (a b : Q) : Decision (a == b)%Q := Qeq_dec a b.

(** The order a boolean comparison decides. *)
Definition le_of {A} (leb : A → A → bool) : relation A :=
  λ a b, leb a b = true.

(** The row bucket of a centred item under row height [rb]. *)
Definition key_of (rb : Q) (c : centered) : Z := row_key rb (c.1.2).

(** [order_rows] before the centres are dropped. *)
Definition order_centered (rb : Q) (cs : list centered) : list centered :=
  let buckets := group_rows rb cs in
  flat_map (λ rk, py_sorted cx_leb (default [] (buckets !! rk)))
           (sorted_keys buckets).

(** One row of the output: the items of bucket [k], left to right. *)
Definition chunk_of (rb : Q) (cs : list centered) (k : Z) : list centered :=
  py_sorted cx_leb (filter (λ c, key_of rb c = k) cs).

(** Row-major order: an earlier row, or the same row and not further
    right. *)
Definition row_major (rb : Q) : relation centered :=
  λ a b, (key_of rb a < key_of rb b)%Z
         ∨ (key_of rb a = key_of rb b ∧ (a.1.1 <= b.1.1)%Q).

(** The groups [to_merge] the outer loop of [merge_nearby_boxes] builds,
    one per region it appends, in the order it appends them: the loop of
    [merge_loop] with the group recorded instead of the region made from
    it. *)
Fixpoint merge_groups_loop (items : list item) (threshold : Q)
    (rest : list (nat * item)) (groups : list (list item)) (skip : gset nat)
  : option (list (list item)) :=
  match rest with
  | [] => Some groups
  | (i, it) :: rest' =>
      if decide (i ∈ skip) then
        merge_groups_loop items threshold rest' groups skip
      else
        rect_i ← box_to_rect (box it);
        '(to_merge, skip') ←
          scan_partners items threshold (rect_center rect_i)
            (seq (S i) (length items - S i)) [it] skip;
        merge_groups_loop items threshold rest' (groups ++ [to_merge]) skip'
  end.

Definition merge_groups (items : list item) (threshold : Q)
  : option (list (list item)) :=
  if (length items <=? 1)%nat then Some (map (λ it, [it]) items)
  else merge_groups_loop items threshold (enumerate items) [] ∅.

(** The rectangle of a region. *)
Definition rect_of (it : item) : option rect := box_to_rect (box it).

Definition contains (outer inner : rect) : Prop :=
  (rx1 outer <= rx1 inner)%Q ∧ (ry1 outer <= ry1 inner)%Q
  ∧ (rx2 inner <= rx2 outer)%Q ∧ (ry2 inner <= ry2 outer)%Q.

(** [u] is the union rectangle of [rs]: it contains every rectangle of
    [rs] and each of its sides is a side of one of them. *)
Definition is_union_rect (rs : list rect) (u : rect) : Prop :=
  (∀ r, r ∈ rs → contains u r)
  ∧ rx1 u ∈ map rx1 rs ∧ ry1 u ∈ map ry1 rs
  ∧ rx2 u ∈ map rx2 rs ∧ ry2 u ∈ map ry2 rs.

(** The axis-aligned quadrilateral of a rectangle, clockwise from the
    top-left corner. *)
Definition quad (u : rect) : list point :=
  [(rx1 u, ry1 u); (rx2 u, ry1 u); (rx2 u, ry2 u); (rx1 u, ry2 u)].

Definition mean (l : list Q) : Q :=
  (Qsum l / inject_Z (Z.of_nat (length l)))%Q.

(** What the outer loop appends for a group. *)
Definition emitted (g : list item) (o : item) : Prop :=
  match g with
  | [it] => o = it
  | _ => merge_group g = Some o
  end.

(** [g] lists the items at the positions [ig]. *)
Definition at_indices (items : list item) : list nat → list item → Prop :=
  Forall2 (λ j it, items !! j = Some it).

(** The words of the reading-order claims, written out: the centre of a
    region is the midpoint of its bounding rectangle, its row is
    [floor(center_y / row_height)], and the row height is the one the
    function computes from the centre ordinates of its input. *)
Definition centre (it : item) : option point :=
  r ← rect_of it;
  Some (((rx1 r + rx2 r) / 2)%Q, ((ry1 r + ry2 r) / 2)%Q).

Definition row_of (row_height : Q) (c : point) : Z :=
  Qfloor (c.2 / row_height).

Definition row_height (items : list item) : Q :=
  row_bucket_of (omap (λ it, snd <$> centre it) items).

(** The region lies in row [k] and its centre has abscissa [x]. *)
Definition in_cell (rh : Q) (k : Z) (x : Q) (it : item) : Prop :=
  match centre it with
  | Some c => (c.1 == x)%Q ∧ row_of rh c = k
  | None => False
  end.

#[export] Instance in_cell_decision rh k x it : Decision (in_cell rh k x it) :=
  match centre it as o
    return Decision match o with
                    | Some c => (c.1 == x)%Q ∧ row_of rh c = k
                    | None => False
                    end
  with
  | Some c => and_dec (Qeq_decision (c.1) x) (decide (row_of rh c = k))
  | None => False_dec
  end.

End OcrSpec.

Module TranslateSpec.
Import TranslateUtils.

(** The fallback call fails: the request raises, the status is an error,
    or the body does not decode to a dictionary. *)
Definition fallback_fails (e : env) (h : history) (req : libre_request)
  : Prop :=
  match libre_post e h req with
  | None => True
  | Some r =>
      status_ok (libre_status r) = false
      ∨ libre_json r = None
      ∨ ∃ o, libre_json r = Some o ∧ type_name o ≠ "dict"
  end.

(** The fallback requests made in a history, in order. *)
Definition libre_calls (h : history) : list libre_request :=
  omap (λ ev, match ev with LibreCall req => Some req | _ => None end) h.

End TranslateSpec.

(** ** Concrete pages and environments *)
Module Scenario.
Import TranslateUtils.

(** A square box of side 10 around a centre. *)
Definition square (cx cy : Q) : list point :=
  [(cx - 5, cy - 5); (cx + 5, cy - 5); (cx + 5, cy + 5); (cx - 5, cy + 5)]%Q.

Definition region (s : string) (cx cy c : Q) : item :=
  Item (Ustr.lit s) (square cx cy) c None None.

(** Three detections on two rows, out of order. *)
Definition page : list item :=
  [region "third" 10 200 (1 # 2); region "second" 300 12 (1 # 2);
   region "first" 50 10 (1 # 2)].

Definition hello : item := region "Hello" 100 50 (1 # 2).
Definition world : item := region "World" 140 52 (1 # 4).

(** The primary service answers every request with HTTP 500 and the
    fallback service cannot be reached. *)
Definition outage : env :=
  Env (λ _ _, inr (ChatResponse 500 None false (Ustr.lit "boom") (inr [])))
      (λ _ _, None)
      (λ _, 0%Q)
      (λ _, inl (JSONDecodeError []))
      (λ _, []).

(** The primary service answers every request with HTTP 429 and the given
    [Retry-After] header. *)
Definition throttled (header : option string) : env :=
  Env (λ _ _, inr (ChatResponse 429 header false [] (inr [])))
      (λ _ _, None)
      (λ _, (1 # 2)%Q)
      (λ _, inl (JSONDecodeError []))
      (λ _, []).

Definition request : chat_request :=
  ChatRequest "key" "gpt-4o-mini" "ja" "en" [Ustr.lit "hello"].

(** The header value made of the single character SUPERSCRIPT TWO. *)
Definition superscript_two : string := String (ascii_of_N 178) EmptyString.

(** An OCR engine that raises on every configuration. *)
Definition broken_ocr : App.ocr_oracle := λ _ _, None.

End Scenario.

(** ** The rest of [translate_utils.py]: language detection *)
Module Detect.

(** [has_range(lo, hi)]: some character of [text] has its code point in
    the range. *)
Definition has_range (text : ustr) (lo hi : N) : bool :=
  existsb (λ ch, (lo <=? ch)%N && (ch <=? hi)%N) text.

(** A missing or [None] text counts as the empty string, which is the
    text an item without one has here. *)
Definition detect_batch_language (items : list item) : string :=
  let text := Ustr.strip (Ustr.join (Ustr.lit " ") (map text items)) in
  match text with
  | [] => "en"
  | _ =>
      if has_range text 0x0600 0x06FF || has_range text 0x0750 0x077F
      then "ar"
      else if has_range text 0x3040 0x309F || has_range text 0x30A0 0x30FF
      then "ja"
      else if has_range text 0xAC00 0xD7AF then "ko"
      else if has_range text 0x4E00 0x9FFF then "ch_sim"
      else if has_range text 0x00C0 0x00FF then "fr"
      else "en"
  end.

End Detect.

(** ** The data path of [process_local] in [app.py] *)
Module Pipeline.
Import PyNum OcrUtils App TranslateUtils.

(** Lines 183 to 193: the regions kept from the raw detections. *)
Definition collect_items (raw_results : list detection) (min_conf : Q)
  : list item :=
  omap (λ d : detection,
          let t := Ustr.strip (d.1.2) in
          if bool_decide (t = []) || Qltb (d.2) min_conf then None
          else Some (Item t (d.1.1) (d.2) None None)) raw_results.

Definition set_index (it : item) (idx : Z) : item :=
  Item (text it) (box it) (conf it) (Some idx) (translation it).

(** Lines 210 and 211: [enumerate(items, start=1)]. *)
Definition index_items (items : list item) : list item :=
  imap (λ i it, set_index it (Z.of_nat i + 1)) items.

(** Lines 183 to 222, the calls to the user interface left out.  The
    result is [None] when an exception escapes, [Some None] at the early
    [return] of line 199, and the translated items otherwise. *)
Definition process_local (e : env) (raw_results : list detection)
    (detected_lang target_lang backend : string) (min_conf : Q)
    (merge_lines : bool) (openai_key openai_model : string)
  : M (option (option (list item))) :=
  let items := collect_items raw_results min_conf in
  match items with
  | [] => ret (Some None)
  | _ =>
      match (if merge_lines then merge_nearby_boxes items 50 else Some items)
            ≫= sort_reading_order with
      | None => ret None
      | Some items =>
          do r <- translate_batch e detected_lang target_lang openai_key
                    openai_model (index_items items) backend 18;
          ret (Some <$> r)
      end
  end.

End Pipeline.

(** ** [daytona_runner.py]: the lifecycle of the remote sandbox *)
Module DaytonaRunner.

(** Handles of the SDK's client and sandbox objects. *)
Abbreviation client := nat.
Abbreviation sandbox := nat.

(** The calls made to the SDK. *)
Inductive call : Type :=
| NewClient (api_key : option string)
| Create (c : client)
| Delete (c : client) (sb : sandbox)
| Exec (sb : sandbox) (cmd : string).

(** The SDK: what each call returns after the calls made so far, [None]
    when it raises. *)
Record sdk : Type := Sdk {
  new_client : list call → option string → option client;
  create : list call → client → option sandbox;
  delete : list call → client → sandbox → option unit;
  exec : list call → sandbox → string → option unit
}.

(** The module's globals [_daytona_client], [_sandbox] and
    [_sandbox_ready], and the log of the SDK calls made. *)
Record state : Type := State {
  daytona_client : option client;
  the_sandbox : option sandbox;
  sandbox_ready : bool;
  calls : list call
}.

(** A computation on the state; [None] is a raised exception. *)
Definition R (A : Type) : Type := state → option A * state.

Definition get_daytona_client (d : sdk) (api_key : option string) : R client :=
  λ s,
    match daytona_client s with
    | Some c => (Some c, s)
    | None =>
        let key := match api_key with
                   | Some k => if Latin1.truthy k then Some k else None
                   | None => None
                   end in
        let log := calls s ++ [NewClient key] in
        match new_client d (calls s) key with
        | None => (None, State None (the_sandbox s) (sandbox_ready s) log)
        | Some c =>
            (Some c, State (Some c) (the_sandbox s) (sandbox_ready s) log)
        end
    end.

Definition get_or_create_sandbox (d : sdk) (api_key : option string)
  : R sandbox :=
  λ s,
    match the_sandbox s with
    | Some sb => (Some sb, s)
    | None =>
        match get_daytona_client d api_key s with
        | (None, s1) => (None, s1)
        | (Some c, s1) =>
            let log := calls s1 ++ [Create c] in
            match create d (calls s1) c with
            | None =>
                (None, State (daytona_client s1) None (sandbox_ready s1) log)
            | Some sb =>
                (Some sb,
                 State (daytona_client s1) (Some sb) (sandbox_ready s1) log)
            end
        end
    end.

(** The handler of lines 46 to 48 swallows what [daytona.delete]
    raises. *)
Definition reset_sandbox (d : sdk) (api_key : option string) : R unit :=
  λ s,
    match the_sandbox s with
    | Some sb =>
        match get_daytona_client d api_key s with
        | (None, s1) => (None, s1)
        | (Some c, s1) =>
            let log := calls s1 ++ [Delete c sb] in
            match delete d (calls s1) c sb with
            | Some _ | None =>
                (Some tt, State (daytona_client s1) None false log)
            end
        end
    | None => (Some tt, State (daytona_client s) None false (calls s))
    end.

Definition install_commands : list string :=
  ["python -V"; "pip install --upgrade pip";
   String.append
     "pip install easyocr==1.7.1 opencv-python-headless==4.9.0.80 "
     "pillow==10.2.0 numpy==1.26.4 pandas==2.2.0 requests==2.31.0"].

(** [sb.process.exec] on each command in turn, up to the first that
    raises. *)
Fixpoint exec_all (d : sdk) (sb : sandbox) (cmds : list string) : R unit :=
  λ s,
    match cmds with
    | [] => (Some tt, s)
    | cmd :: cmds' =>
        let s1 := State (daytona_client s) (the_sandbox s) (sandbox_ready s)
                    (calls s ++ [Exec sb cmd]) in
        match exec d (calls s) sb cmd with
        | None => (None, s1)
        | Some _ => exec_all d sb cmds' s1
        end
    end.

Definition ensure_sandbox_deps (d : sdk) (api_key : option string) : R unit :=
  λ s,
    if sandbox_ready s then (Some tt, s)
    else
      match get_or_create_sandbox d api_key s with
      | (None, s1) => (None, s1)
      | (Some sb, s1) =>
          match exec_all d sb install_commands s1 with
          | (None, s2) => (None, s2)
          | (Some _, s2) =>
              (Some tt,
               State (daytona_client s2) (the_sandbox s2) true (calls s2))
          end
      end.

(** The state the module starts in. *)
Definition initial : state := State None None false [].

End DaytonaRunner.

(** ** Notions used to state the further properties *)
Module EffectSpec.
Import TranslateUtils.

(** The requests made to the chat endpoint in a history, in order. *)
Definition chat_calls (h : history) : list chat_request :=
  omap (λ ev, match ev with ChatCall req => Some req | _ => None end) h.

(** The durations slept in a history, in order. *)
Definition sleeps (h : history) : list Q :=
  omap (λ ev, match ev with Sleep s => Some s | _ => None end) h.

(** The number of chunks of [batch_size] texts that cover [n] texts. *)
Definition chunk_count (n batch_size : nat) : nat :=
  (n + batch_size - 1) / batch_size.

(** The events of one retry loop: at most [max_retries] requests, all of
    them [req]; no more sleeps than requests, none longer than 45
    seconds; no call to the fallback service. *)
Definition retry_trace (req : chat_request) (max_retries : nat)
    (evs : history) : Prop :=
  ∃ n, n ≤ max_retries
       ∧ chat_calls evs = replicate n req
       ∧ TranslateSpec.libre_calls evs = []
       ∧ Forall (λ s, (s <= 45)%Q) (sleeps evs)
       ∧ length (sleeps evs) ≤ n.

(** The events of a batched translation of [texts]: every chat request
    carries the key, the model and the mapped languages, and at most
    [batch_size] of the texts; every fallback request carries one of the
    texts and the unmapped languages; no sleep exceeds 45 seconds. *)
Definition batch_trace (ocr_lang target_lang openai_key openai_model : string)
    (texts : list ustr) (batch_size : nat) (evs : history) : Prop :=
  Forall (λ r, req_api_key r = openai_key ∧ req_model r = openai_model
               ∧ req_source_language r = lang_map ocr_lang
               ∧ req_target_language r = lang_map target_lang
               ∧ length (req_segments r) ≤ batch_size
               ∧ Forall (λ t, t ∈ texts) (req_segments r))
         (chat_calls evs)
  ∧ Forall (λ r, libre_q r ∈ texts ∧ libre_source r = ocr_lang
                 ∧ libre_target r = target_lang)
           (TranslateSpec.libre_calls evs)
  ∧ Forall (λ s, (s <= 45)%Q) (sleeps evs)
  ∧ length (chat_calls evs) ≤ 5 * chunk_count (length texts) batch_size
  ∧ length (TranslateSpec.libre_calls evs) ≤ length texts.

(** [out] is [items] with every translation set and nothing else
    changed. *)
Definition translated (items out : list item) : Prop :=
  Forall2 (λ it o, text o = text it ∧ box o = box it ∧ conf o = conf it
                   ∧ index o = index it ∧ is_Some (translation o))
          items out.

(** Some text of [items] has a character in the range. *)
Definition mentions (items : list item) (lo hi : N) : bool :=
  existsb (λ it, Detect.has_range (text it) lo hi) items.

(** The calls that set a sandbox up: the client's construction and the
    sandbox's creation. *)
Definition setup_calls (pre : list DaytonaRunner.call) : Prop :=
  length pre ≤ 2
  ∧ Forall (λ c, (∃ k, c = DaytonaRunner.NewClient k)
                 ∨ ∃ cl, c = DaytonaRunner.Create cl) pre.

(** The globals are consistent: a sandbox exists only with a client, and
    is ready only if it exists. *)
Definition consistent (s : DaytonaRunner.state) : Prop :=
  (is_Some (DaytonaRunner.the_sandbox s)
   → is_Some (DaytonaRunner.daytona_client s))
  ∧ (DaytonaRunner.sandbox_ready s = true
     → is_Some (DaytonaRunner.the_sandbox s)).

End EffectSpec.

(** ** Further concrete inputs *)
Module Cases.
Import TranslateUtils.

(** Eight confident detections of one character. *)
Definition eight_lines : list App.detection :=
  replicate 8 (Scenario.square 0 0, Ustr.lit "x", 1%Q).

(** An OCR engine that reads the page with the simplified-Chinese
    configuration only. *)
Definition chinese_page : App.ocr_oracle :=
  λ _ langs,
    if bool_decide (langs = ["ch_sim"; "en"]) then Some eight_lines else None.

(** Raw detections: two to keep, a blank one and one of low
    confidence. *)
Definition detections : list App.detection :=
  [(Scenario.square 10 200, Ustr.lit "third", (1 # 2)%Q);
   (Scenario.square 300 12, Ustr.lit "  ", 1%Q);
   (Scenario.square 50 10, Ustr.lit " first ", (9 # 10)%Q);
   (Scenario.square 300 12, Ustr.lit "low", (1 # 10)%Q)].

(** Four regions, three of them in the first row, two of those with the
    same centre abscissa. *)
Definition tied_page : list item :=
  [Scenario.region "three" 300 4 (1 # 2); Scenario.region "one" 50 2 (1 # 2);
   Scenario.region "four" 10 200 (1 # 2); Scenario.region "two" 50 6 (1 # 2)].

(** A page whose row height, 246 / 20.0, is a float above 12.3: the
    ordinates 123 and 240 fall in the rows 9 and 19, not 10 and 20. *)
Definition tall_page : list item :=
  [Scenario.region "A" 100 0 (1 # 2); Scenario.region "Z" 0 246 (1 # 2);
   Scenario.region "P" 50 123 (1 # 2); Scenario.region "Q" 10 125 (1 # 2)].

Definition tall_page' : list item :=
  [Scenario.region "A" 100 0 (1 # 2); Scenario.region "B" 10 246 (1 # 2);
   Scenario.region "C" 50 240 (1 # 2)].

(** Forty-seven detections whose confidences add up to 6. *)
Definition near_six : list App.detection :=
  replicate 46 (Scenario.square 0 0, Ustr.lit "x", (1 # 8)%Q)
  ++ [(Scenario.square 0 0, Ustr.lit "x", (1 # 4)%Q)].

(** An OCR engine that reads [near_six] with the Japanese configuration
    and [eight_lines] with the simplified-Chinese one. *)
Definition two_readings : App.ocr_oracle :=
  λ _ langs,
    if bool_decide (langs = ["ja"; "en"]) then Some near_six
    else if bool_decide (langs = ["ch_sim"; "en"]) then Some eight_lines
    else None.

(** A header of 4301 decimal digits. *)
Definition long_header : string :=
  string_of_list_ascii (replicate 4301 "1"%char).

(** The primary service answers every request with HTTP 429 and no
    header, and [random.random()] gives the float nearest to 0.1. *)
Definition throttled_jitter : env :=
  Env (λ _ _, inr (ChatResponse 429 None false [] (inr [])))
      (λ _ _, None)
      (λ _, (1 # 10)%Q)
      (λ _, inl (JSONDecodeError []))
      (λ _, []).

(** The request of the scenario, with any key. *)
Definition request_of (api_key : string) : chat_request :=
  ChatRequest api_key "gpt-4o-mini" "ja" "en" [Ustr.lit "hello"].

(** An SDK whose calls succeed, except [delete], which raises. *)
Definition cloud : DaytonaRunner.sdk :=
  DaytonaRunner.Sdk (λ _ _, Some 1) (λ _ _, Some 7) (λ _ _ _, None)
    (λ _ _ _, Some tt).

End Cases.

(** * Properties *)

Import PyNum OcrUtils App TranslateUtils OcrSpec TranslateSpec.

#[local] Set Warnings "-clear-no-such-hyp".

(** ** The language normaliser *)

Example normalize_ch_sim :
  safe_easyocr_lang_list (Some "ch_sim") = ["ch_sim"; "en"].
Proof. reflexivity. Qed.

Example normalize_ch_tra :
  safe_easyocr_lang_list (Some "ch_tra") = ["ch_tra"; "en"].
Proof. reflexivity. Qed.

Example normalize_empty : safe_easyocr_lang_list (Some "") = ["en"].
Proof. reflexivity. Qed.

Example normalize_ja : safe_easyocr_lang_list (Some " JA ") = ["ja"; "en"].
Proof. reflexivity. Qed.

Example normalize_english : safe_easyocr_lang_list (Some "en") = ["en"].
Proof. reflexivity. Qed.

Lemma mem_In x l : Latin1.mem x l = true ↔ In x l.
Proof.
  unfold Latin1.mem. rewrite existsb_exists. split.
  - intros (y & Hy & Heq). apply String.eqb_eq in Heq. by subst.
  - intros Hx. exists x. split; [done | apply String.eqb_refl].
Qed.

Lemma mem_false_not_In x l : ¬ In x l → Latin1.mem x l = false.
Proof.
  intros Hn. destruct (Latin1.mem x l) eqn:E; [|done].
  apply mem_In in E. contradiction.
Qed.

(** C3, as stated, fails at the tag "xx": it is not one of the recognized
    tags, and the normaliser returns that tag alone, not English. *)
Lemma C3_unrecognized_tag_kept :
  ¬ In "xx" recognized_tags
  ∧ safe_easyocr_lang_list (Some "xx") = ["xx"]
  ∧ safe_easyocr_lang_list (Some "xx") ≠ ["en"].
Proof.
  split; [|split; [reflexivity | discriminate]].
  intros Hin. apply mem_In in Hin. vm_compute in Hin. discriminate.
Qed.

(** C3, amended: an unspecified or empty tag yields English alone; any
    other tag whose stripped, lower-cased form [p] is not one of the
    recognized tags yields [p] alone when [p] is non-empty, and English
    alone when [p] is empty. *)
Theorem C3_default_is_the_tag_itself (primary : option string) :
  let p := normalized_primary primary in
  ((primary = None ∨ primary = Some "") →
   safe_easyocr_lang_list primary = ["en"])
  ∧ (¬ In p recognized_tags →
     safe_easyocr_lang_list primary = [if Latin1.truthy p then p else "en"]).
Proof.
  intros p. split.
  - intros [-> | ->]; reflexivity.
  - intros Hp. unfold safe_easyocr_lang_list. fold p.
    unfold recognized_tags in Hp. rewrite !in_app_iff in Hp.
    rewrite (mem_false_not_In p chinese_tags) by tauto.
    rewrite (mem_false_not_In p ["ja"; "ko"]) by tauto.
    rewrite (mem_false_not_In p latin_tags) by tauto.
    destruct (String.eqb p "ar") eqn:E; [|done].
    apply String.eqb_eq in E. exfalso. apply Hp.
    right. right. left. rewrite E. by left.
Qed.

Lemma C3_default_is_the_tag_itself_witness :
  ¬ In (normalized_primary (Some " Xx ")) recognized_tags
  ∧ safe_easyocr_lang_list (Some " Xx ") = ["xx"].
Proof.
  assert (Hin : ¬ In (normalized_primary (Some " Xx ")) recognized_tags).
  { intros Hin. apply mem_In in Hin. vm_compute in Hin. discriminate. }
  split; [exact Hin|].
  exact (proj2 (C3_default_is_the_tag_itself (Some " Xx ")) Hin).
Defined.

(** ** The auto language prober *)

Lemma probe_all_fail (ocr : ocr_oracle) (todo : list string) :
  (∀ calls primary, primary ∈ todo →
     ocr calls (safe_easyocr_lang_list (Some primary)) = None) →
  ∀ calls best, probe ocr calls todo best = best.
Proof.
  induction todo as [|primary todo IH]; intros Hfail calls best; simpl.
  - done.
  - rewrite Hfail by left. apply IH. intros calls' p Hp. apply Hfail. by right.
Qed.

(** C8: when the OCR engine raises on every candidate configuration, at
    whatever invocation, the prober returns the tag "en" with an empty
    detection list. *)
Theorem C8_all_candidates_fail (ocr : ocr_oracle) :
  (∀ calls primary, primary ∈ candidates →
     ocr calls (safe_easyocr_lang_list (Some primary)) = None) →
  run_ocr_auto ocr = ("en", []).
Proof.
  intros Hfail. unfold run_ocr_auto. by rewrite probe_all_fail.
Qed.

Lemma C8_all_candidates_fail_witness :
  (∀ calls primary, primary ∈ candidates →
     Scenario.broken_ocr calls (safe_easyocr_lang_list (Some primary)) = None)
  ∧ run_ocr_auto Scenario.broken_ocr = ("en", []).
Proof.
  assert (H : ∀ calls primary, primary ∈ candidates →
     Scenario.broken_ocr calls (safe_easyocr_lang_list (Some primary)) = None)
    by reflexivity.
  split; [exact H|]. exact (C8_all_candidates_fail Scenario.broken_ocr H).
Defined.

(** A candidate that succeeds after earlier ones failed is still found. *)
Example probe_skips_failures :
  run_ocr_auto (λ calls _, if (calls <? 2)%nat then None
                           else Some [([], Ustr.lit "x", 1%Q)])
  = ("ko", [([], Ustr.lit "x", 1%Q)]).
Proof. reflexivity. Qed.

(** ** Reading order *)

(** *** The stable sort *)
Section Sorted.
Context {A : Type} (leb : A → A → bool).

Lemma insert_by_perm x l : insert_by leb x l ≡ₚ x :: l.
Proof.
  induction l as [|y r IH]; simpl; [done|].
  destruct (leb x y); [done|]. rewrite IH. apply perm_swap.
Qed.

Lemma py_sorted_perm l : py_sorted leb l ≡ₚ l.
Proof.
  induction l as [|x l IH]; simpl; [done|].
  rewrite insert_by_perm. by rewrite IH.
Qed.

Lemma elem_of_py_sorted x l : x ∈ py_sorted leb l ↔ x ∈ l.
Proof. by rewrite py_sorted_perm. Qed.

Lemma insert_by_head x l :
  HdRel (le_of leb) x l → insert_by leb x l = x :: l.
Proof.
  intros [|y r Hxy]; simpl; [done|]. unfold le_of in Hxy. by rewrite Hxy.
Qed.

(** Sorting a sorted list changes nothing. *)
Lemma py_sorted_fixed l : Sorted (le_of leb) l → py_sorted leb l = l.
Proof.
  induction 1 as [|x l Hs IH Hhd]; simpl; [done|].
  fold (py_sorted leb l). rewrite IH. by apply insert_by_head.
Qed.

(** The elements a predicate selects keep their order, provided any two
    of them compare as equal. *)
Lemma insert_by_filter (P : A → Prop) `{∀ x, Decision (P x)} x l :
  (∀ y, P x → P y → leb x y = true) →
  filter P (insert_by leb x l) = filter P (x :: l).
Proof.
  intros Hties. induction l as [|y r IH]; simpl; [done|].
  destruct (leb x y) eqn:E; [done|].
  rewrite filter_cons, IH. rewrite !filter_cons.
  destruct (decide (P x)) as [Px|]; [|done].
  destruct (decide (P y)) as [Py|]; [|done].
  rewrite Hties in E; done.
Qed.

Lemma py_sorted_filter (P : A → Prop) `{∀ x, Decision (P x)} l :
  (∀ x y, P x → P y → leb x y = true) →
  filter P (py_sorted leb l) = filter P l.
Proof.
  intros Hties. induction l as [|x l IH]; simpl; [done|].
  fold (py_sorted leb l). rewrite insert_by_filter by eauto.
  by rewrite !filter_cons, IH.
Qed.

Hypothesis leb_total : ∀ a b, leb a b = false → leb b a = true.

Lemma insert_by_sorted x l :
  Sorted (le_of leb) l → Sorted (le_of leb) (insert_by leb x l).
Proof using leb_total.
  induction 1 as [|y r Hs IH Hhd]; simpl.
  - repeat constructor.
  - destruct (leb x y) eqn:E.
    + constructor; [by constructor|]. by constructor.
    + constructor; [done|].
      destruct Hhd as [|z r' Hyz]; simpl.
      * constructor. by apply leb_total.
      * destruct (leb x z); constructor; [by apply leb_total | done].
Qed.

Lemma py_sorted_sorted l : Sorted (le_of leb) (py_sorted leb l).
Proof using leb_total.
  induction l as [|x l IH]; simpl; [constructor|]. by apply insert_by_sorted.
Qed.

End Sorted.

Lemma filter_all {A} (P : A → Prop) `{∀ x, Decision (P x)} (l : list A) :
  (∀ x, x ∈ l → P x) → filter P l = l.
Proof.
  induction l as [|x l IH]; intros Hall; [done|].
  rewrite filter_cons_True by (apply Hall; left).
  rewrite IH; [done|]. intros y Hy. apply Hall. by right.
Qed.

Lemma filter_none {A} (P : A → Prop) `{∀ x, Decision (P x)} (l : list A) :
  (∀ x, x ∈ l → ¬ P x) → filter P l = [].
Proof.
  induction l as [|x l IH]; intros Hall; [done|].
  rewrite filter_cons_False by (apply Hall; left).
  apply IH. intros y Hy. apply Hall. by right.
Qed.

Lemma StronglySorted_lookup {A} (R : relation A) l i j a b :
  StronglySorted R l → (i < j)%nat → l !! i = Some a → l !! j = Some b →
  R a b.
Proof.
  intros Hs. revert i j.
  induction Hs as [|x l Hs IH Hall]; intros i j Hij Hi Hj; [done|].
  destruct j as [|j]; [lia|]. destruct i as [|i]; simpl in *.
  - injection Hi as <-. rewrite Forall_forall in Hall. apply Hall.
    by eapply list_elem_of_lookup_2.
  - eapply IH; [|done..]. lia.
Qed.

(** *** Rows laid out one after another *)
Section Chunks.
Context {A K : Type} `{EqDecision K} (key : A → K) (chunk : K → list A).
Hypothesis chunk_key : ∀ k x, x ∈ chunk k → key x = k.

Lemma filter_chunk_same k : filter (λ x, key x = k) (chunk k) = chunk k.
Proof using chunk_key.
  apply filter_all. intros x Hx. by eapply chunk_key.
Qed.

Lemma filter_chunk_other k k' :
  k ≠ k' → filter (λ x, key x = k) (chunk k') = [].
Proof using chunk_key.
  intros Hne. apply filter_none. intros x Hx Hk.
  apply chunk_key in Hx. congruence.
Qed.

Lemma filter_key_flat_map ks k :
  NoDup ks →
  filter (λ x, key x = k) (flat_map chunk ks)
  = if decide (k ∈ ks) then chunk k else [].
Proof using chunk_key.
  induction 1 as [|k' ks Hnotin Hnd IH].
  - case_decide; [set_solver | done].
  - cbn [flat_map]. rewrite filter_app, IH.
    destruct (decide (k = k')) as [->|Hne].
    + rewrite filter_chunk_same. repeat case_decide; try set_solver.
      by rewrite app_nil_r.
    + rewrite filter_chunk_other by done.
      repeat case_decide; set_solver.
Qed.

Lemma elem_of_flat_map_chunks ks x :
  x ∈ flat_map chunk ks ↔ ∃ k, k ∈ ks ∧ x ∈ chunk k.
Proof.
  rewrite list_elem_of_In, in_flat_map. split.
  - intros (k & Hk & Hx). exists k. by rewrite !list_elem_of_In.
  - intros (k & Hk & Hx). exists k. by rewrite <- !list_elem_of_In.
Qed.

End Chunks.

(** *** The buckets *)
Section Rows.
Variable rb : Q.

Lemma setdefault_append_lookup k v (g : gmap Z (list centered)) k' :
  default [] (setdefault_append k v g !! k')
  = if decide (k' = k) then default [] (g !! k) ++ [v]
    else default [] (g !! k').
Proof.
  unfold setdefault_append. destruct (decide (k' = k)) as [->|Hne].
  - by rewrite lookup_insert_eq.
  - by rewrite lookup_insert_ne.
Qed.

(** A bucket holds the items of its row, in input order. *)
Lemma group_rows_lookup cs k :
  default [] (group_rows rb cs !! k) = filter (λ c, key_of rb c = k) cs.
Proof.
  unfold group_rows. induction cs as [|c cs IH] using rev_ind; [done|].
  rewrite foldl_snoc, setdefault_append_lookup, filter_app, filter_cons,
    filter_nil.
  fold (key_of rb c). destruct (decide (k = key_of rb c)) as [->|Hne].
  - rewrite decide_True by done. by rewrite IH.
  - rewrite decide_False by done. by rewrite IH, app_nil_r.
Qed.

Lemma group_rows_dom cs k :
  k ∈ dom (group_rows rb cs) ↔ ∃ c, c ∈ cs ∧ key_of rb c = k.
Proof.
  unfold group_rows. induction cs as [|c cs IH] using rev_ind.
  - simpl. rewrite dom_empty. set_solver.
  - rewrite foldl_snoc. unfold setdefault_append at 1.
    rewrite dom_insert, elem_of_union, IH, elem_of_singleton.
    fold (key_of rb c). split.
    + intros [->|(c' & Hc' & Hk)]; [exists c | exists c']; set_solver.
    + intros (c' & Hc' & Hk). apply elem_of_app in Hc' as [Hc'|Hc'].
      * right. by exists c'.
      * left. apply list_elem_of_singleton in Hc'. by subst.
Qed.

Lemma group_rows_dom_ext cs cs' :
  (∀ c, c ∈ cs ↔ c ∈ cs') →
  dom (group_rows rb cs) = dom (group_rows rb cs').
Proof.
  intros Hsame. apply set_eq. intros k. rewrite !group_rows_dom.
  split; intros (c & Hc & Hk); exists c; split; try done; by apply Hsame.
Qed.

Lemma sorted_keys_NoDup (g : gmap Z (list centered)) : NoDup (sorted_keys g).
Proof. unfold sorted_keys. rewrite py_sorted_perm. apply NoDup_elements. Qed.

Lemma elem_of_sorted_keys (g : gmap Z (list centered)) k :
  k ∈ sorted_keys g ↔ k ∈ dom g.
Proof. unfold sorted_keys. by rewrite elem_of_py_sorted, elem_of_elements. Qed.

Lemma Z_leb_total (a b : Z) : (a <=? b)%Z = false → (b <=? a)%Z = true.
Proof. lia. Qed.

Lemma sorted_keys_increasing (g : gmap Z (list centered)) :
  StronglySorted Z.lt (sorted_keys g).
Proof.
  pose proof (sorted_keys_NoDup g) as Hnd.
  assert (Hs : StronglySorted (le_of Z.leb) (sorted_keys g)).
  { apply Sorted_StronglySorted.
    - intros a b c. unfold le_of. lia.
    - apply (py_sorted_sorted Z.leb Z_leb_total). }
  induction Hs as [|k ks Hs IH Hall]; [constructor|].
  apply NoDup_cons in Hnd as [Hnotin Hnd]. constructor; [auto|].
  rewrite Forall_forall in *. intros k' Hk'. specialize (Hall k' Hk').
  unfold le_of in Hall. assert (k ≠ k'); [|lia]. by intros ->.
Qed.

Lemma chunk_of_key cs k c : c ∈ chunk_of rb cs k → key_of rb c = k.
Proof.
  unfold chunk_of. rewrite elem_of_py_sorted, list_elem_of_filter. tauto.
Qed.

(** The output is the rows, in ascending order of their keys. *)
Lemma order_centered_chunks cs :
  order_centered rb cs
  = flat_map (chunk_of rb cs) (sorted_keys (group_rows rb cs)).
Proof.
  unfold order_centered. apply flat_map_ext. intros k.
  unfold chunk_of. by rewrite group_rows_lookup.
Qed.

Lemma elem_of_order_centered cs c : c ∈ order_centered rb cs ↔ c ∈ cs.
Proof.
  rewrite order_centered_chunks, elem_of_flat_map_chunks. split.
  - intros (k & _ & Hc). unfold chunk_of in Hc.
    rewrite elem_of_py_sorted, list_elem_of_filter in Hc. tauto.
  - intros Hc. exists (key_of rb c). split.
    + rewrite elem_of_sorted_keys, group_rows_dom. by exists c.
    + unfold chunk_of. by rewrite elem_of_py_sorted, list_elem_of_filter.
Qed.

Lemma cx_leb_total a b : cx_leb a b = false → cx_leb b a = true.
Proof.
  unfold cx_leb. intros H. apply Qle_bool_iff.
  destruct (Qlt_le_dec (b.1.1) (a.1.1)) as [Hlt|Hle].
  - by apply Qlt_le_weak.
  - apply Qle_bool_iff in Hle. congruence.
Qed.

Lemma cx_le_trans : Transitive (le_of cx_leb).
Proof.
  intros a b c. unfold le_of, cx_leb. rewrite !Qle_bool_iff. apply Qle_trans.
Qed.

(** The items of one row, read off the output, are that row. *)
Lemma filter_key_order_centered cs k :
  filter (λ c, key_of rb c = k) (order_centered rb cs) = chunk_of rb cs k.
Proof.
  rewrite order_centered_chunks.
  rewrite (filter_key_flat_map (key_of rb) (chunk_of rb cs)).
  - destruct (decide (k ∈ sorted_keys (group_rows rb cs))) as [Hin|Hnotin];
      [done|].
    unfold chunk_of. rewrite filter_none; [done|].
    intros c Hc Hk. apply Hnotin.
    rewrite elem_of_sorted_keys, group_rows_dom. by exists c.
  - intros k' c. apply chunk_of_key.
  - apply sorted_keys_NoDup.
Qed.

Lemma order_centered_idem cs :
  order_centered rb (order_centered rb cs) = order_centered rb cs.
Proof.
  rewrite (order_centered_chunks (order_centered rb cs)).
  rewrite (order_centered_chunks cs) at 3.
  unfold sorted_keys.
  rewrite (group_rows_dom_ext (order_centered rb cs) cs)
    by apply elem_of_order_centered.
  apply flat_map_ext. intros k. unfold chunk_of at 1.
  rewrite filter_key_order_centered.
  apply py_sorted_fixed. unfold chunk_of. apply py_sorted_sorted, cx_leb_total.
Qed.

Lemma chunk_of_row_major cs k :
  StronglySorted (row_major rb) (chunk_of rb cs k).
Proof.
  pose proof (chunk_of_key cs k) as Hkey.
  assert (Hs : StronglySorted (le_of cx_leb) (chunk_of rb cs k)).
  { apply Sorted_StronglySorted; [apply cx_le_trans|].
    apply py_sorted_sorted, cx_leb_total. }
  induction Hs as [|c l Hs IH Hall]; [constructor|].
  constructor.
  - apply IH. intros c' Hc'. apply Hkey. by right.
  - rewrite Forall_forall in *. intros c' Hc'. right. split.
    + rewrite (Hkey c) by left. symmetry. apply Hkey. by right.
    + apply Qle_bool_iff. by apply Hall.
Qed.

(** The output is in row-major order. *)
Lemma order_centered_row_major cs :
  StronglySorted (row_major rb) (order_centered rb cs).
Proof.
  rewrite order_centered_chunks.
  induction (sorted_keys_increasing (group_rows rb cs))
    as [|k ks Hs IH Hall]; simpl.
  - constructor.
  - apply StronglySorted_app_2; [|apply chunk_of_row_major|done].
    intros a b Ha Hb. left.
    apply chunk_of_key in Ha.
    apply elem_of_flat_map_chunks in Hb as (k' & Hk' & Hb).
    apply chunk_of_key in Hb.
    rewrite Ha, Hb. rewrite Forall_forall in Hall. by apply Hall.
Qed.

(** Items of one row with equal centre abscissa keep their input
    order. *)
Lemma order_centered_stable cs k x :
  filter (λ c : centered, (c.1.1 == x)%Q ∧ key_of rb c = k)
         (order_centered rb cs)
  = filter (λ c : centered, (c.1.1 == x)%Q ∧ key_of rb c = k) cs.
Proof.
  rewrite <- !(list_filter_filter (λ c : centered, (c.1.1 == x)%Q)
                                 (λ c : centered, key_of rb c = k)).
  rewrite filter_key_order_centered. unfold chunk_of.
  apply py_sorted_filter. intros a b Ha Hb. unfold cx_leb.
  apply Qle_bool_iff. rewrite Ha, Hb. apply Qle_refl.
Qed.

End Rows.

(** *** The row height *)

Lemma Qltb_lt a b : Qltb a b = true ↔ (a < b)%Q.
Proof.
  unfold Qltb. rewrite negb_true_iff. split.
  - intros H. apply Qnot_le_lt. intros Hle. apply Qle_bool_iff in Hle.
    congruence.
  - intros Hlt. destruct (Qle_bool b a) eqn:E; [|done].
    apply Qle_bool_iff in E. exfalso. by eapply Qlt_not_le.
Qed.

Lemma Qltb_ge a b : Qltb a b = false ↔ (b <= a)%Q.
Proof. unfold Qltb. rewrite negb_false_iff. apply Qle_bool_iff. Qed.

Lemma fold_max_spec r x :
  let m := fold_left (λ best y, if Qltb best y then y else best) r x in
  m ∈ x :: r ∧ (x <= m)%Q ∧ ∀ y, y ∈ r → (y <= m)%Q.
Proof.
  revert x. induction r as [|z r IH]; intros x; simpl.
  - split; [left|]. split; [apply Qle_refl|].
    intros y Hy. by apply elem_of_nil in Hy.
  - destruct (Qltb x z) eqn:E.
    + destruct (IH z) as (Hin & Hle & Hall). split; [by right|].
      apply Qltb_lt in E.
      split; [eapply Qle_trans; [by apply Qlt_le_weak|done]|].
      intros y Hy. apply elem_of_cons in Hy as [->|Hy]; auto.
    + destruct (IH x) as (Hin & Hle & Hall). apply Qltb_ge in E. split.
      { apply elem_of_cons in Hin as [->|Hin]; [left | right; by right]. }
      split; [done|]. intros y Hy. apply elem_of_cons in Hy as [->|Hy]; auto.
      by eapply Qle_trans.
Qed.

Lemma fold_min_spec r x :
  let m := fold_left (λ best y, if Qltb y best then y else best) r x in
  m ∈ x :: r ∧ (m <= x)%Q ∧ ∀ y, y ∈ r → (m <= y)%Q.
Proof.
  revert x. induction r as [|z r IH]; intros x; simpl.
  - split; [left|]. split; [apply Qle_refl|].
    intros y Hy. by apply elem_of_nil in Hy.
  - destruct (Qltb z x) eqn:E.
    + destruct (IH z) as (Hin & Hle & Hall). split; [by right|].
      apply Qltb_lt in E.
      split; [eapply Qle_trans; [done|by apply Qlt_le_weak]|].
      intros y Hy. apply elem_of_cons in Hy as [->|Hy]; auto.
    + destruct (IH x) as (Hin & Hle & Hall). apply Qltb_ge in E. split.
      { apply elem_of_cons in Hin as [->|Hin]; [left | right; by right]. }
      split; [done|]. intros y Hy. apply elem_of_cons in Hy as [->|Hy]; auto.
      by eapply Qle_trans.
Qed.

(** [max] returns an element that bounds the others, and so does [min]. *)
Lemma py_max_spec xs m :
  py_max xs = Some m → m ∈ xs ∧ ∀ y, y ∈ xs → (y <= m)%Q.
Proof.
  destruct xs as [|x r]; [done|]. intros [= <-].
  destruct (fold_max_spec r x) as (Hin & Hle & Hall). split; [done|].
  intros y Hy. apply elem_of_cons in Hy as [->|Hy]; auto.
Qed.

Lemma py_min_spec xs m :
  py_min xs = Some m → m ∈ xs ∧ ∀ y, y ∈ xs → (m <= y)%Q.
Proof.
  destruct xs as [|x r]; [done|]. intros [= <-].
  destruct (fold_min_spec r x) as (Hin & Hle & Hall). split; [done|].
  intros y Hy. apply elem_of_cons in Hy as [->|Hy]; auto.
Qed.

Lemma py_max_ext xs xs' m m' :
  (∀ x, x ∈ xs ↔ x ∈ xs') → py_max xs = Some m → py_max xs' = Some m' →
  (m == m')%Q.
Proof.
  intros Hsame [Hin Hub]%py_max_spec [Hin' Hub']%py_max_spec.
  apply Qle_antisym; [apply Hub', Hsame, Hin | apply Hub, Hsame, Hin'].
Qed.

Lemma py_min_ext xs xs' m m' :
  (∀ x, x ∈ xs ↔ x ∈ xs') → py_min xs = Some m → py_min xs' = Some m' →
  (m == m')%Q.
Proof.
  intros Hsame [Hin Hub]%py_min_spec [Hin' Hub']%py_min_spec.
  apply Qle_antisym; [apply Hub, Hsame, Hin' | apply Hub', Hsame, Hin].
Qed.

Lemma max2_comp a b b' : (b == b')%Q → (max2 a b == max2 a b')%Q.
Proof.
  intros Hb. unfold max2, Qltb. rewrite <- Hb at 1.
  destruct (Qle_bool b a); [reflexivity | done].
Qed.

(** Rounding does not see how a rational is written. *)
Lemma round_double_comp a b : (a == b)%Q → round_double a = round_double b.
Proof. intros H. unfold round_double. by rewrite (Qred_complete a b H). Qed.

(** The row height depends on the set of ordinates only. *)
Lemma row_bucket_of_ext ys ys' :
  (∀ y, y ∈ ys ↔ y ∈ ys') → (row_bucket_of ys == row_bucket_of ys')%Q.
Proof.
  intros Hsame. unfold row_bucket_of. apply max2_comp.
  destruct ys as [|y r].
  { destruct ys' as [|y' r']; [reflexivity|]. exfalso.
    eapply elem_of_nil, Hsame. left. }
  destruct ys' as [|y' r'].
  { exfalso. eapply elem_of_nil, Hsame. left. }
  destruct (py_max (y :: r)) as [hi|] eqn:Ehi; [|done].
  destruct (py_min (y :: r)) as [lo|] eqn:Elo; [|done].
  destruct (py_max (y' :: r')) as [hi'|] eqn:Ehi'; [|done].
  destruct (py_min (y' :: r')) as [lo'|] eqn:Elo'; [|done].
  pose proof (py_max_ext _ _ _ _ Hsame Ehi Ehi') as Hhi.
  pose proof (py_min_ext _ _ _ _ Hsame Elo Elo') as Hlo.
  unfold fdiv, fsub.
  rewrite (round_double_comp (hi - lo) (hi' - lo'))
    by (by rewrite Hhi, Hlo).
  reflexivity.
Qed.

Lemma row_key_comp rb rb' y : (rb == rb')%Q → row_key rb y = row_key rb' y.
Proof. intros Hrb. unfold row_key. apply Qfloor_comp. by rewrite Hrb. Qed.

Lemma group_rows_comp rb rb' cs :
  (rb == rb')%Q → group_rows rb cs = group_rows rb' cs.
Proof.
  intros Hrb. unfold group_rows. generalize (∅ : gmap Z (list centered)).
  induction cs as [|c cs IH]; intros g; simpl; [done|].
  by rewrite (row_key_comp rb rb' _ Hrb), IH.
Qed.

Lemma order_rows_comp rb rb' cs :
  (rb == rb')%Q → order_rows rb cs = order_rows rb' cs.
Proof.
  intros Hrb. unfold order_rows. by rewrite (group_rows_comp rb rb' cs Hrb).
Qed.

(** *** [sort_reading_order] *)

Lemma order_rows_centered rb cs :
  order_rows rb cs = map snd (order_centered rb cs).
Proof.
  unfold order_rows, order_centered.
  induction (sorted_keys (group_rows rb cs)) as [|k ks IH]; simpl; [done|].
  by rewrite map_app, IH.
Qed.

Lemma box_to_rect_is_Some b : b ≠ [] → is_Some (box_to_rect b).
Proof. destruct b as [|p b]; [done|]. intros _. by eexists. Qed.

Lemma center_item_snd it c : center_item it = Some c → c.2 = it.
Proof.
  unfold center_item. destruct (box_to_rect (box it)); simpl; [|done].
  by intros [= <-].
Qed.

Lemma mapM_center_item_is_Some items :
  Forall (λ it, box it ≠ []) items → is_Some (mapM center_item items).
Proof.
  intros Hall. apply mapM_is_Some. eapply Forall_impl; [done|].
  intros it Hbox. simpl. unfold center_item.
  by destruct (box_to_rect_is_Some _ Hbox) as [r ->].
Qed.

Lemma mapM_center_item_inv items cs :
  mapM center_item items = Some cs →
  map snd cs = items ∧ ∀ c, c ∈ cs → center_item (c.2) = Some c.
Proof.
  intros H. apply mapM_Some_1 in H.
  induction H as [|it c items cs Hc Hrest [IH1 IH2]]; simpl.
  - split; [done|]. intros c Hc. by apply elem_of_nil in Hc.
  - pose proof (center_item_snd _ _ Hc) as Hsnd.
    split; [by rewrite Hsnd, IH1|].
    intros c' Hc'.
    apply elem_of_cons in Hc' as [->|Hc']; [by rewrite Hsnd | auto].
Qed.

Lemma mapM_center_item_snd (cs : list centered) :
  (∀ c, c ∈ cs → center_item (c.2) = Some c) →
  mapM center_item (map snd cs) = Some cs.
Proof.
  intros H. apply (mapM_fmap_Forall_Some center_item snd cs).
  by apply Forall_forall.
Qed.

Lemma sort_reading_order_centered items cs :
  items ≠ [] → mapM center_item items = Some cs →
  sort_reading_order items
  = Some (map snd (order_centered
                     (row_bucket_of (map (λ c : centered, c.1.2) cs)) cs)).
Proof.
  intros Hne Hcs. unfold sort_reading_order. destruct items; [done|].
  rewrite Hcs. simpl. by rewrite order_rows_centered.
Qed.

(** The centres of the output, and the row height computed from them. *)
Lemma sorted_output_centers cs :
  (∀ c, c ∈ cs → center_item (c.2) = Some c) →
  let rb := row_bucket_of (map (λ c : centered, c.1.2) cs) in
  let sorted := order_centered rb cs in
  mapM center_item (map snd sorted) = Some sorted
  ∧ (row_bucket_of (map (λ c : centered, c.1.2) sorted) == rb)%Q.
Proof.
  intros Hcenters rb sorted. split.
  - apply mapM_center_item_snd. intros c Hc. apply Hcenters.
    by apply elem_of_order_centered in Hc.
  - apply row_bucket_of_ext. intros y. rewrite !list_elem_of_fmap.
    split; intros (c & -> & Hc); exists c; split; try done;
      by apply (elem_of_order_centered rb cs).
Qed.

Lemma sort_reading_order_fixed items out :
  sort_reading_order items = Some out → sort_reading_order out = Some out.
Proof.
  destruct items as [|it items]; [by intros [= <-]|].
  destruct (mapM center_item (it :: items)) as [cs|] eqn:Ecs.
  2:{ unfold sort_reading_order. by rewrite Ecs. }
  rewrite (sort_reading_order_centered _ cs) by done. intros [= <-].
  set (rb := row_bucket_of (map (λ c : centered, c.1.2) cs)).
  set (sorted := order_centered rb cs).
  destruct (decide (map snd sorted = [])) as [->|Hne]; [done|].
  destruct (mapM_center_item_inv _ _ Ecs) as [_ Hcenters].
  destruct (sorted_output_centers cs Hcenters) as [Hsorted Hrb].
  fold rb sorted in Hsorted, Hrb.
  rewrite (sort_reading_order_centered _ sorted) by done.
  rewrite <- !order_rows_centered.
  rewrite (order_rows_comp _ rb sorted Hrb), !order_rows_centered.
  unfold sorted at 1. by rewrite order_centered_idem.
Qed.

(** C6: [sort_reading_order] is idempotent.  Applying it to its own result
    gives that result again, the second application raising exactly when
    the first does; and on regions whose boxes are non-empty it returns a
    sequence that it leaves unchanged. *)
Theorem C6_sort_reading_order_idempotent (items : list item) :
  (sort_reading_order items ≫= sort_reading_order = sort_reading_order items)
  ∧ (Forall (λ it, box it ≠ []) items →
     ∃ out, sort_reading_order items = Some out
            ∧ sort_reading_order out = Some out).
Proof.
  split.
  - destruct (sort_reading_order items) as [out|] eqn:E; [|done].
    simpl. by eapply sort_reading_order_fixed.
  - intros Hboxes.
    assert (Hout : is_Some (sort_reading_order items)).
    { destruct items as [|it items]; [by eexists|].
      destruct (mapM_center_item_is_Some _ Hboxes) as [cs Hcs].
      rewrite (sort_reading_order_centered _ cs) by done. by eexists. }
    destruct Hout as [out Hout]. exists out. split; [done|].
    by eapply sort_reading_order_fixed.
Qed.

Lemma C6_sort_reading_order_idempotent_witness :
  Forall (λ it, box it ≠ []) Scenario.page
  ∧ ∃ out, sort_reading_order Scenario.page = Some out
           ∧ sort_reading_order out = Some out.
Proof.
  assert (H : Forall (λ it, box it ≠ []) Scenario.page)
    by (repeat constructor; discriminate).
  split; [exact H|].
  exact (proj2 (C6_sort_reading_order_idempotent Scenario.page) H).
Defined.

(** The page of the scenario comes out in reading order. *)
Example sort_page :
  map text <$> sort_reading_order Scenario.page
  = Some [Ustr.lit "first"; Ustr.lit "second"; Ustr.lit "third"].
Proof. vm_compute. reflexivity. Qed.

(** The centre written out is the one the code computes. *)
Lemma centre_center_item it : centre it = fst <$> center_item it.
Proof.
  unfold centre, center_item, rect_of.
  by destruct (box_to_rect (box it)).
Qed.

Lemma centre_of_centered (c : centered) :
  center_item (c.2) = Some c → centre (c.2) = Some (c.1).
Proof. intros H. by rewrite centre_center_item, H. Qed.

Lemma row_height_centered items cs :
  mapM center_item items = Some cs →
  row_height items = row_bucket_of (map (λ c : centered, c.1.2) cs).
Proof.
  intros H. unfold row_height. f_equal. apply mapM_Some_1 in H.
  induction H as [|it c items cs Hc Hrest IH]; [done|].
  cbn [omap list_omap map]. rewrite centre_center_item, Hc. simpl.
  by rewrite IH.
Qed.

(** The sorted output seen through its centres. *)
Lemma sorted_output_view items :
  Forall (λ it, box it ≠ []) items →
  ∃ cs sorted,
    mapM center_item items = Some cs
    ∧ sorted = order_centered (row_height items) cs
    ∧ sort_reading_order items = Some (map snd sorted)
    ∧ (row_height (map snd sorted) == row_height items)%Q
    ∧ ∀ i a ca,
        map snd sorted !! i = Some a → centre a = Some ca →
        sorted !! i = Some (ca, a).
Proof.
  intros Hboxes.
  destruct (mapM_center_item_is_Some _ Hboxes) as [cs Hcs].
  exists cs, (order_centered (row_height items) cs).
  split; [done|]. split; [done|].
  rewrite (row_height_centered _ _ Hcs).
  set (rb := row_bucket_of (map (λ c : centered, c.1.2) cs)).
  destruct (mapM_center_item_inv _ _ Hcs) as [_ Hcenters].
  destruct (sorted_output_centers cs Hcenters) as [Hsorted Hrb].
  fold rb in Hsorted, Hrb.
  split; [|split].
  - destruct items as [|it items]; [by injection Hcs as <-|].
    by apply sort_reading_order_centered.
  - by rewrite (row_height_centered _ _ Hsorted).
  - intros i a ca Ha Hca.
    apply list_lookup_fmap_Some in Ha as (c & -> & Hc).
    destruct (mapM_center_item_inv _ _ Hsorted) as [_ Hout].
    specialize (Hout c (list_elem_of_lookup_2 _ _ _ Hc)).
    rewrite (centre_of_centered c Hout) in Hca. injection Hca as <-.
    by destruct c as [p it].
Qed.

Lemma filter_in_cell_centered rh k x (cs : list centered) :
  (∀ c, c ∈ cs → center_item (c.2) = Some c) →
  filter (in_cell rh k x) (map snd cs)
  = map snd (filter (λ c : centered,
                       (c.1.1 == x)%Q ∧ row_key rh (c.1.2) = k) cs).
Proof.
  induction cs as [|c cs IH]; intros Hcs; [done|].
  cbn [map]. rewrite !filter_cons.
  assert (Hc : in_cell rh k x (c.2)
               ↔ (c.1.1 == x)%Q ∧ row_key rh (c.1.2) = k).
  { unfold in_cell. by rewrite (centre_of_centered c (Hcs c ltac:(left))). }
  rewrite IH by (intros c' Hc'; apply Hcs; by right).
  destruct (decide (in_cell rh k x (c.2))) as [H1|H1];
    destruct (decide ((c.1.1 == x)%Q ∧ row_key rh (c.1.2) = k)) as [H2|H2];
    try done; tauto.
Qed.

(** C7: in the sorted output, of two regions in the same row, the row
    being [floor(center_y / row_height)] under the row height computed
    from the input, the earlier one has a centre abscissa no greater than
    the later one's; and the regions of one row with one same centre
    abscissa appear in the output in the order they have in the input.
    The output has the row height of the input. *)
Theorem C7_rows_left_to_right_stable (items : list item) :
  Forall (λ it, box it ≠ []) items →
  ∃ out,
    sort_reading_order items = Some out
    ∧ let rh := row_height items in
      (row_height out == rh)%Q
      ∧ (∀ i j a b ca cb,
           (i < j)%nat → out !! i = Some a → out !! j = Some b →
           centre a = Some ca → centre b = Some cb →
           row_of rh ca = row_of rh cb → (ca.1 <= cb.1)%Q)
      ∧ (∀ k x,
           filter (in_cell rh k x) out = filter (in_cell rh k x) items).
Proof.
  intros Hboxes.
  destruct (sorted_output_view items Hboxes)
    as (cs & sorted & Hcs & -> & Hout & Hrh & Hview).
  eexists. split; [exact Hout|]. cbv zeta. split; [exact Hrh|]. split.
  - intros i j a b ca cb Hij Ha Hb Hca Hcb Hrow.
    destruct (StronglySorted_lookup _ _ _ _ _ _
                (order_centered_row_major (row_height items) cs) Hij
                (Hview _ _ _ Ha Hca) (Hview _ _ _ Hb Hcb))
      as [Hlt|[_ Hle]]; [|done].
    unfold key_of, row_key in Hlt. unfold row_of in Hrow. simpl in *. lia.
  - intros k x.
    destruct (mapM_center_item_inv _ _ Hcs) as [Hitems Hcenters].
    transitivity (filter (in_cell (row_height items) k x) (map snd cs));
      [|by rewrite Hitems].
    rewrite !filter_in_cell_centered.
    + f_equal. apply (order_centered_stable (row_height items) cs k x).
    + done.
    + intros c Hc. apply Hcenters.
      by apply (elem_of_order_centered (row_height items) cs).
Qed.

Lemma C7_rows_left_to_right_stable_witness :
  Forall (λ it, box it ≠ []) Cases.tied_page
  ∧ ∃ out,
      sort_reading_order Cases.tied_page = Some out
      ∧ let rh := row_height Cases.tied_page in
        (row_height out == rh)%Q
        ∧ (∀ i j a b ca cb,
             (i < j)%nat → out !! i = Some a → out !! j = Some b →
             centre a = Some ca → centre b = Some cb →
             row_of rh ca = row_of rh cb → (ca.1 <= cb.1)%Q)
        ∧ (∀ k x,
             filter (in_cell rh k x) out
             = filter (in_cell rh k x) Cases.tied_page).
Proof.
  assert (H : Forall (λ it, box it ≠ []) Cases.tied_page)
    by (repeat constructor; discriminate).
  split; [exact H|].
  exact (C7_rows_left_to_right_stable Cases.tied_page H).
Defined.

(** Three regions of one row, two of them with the same centre abscissa:
    they come out left to right, the two in their input order. *)
Example sort_tied_page :
  row_height Cases.tied_page = 12%Q
  ∧ omap (λ it, row_of 12 <$> centre it) Cases.tied_page
    = [0; 0; 16; 0]%Z
  ∧ map text <$> sort_reading_order Cases.tied_page
    = Some [Ustr.lit "one"; Ustr.lit "two"; Ustr.lit "three";
            Ustr.lit "four"].
Proof. vm_compute. repeat split; reflexivity. Qed.

(** The row height is the float [246 / 20.0], which is above 12.3: the
    regions at the ordinates 123 and 125 are in the rows 9 and 10, and
    come out in that order although the second lies further left. *)
Example sort_tall_page :
  Qlt (123 # 10) (row_height Cases.tall_page)
  ∧ omap (λ it, row_of (row_height Cases.tall_page) <$> centre it)
         Cases.tall_page
    = [0; 19; 9; 10]%Z
  ∧ map text <$> sort_reading_order Cases.tall_page
    = Some [Ustr.lit "A"; Ustr.lit "P"; Ustr.lit "Q"; Ustr.lit "Z"]
  ∧ map text <$> sort_reading_order Cases.tall_page'
    = Some [Ustr.lit "A"; Ustr.lit "B"; Ustr.lit "C"].
Proof. vm_compute. repeat split; reflexivity. Qed.

(** ** Box merging *)

Lemma contains_refl r : contains r r.
Proof. repeat split; apply Qle_refl. Qed.

Lemma contains_trans a b c : contains a b → contains b c → contains a c.
Proof.
  intros (?&?&?&?) (?&?&?&?). repeat split; eapply Qle_trans; eauto.
Qed.

(** *** The inner loop *)

Lemma scan_partners_spec items th ci js tm skip tm' skip' :
  Forall (λ it, is_Some (rect_of it)) tm →
  scan_partners items th ci js tm skip = Some (tm', skip') →
  (∃ parts, tm' = tm ++ parts) ∧ Forall (λ it, is_Some (rect_of it)) tm'.
Proof.
  revert tm skip. induction js as [|j js IH]; intros tm skip Htm; simpl.
  - intros [= <- <-]. split; [exists []; by rewrite app_nil_r | done].
  - destruct (decide (j ∈ skip)); [by apply IH|].
    destruct (items !! j) as [it_j|] eqn:Ej; [|done]. simpl.
    destruct (box_to_rect (box it_j)) as [rect_j|] eqn:Erect; [|done]. simpl.
    destruct (same_line th ci (rect_center rect_j)).
    + intros Hscan. apply IH in Hscan as [[parts ->] Hall].
      * split; [|done]. exists (it_j :: parts). by rewrite <- app_assoc.
      * apply Forall_app. split; [done|]. constructor; [|done].
        unfold rect_of. by rewrite Erect.
    + by apply IH.
Qed.

Lemma scan_partners_total items th ci js tm skip :
  Forall (λ it, box it ≠ []) items →
  Forall (λ j, j < length items)%nat js →
  is_Some (scan_partners items th ci js tm skip).
Proof.
  intros Hitems. revert tm skip.
  induction js as [|j js IH]; intros tm skip Hjs; simpl.
  - by eexists.
  - apply Forall_cons in Hjs as [Hj Hjs].
    destruct (decide (j ∈ skip)); [by apply IH|].
    destruct (lookup_lt_is_Some_2 items j Hj) as [it_j Ej]. rewrite Ej. simpl.
    assert (Hbox : box it_j ≠ []).
    { rewrite Forall_forall in Hitems. apply Hitems.
      by eapply list_elem_of_lookup_2. }
    destruct (box_to_rect_is_Some _ Hbox) as [rect_j ->]. simpl.
    destruct (same_line th ci (rect_center rect_j)); by apply IH.
Qed.

(** The partners picked by the scan: later positions, none claimed
    before, all claimed afterwards. *)
Lemma scan_partners_picks items th ci js tm skip tm' skip' :
  scan_partners items th ci js tm skip = Some (tm', skip') →
  ∃ picked parts,
    tm' = tm ++ parts ∧ at_indices items picked parts
    ∧ picked `sublist_of` js
    ∧ (∀ j, j ∈ picked → j ∉ skip)
    ∧ (∀ j, j ∈ skip' ↔ j ∈ picked ∨ j ∈ skip).
Proof.
  revert tm skip. induction js as [|j js IH]; intros tm skip; simpl.
  - intros [= <- <-]. exists [], []. rewrite app_nil_r.
    split; [done|]. split; [constructor|]. split; [done|].
    split; [by intros j Hj%elem_of_nil|]. intros j. split; [by right|].
    by intros [Hj%elem_of_nil|].
  - destruct (decide (j ∈ skip)) as [Hj|Hj].
    { intros H. destruct (IH _ _ H) as (picked & parts & ? & ? & ? & ? & ?).
      exists picked, parts. split; [done|]. split; [done|].
      split; [by apply sublist_cons | done]. }
    destruct (items !! j) as [it_j|] eqn:Ej; [|done]. simpl.
    destruct (box_to_rect (box it_j)) as [rect_j|]; [|done]. simpl.
    destruct (same_line th ci (rect_center rect_j)).
    + intros H.
      destruct (IH _ _ H)
        as (picked & parts & -> & Hidx & Hsub & Hfresh & Hskip).
      exists (j :: picked), (it_j :: parts). rewrite <- app_assoc. simpl.
      split; [done|]. split; [by constructor|].
      split; [by apply sublist_skip|]. split.
      * intros j' [->|Hj']%elem_of_cons; [done|].
        apply Hfresh in Hj'. set_solver.
      * intros j'. rewrite Hskip. set_solver.
    + intros H. destruct (IH _ _ H) as (picked & parts & ? & ? & ? & ? & ?).
      exists picked, parts. split; [done|]. split; [done|].
      split; [by apply sublist_cons | done].
Qed.

(** *** The region made from a group *)

Lemma merge_group_total g :
  g ≠ [] → Forall (λ it, is_Some (rect_of it)) g → is_Some (merge_group g).
Proof.
  intros Hne Hall. unfold merge_group.
  assert (Hrs : is_Some (mapM (λ it, box_to_rect (box it)) g)).
  { apply mapM_is_Some. eapply Forall_impl; [done|]. by intros it. }
  destruct Hrs as [rs Hrs]. rewrite Hrs. simpl.
  assert (Hlen : rs ≠ []).
  { apply length_mapM in Hrs. destruct rs; [|done]. by destruct g. }
  destruct rs as [|r rs]; [done|]. simpl. by eexists.
Qed.

Lemma mapM_rect_elem g rs c :
  mapM (λ it, box_to_rect (box it)) g = Some rs → c ∈ g →
  ∃ rc, rect_of c = Some rc ∧ rc ∈ rs.
Proof.
  intros H%mapM_Some_1. induction H as [|it r g rs Hr Hrest IH]; intros Hc.
  - by apply elem_of_nil in Hc.
  - apply elem_of_cons in Hc as [->|Hc].
    + exists r. split; [done | left].
    + destruct (IH Hc) as (rc & ? & ?). exists rc. split; [done | by right].
Qed.

Lemma merge_group_spec g o :
  merge_group g = Some o →
  ∃ rs u,
    mapM (λ it, box_to_rect (box it)) g = Some rs
    ∧ is_union_rect rs u
    ∧ box o = quad u
    ∧ text o = Ustr.join (Ustr.lit " ") (map text g)
    ∧ conf o = mean (map conf g).
Proof.
  unfold merge_group. intros H.
  destruct (mapM (λ it, box_to_rect (box it)) g) as [rs|] eqn:Ers; [|done].
  simpl in H.
  destruct (py_min (map rx1 rs)) as [x1|] eqn:E1; [|done]. simpl in H.
  destruct (py_min (map ry1 rs)) as [y1|] eqn:E2; [|done]. simpl in H.
  destruct (py_max (map rx2 rs)) as [x2|] eqn:E3; [|done]. simpl in H.
  destruct (py_max (map ry2 rs)) as [y2|] eqn:E4; [|done]. simpl in H.
  injection H as <-. exists rs, (Rect x1 y1 x2 y2).
  apply py_min_spec in E1 as [I1 B1]. apply py_min_spec in E2 as [I2 B2].
  apply py_max_spec in E3 as [I3 B3]. apply py_max_spec in E4 as [I4 B4].
  split; [done|]. split.
  - split; [|done]. intros r Hr. unfold contains. simpl.
    split; [apply B1; by apply list_elem_of_fmap_2|].
    split; [apply B2; by apply list_elem_of_fmap_2|].
    split; [apply B3; by apply list_elem_of_fmap_2|].
    apply B4; by apply list_elem_of_fmap_2.
  - repeat split. simpl. unfold mean. by rewrite length_map.
Qed.

(** The rectangle of the quadrilateral of [u] contains [u]. *)
Lemma rect_of_quad u : ∃ r, box_to_rect (quad u) = Some r ∧ contains r u.
Proof.
  unfold quad, box_to_rect. simpl.
  eexists. split; [reflexivity|]. unfold contains. simpl.
  pose proof (py_min_spec [rx1 u; rx2 u; rx2 u; rx1 u] _ eq_refl) as [_ H1].
  pose proof (py_min_spec [ry1 u; ry1 u; ry2 u; ry2 u] _ eq_refl) as [_ H2].
  pose proof (py_max_spec [rx1 u; rx2 u; rx2 u; rx1 u] _ eq_refl) as [_ H3].
  pose proof (py_max_spec [ry1 u; ry1 u; ry2 u; ry2 u] _ eq_refl) as [_ H4].
  simpl in *.
  split; [apply H1; left|]. split; [apply H2; left|].
  split; [apply H3; right; left | apply H4; right; right; left].
Qed.

Lemma emitted_contains g o :
  g ≠ [] → Forall (λ it, is_Some (rect_of it)) g → emitted g o →
  ∃ ro, rect_of o = Some ro
        ∧ ∀ c, c ∈ g → ∃ rc, rect_of c = Some rc ∧ contains ro rc.
Proof.
  intros Hne Hall Hem.
  assert (Hcases : g = [o] ∨ merge_group g = Some o).
  { destruct g as [|a [|b g]]; [done|left; by rewrite Hem|by right]. }
  destruct Hcases as [->|Hm].
  - apply Forall_cons in Hall as [[ro Hro] _]. exists ro. split; [done|].
    intros c ->%list_elem_of_singleton. exists ro.
    split; [done|apply contains_refl].
  - destruct (merge_group_spec _ _ Hm) as (rs & u & Hrs & [Hu _] & Hbox & _).
    destruct (rect_of_quad u) as (ro & Hro & Hcont).
    exists ro. unfold rect_of. rewrite Hbox. split; [done|].
    intros c Hc. destruct (mapM_rect_elem _ _ _ Hrs Hc) as (rc & Hrc & Hin).
    exists rc. split; [done|]. eapply contains_trans; [done|]. by apply Hu.
Qed.

(** *** The outer loop *)

Lemma merge_loop_spec items th rest :
  ∀ merged groups skip out,
    merge_loop items th rest merged skip = Some out →
    ∃ gs out',
      merge_groups_loop items th rest groups skip = Some (groups ++ gs)
      ∧ out = merged ++ out'
      ∧ Forall2 emitted gs out'
      ∧ Forall (λ g, g ≠ [] ∧ Forall (λ it, is_Some (rect_of it)) g) gs
      ∧ (length out' <= length rest)%nat.
Proof.
  induction rest as [|[i it] rest IH]; intros merged groups skip out; simpl.
  - intros [= <-]. exists [], []. by rewrite !app_nil_r.
  - destruct (decide (i ∈ skip)).
    { intros H.
      destruct (IH _ groups _ _ H) as (gs & out' & ? & ? & ? & ? & ?).
      exists gs, out'. repeat split; try done. lia. }
    destruct (box_to_rect (box it)) as [rect_i|] eqn:Erect; [|done]. simpl.
    destruct (scan_partners items th (rect_center rect_i)
                (seq (S i) (length items - S i)) [it] skip)
      as [[tm skip']|] eqn:Escan; [|done]. simpl.
    assert (Hit : Forall (λ it, is_Some (rect_of it)) [it]).
    { constructor; [|done]. unfold rect_of. by rewrite Erect. }
    destruct (scan_partners_spec _ _ _ _ _ _ _ _ Hit Escan)
      as [[parts ->] Hall].
    destruct (length ([it] ++ parts) =? 1)%nat eqn:Elen.
    + apply Nat.eqb_eq in Elen. destruct parts; [|simpl in Elen; lia].
      intros H.
      destruct (IH _ (groups ++ [[it]]) _ _ H)
        as (gs & out' & Hg & -> & Hem & Hgs & Hle).
      exists ([it] :: gs), (it :: out').
      rewrite <- !app_assoc in *. simpl in *.
      repeat split; try done; try lia.
      * by constructor.
      * by constructor.
    + apply Nat.eqb_neq in Elen.
      destruct (merge_group ([it] ++ parts)) as [m|] eqn:Em; [|done]. simpl.
      intros H.
      destruct (IH _ (groups ++ [[it] ++ parts]) _ _ H)
        as (gs & out' & Hg & -> & Hem & Hgs & Hle).
      exists (([it] ++ parts) :: gs), (m :: out').
      rewrite <- !app_assoc in *. simpl in *.
      repeat split; try done; try lia.
      * constructor; [|done]. unfold emitted. by destruct parts.
      * by constructor.
Qed.

Lemma merge_loop_total items th rest :
  Forall (λ it, box it ≠ []) items →
  Forall (λ p : nat * item, box p.2 ≠ []) rest →
  ∀ merged skip, is_Some (merge_loop items th rest merged skip).
Proof.
  intros Hitems.
  induction rest as [|[i it] rest IH]; intros Hrest merged skip; simpl.
  - by eexists.
  - apply Forall_cons in Hrest as [Hbox Hrest]. simpl in Hbox.
    destruct (decide (i ∈ skip)); [by apply IH|].
    destruct (box_to_rect_is_Some _ Hbox) as [rect_i Erect].
    rewrite Erect. simpl.
    destruct (scan_partners_total items th (rect_center rect_i)
                (seq (S i) (length items - S i)) [it] skip Hitems)
      as [[tm skip'] Escan].
    { apply Forall_forall. intros j Hj. apply elem_of_seq in Hj. lia. }
    rewrite Escan. simpl.
    assert (Hit : Forall (λ it, is_Some (rect_of it)) [it]).
    { constructor; [|done]. unfold rect_of. by rewrite Erect. }
    destruct (scan_partners_spec _ _ _ _ _ _ _ _ Hit Escan)
      as [[parts ->] Hall].
    destruct (length ([it] ++ parts) =? 1)%nat; [by apply IH|].
    destruct (merge_group_total ([it] ++ parts)) as [m ->]; [done|done|].
    simpl. by apply IH.
Qed.

(** The groups partition the positions of the input. *)
Lemma merge_groups_loop_partition items th its :
  ∀ pre groups skip final igs,
    items = pre ++ its →
    merge_groups_loop items th
      (imap (λ i x, (length pre + i, x)%nat) its) groups skip = Some final →
    Forall2 (at_indices items) igs groups →
    NoDup (concat igs) →
    (∀ j, j ∈ concat igs ↔ (j < length pre)%nat ∨ j ∈ skip) →
    (∀ j, j ∈ skip → (j < length items)%nat) →
    ∃ igs',
      Forall2 (at_indices items) igs' final
      ∧ NoDup (concat igs')
      ∧ (∀ j, j ∈ concat igs' ↔ (j < length items)%nat).
Proof.
  induction its as [|it its IH]; intros pre groups skip final igs Hitems;
    simpl.
  - intros [= <-] Hidx Hnd Hdone Hskip. exists igs.
    split; [done|]. split; [done|].
    intros j. rewrite Hdone. subst items. rewrite app_nil_r.
    split; [|by left].
    intros [H|H]; [done|]. apply Hskip in H. by rewrite app_nil_r in H.
  - rewrite Nat.add_0_r.
    assert (Hnext : imap ((λ i x, (length pre + i, x)%nat) ∘ S) its
                    = imap (λ i x, (length (pre ++ [it]) + i, x)%nat) its).
    { apply imap_ext. intros i x _. simpl. rewrite length_app. simpl.
      f_equal. lia. }
    rewrite Hnext.
    assert (Hitems' : items = (pre ++ [it]) ++ its) by by rewrite <- app_assoc.
    assert (Hlen' : length (pre ++ [it]) = S (length pre)).
    { rewrite length_app. simpl. lia. }
    assert (Hat : items !! length pre = Some it).
    { subst items. rewrite lookup_app_r by lia. by rewrite Nat.sub_diag. }
    destruct (decide (length pre ∈ skip)) as [Hin|Hnotin].
    { intros H Hidx Hnd Hdone Hskip.
      eapply (IH (pre ++ [it])); try done.
      intros j. rewrite Hdone, Hlen'.
      split; [intros [?|?]; [left; lia | by right]|].
      intros [?|?]; [|by right].
      destruct (decide (j = length pre)) as [->|]; [by right|left; lia]. }
    destruct (box_to_rect (box it)) as [rect_i|]; [|done]. simpl.
    destruct (scan_partners items th (rect_center rect_i)
                (seq (S (length pre)) (length items - S (length pre)))
                [it] skip)
      as [[tm skip']|] eqn:Escan; [|done]. simpl.
    destruct (scan_partners_picks _ _ _ _ _ _ _ _ Escan)
      as (picked & parts & -> & Hparts & Hsub & Hfresh & Hskip').
    intros H Hidx Hnd Hdone Hskip.
    assert (Hpicked : ∀ j, j ∈ picked → (length pre < j < length items)%nat).
    { intros j Hj. eapply elem_of_sublist in Hj; [|done].
      apply elem_of_seq in Hj. lia. }
    eapply (IH (pre ++ [it]) _ _ _ (igs ++ [length pre :: picked])); try done.
    + apply Forall2_app; [done|]. constructor; [|done]. by constructor.
    + rewrite concat_app. simpl. rewrite app_nil_r. apply NoDup_app.
      split; [done|]. split.
      * intros j Hj [->|Hj']%elem_of_cons.
        -- apply Hdone in Hj as [?|?]; [lia|done].
        -- apply Hdone in Hj as [?|?]; [apply Hpicked in Hj'; lia|].
           by apply Hfresh in Hj'.
      * apply NoDup_cons. split.
        -- intros Hj. apply Hpicked in Hj. lia.
        -- eapply sublist_NoDup; [apply NoDup_seq | exact Hsub].
    + intros j. rewrite concat_app, elem_of_app. simpl. rewrite app_nil_r.
      rewrite elem_of_cons, Hdone, Hskip', Hlen'.
      split; [intros [[?|?]|[->|?]]; try tauto; left; lia|].
      intros [?|[?|?]]; try tauto.
      destruct (decide (j = length pre)) as [->|]; [tauto|]. left. left. lia.
    + intros j [Hj|Hj]%Hskip'; [apply Hpicked in Hj; lia | by apply Hskip].
Qed.

Lemma at_indices_concat items igs gs :
  Forall2 (at_indices items) igs gs →
  concat gs = omap (items !!.) (concat igs).
Proof.
  induction 1 as [|ig g igs gs Hig Hrest IH]; simpl; [done|].
  rewrite omap_app, IH. f_equal.
  clear -Hig. induction Hig as [|j it ig g Hj Hrest IH]; simpl; [done|].
  by rewrite Hj, IH.
Qed.

Lemma omap_lookup_seq {A} (l k : list A) :
  omap ((k ++ l) !!.) (seq (length k) (length l)) = l.
Proof.
  revert k. induction l as [|x l IH]; intros k; [done|]. simpl.
  rewrite lookup_app_r by lia. rewrite Nat.sub_diag. simpl. f_equal.
  specialize (IH (k ++ [x])).
  rewrite <- app_assoc, length_app in IH. simpl in IH.
  by rewrite Nat.add_1_r in IH.
Qed.

(** Every region of the input is a constituent of exactly one group. *)
Lemma merge_groups_partition items th gs :
  merge_groups items th = Some gs → concat gs ≡ₚ items.
Proof.
  unfold merge_groups. destruct (length items <=? 1)%nat.
  - intros [= <-].
    induction items as [|it items IH]; simpl; [done|]. by rewrite IH.
  - intros H.
    destruct (merge_groups_loop_partition items th items [] [] ∅ gs [])
      as (igs & Hidx & Hnd & Hall).
    + done.
    + exact H.
    + constructor.
    + constructor.
    + simpl. intros j. split; [by intros ?%elem_of_nil|].
      intros [?|Hj]; [lia | by apply not_elem_of_empty in Hj].
    + intros j Hj. by apply not_elem_of_empty in Hj.
    + rewrite (at_indices_concat _ _ _ Hidx).
      transitivity (omap (items !!.) (seq 0 (length items))).
      * apply omap_Permutation.
        apply NoDup_Permutation; [done|apply NoDup_seq|].
        intros j. rewrite Hall, elem_of_seq. lia.
      * pose proof (omap_lookup_seq items []) as Hseq. simpl in Hseq.
        by rewrite Hseq.
Qed.

(** On regions with non-empty boxes the function returns, one region per
    group. *)
Lemma merge_nearby_boxes_emits items th :
  Forall (λ it, box it ≠ []) items →
  ∃ out gs,
    merge_nearby_boxes items th = Some out
    ∧ merge_groups items th = Some gs
    ∧ Forall2 emitted gs out
    ∧ Forall (λ g, g ≠ [] ∧ Forall (λ it, is_Some (rect_of it)) g) gs
    ∧ (length out <= length items)%nat.
Proof.
  intros Hitems. unfold merge_nearby_boxes, merge_groups.
  destruct (length items <=? 1)%nat eqn:Elen.
  - exists items, (map (λ it, [it]) items).
    split; [done|]. split; [done|]. clear Elen.
    induction Hitems as [|it items Hbox Hrest (IH1 & IH2 & _)]; simpl.
    + repeat split; constructor.
    + split; [by constructor|]. split; [|lia].
      constructor; [|done]. split; [done|]. constructor; [|done].
      by apply box_to_rect_is_Some.
  - destruct (merge_loop_total items th (enumerate items) Hitems)
      with (merged := @nil item) (skip := (∅ : gset nat)) as [out Hout].
    { unfold enumerate. apply Forall_forall. intros [i it] Hin.
      apply elem_of_lookup_imap in Hin as (j & it' & [= -> ->] & Hj). simpl.
      rewrite Forall_forall in Hitems. apply Hitems.
      by eapply list_elem_of_lookup_2. }
    destruct (merge_loop_spec _ _ _ _ [] _ _ Hout)
      as (gs & out' & Hgs & -> & Hem & Hinv & Hle).
    exists out', gs. simpl in *. repeat split; try done.
    unfold enumerate in Hle. by rewrite length_imap in Hle.
Qed.

(** The scenario of the specification: two fragments of one line. *)
Example merge_hello_world :
  ∃ o, merge_nearby_boxes [Scenario.hello; Scenario.world] 50 = Some [o]
       ∧ text o = Ustr.lit "Hello World"
       ∧ box o = [(95, 45); (145, 45); (145, 57); (95, 57)]%Q
       ∧ (conf o == 3 # 8)%Q.
Proof. eexists. split; [vm_compute; reflexivity|]. by repeat split. Qed.

(** Grouping is by the anchor, not transitive: the third region is within
    reach of the second but not of the first. *)
Example merge_is_anchor_based :
  merge_groups [Scenario.region "a" 0 0 1; Scenario.region "b" 90 0 1;
                Scenario.region "c" 180 0 1] 50
  = Some [[Scenario.region "a" 0 0 1; Scenario.region "b" 90 0 1];
          [Scenario.region "c" 180 0 1]].
Proof. vm_compute. reflexivity. Qed.

(** C4, as stated, fails on the two fragments of the scenario, whose union
    rectangle is (95, 45, 145, 57): the fourth point of the merged box is
    the bottom-left corner (95, 57), not the top-left corner (95, 45) a
    second time. *)
Lemma C4_fourth_point_is_bottom_left :
  ∃ o, merge_nearby_boxes [Scenario.hello; Scenario.world] 50 = Some [o]
       ∧ merge_groups [Scenario.hello; Scenario.world] 50
         = Some [[Scenario.hello; Scenario.world]]
       ∧ is_union_rect [Rect 95 45 105 55; Rect 135 47 145 57]
                       (Rect 95 45 145 57)
       ∧ box o !! 3%nat = Some (95, 57)%Q
       ∧ box o ≠ [(95, 45); (145, 45); (145, 57); (95, 45)]%Q.
Proof.
  eexists. split; [vm_compute; reflexivity|].
  split; [vm_compute; reflexivity|]. split.
  - split.
    + intros r Hr. unfold contains.
      apply elem_of_cons in Hr as [->|Hr];
        [|apply list_elem_of_singleton in Hr as ->]; simpl;
        repeat split; by apply Qle_bool_iff.
    + simpl. repeat split; set_solver.
  - split; [reflexivity | discriminate].
Qed.

(** C4, amended: every region made from a group of two or more regions
    has for box the point sequence [[x1,y1],[x2,y1],[x2,y2],[x1,y2]] of
    the group's union rectangle (x1,y1,x2,y2), for text the constituent
    texts in encounter order joined by single spaces, and for confidence
    the arithmetic mean of the constituent confidences. *)
Theorem C4_merged_region_fields (items : list item) (threshold : Q) :
  Forall (λ it, box it ≠ []) items →
  ∃ out gs,
    merge_nearby_boxes items threshold = Some out
    ∧ merge_groups items threshold = Some gs
    ∧ Forall2
        (λ g o,
           (2 <= length g)%nat →
           ∃ rs u,
             mapM rect_of g = Some rs
             ∧ is_union_rect rs u
             ∧ box o = [(rx1 u, ry1 u); (rx2 u, ry1 u);
                        (rx2 u, ry2 u); (rx1 u, ry2 u)]
             ∧ text o = Ustr.join (Ustr.lit " ") (map text g)
             ∧ conf o = (Qsum (map conf g)
                         / inject_Z (Z.of_nat (length g)))%Q)
        gs out.
Proof.
  intros Hitems.
  destruct (merge_nearby_boxes_emits items threshold Hitems)
    as (out & gs & Hout & Hgs & Hem & _ & _).
  exists out, gs. split; [done|]. split; [done|].
  eapply Forall2_impl; [exact Hem|]. intros g o Hgo Hlen.
  assert (Hm : merge_group g = Some o).
  { destruct g as [|a [|b g]]; simpl in Hlen; [lia | lia | done]. }
  destruct (merge_group_spec _ _ Hm) as (rs & u & Hrs & Hu & Hbox & Ht & Hc).
  exists rs, u. unfold mean in Hc. by rewrite length_map in Hc.
Qed.

Lemma C4_merged_region_fields_witness :
  Forall (λ it, box it ≠ []) [Scenario.hello; Scenario.world]
  ∧ ∃ out gs,
      merge_nearby_boxes [Scenario.hello; Scenario.world] 50 = Some out
      ∧ merge_groups [Scenario.hello; Scenario.world] 50 = Some gs
      ∧ Forall2
          (λ g o,
             (2 <= length g)%nat →
             ∃ rs u,
               mapM rect_of g = Some rs
               ∧ is_union_rect rs u
               ∧ box o = [(rx1 u, ry1 u); (rx2 u, ry1 u);
                          (rx2 u, ry2 u); (rx1 u, ry2 u)]
               ∧ text o = Ustr.join (Ustr.lit " ") (map text g)
               ∧ conf o = (Qsum (map conf g)
                           / inject_Z (Z.of_nat (length g)))%Q)
          gs out.
Proof.
  assert (H : Forall (λ it, box it ≠ []) [Scenario.hello; Scenario.world])
    by (repeat constructor; discriminate).
  split; [exact H|].
  exact (C4_merged_region_fields [Scenario.hello; Scenario.world] 50 H).
Defined.

(** C5: the output of [merge_nearby_boxes] is never longer than its input,
    whatever the threshold, and the rectangle of every output region
    contains the rectangle of each region of the group it was made from;
    the groups together hold every input region exactly once. *)
Theorem C5_merge_shrinks_and_contains (items : list item) (threshold : Q) :
  (∀ out, merge_nearby_boxes items threshold = Some out →
          (length out <= length items)%nat)
  ∧ (Forall (λ it, box it ≠ []) items →
     ∃ out gs,
       merge_nearby_boxes items threshold = Some out
       ∧ merge_groups items threshold = Some gs
       ∧ concat gs ≡ₚ items
       ∧ Forall2
           (λ g o,
              ∃ ro, rect_of o = Some ro
                    ∧ ∀ c, c ∈ g →
                           ∃ rc, rect_of c = Some rc ∧ contains ro rc)
           gs out).
Proof.
  split.
  - intros out. unfold merge_nearby_boxes.
    destruct (length items <=? 1)%nat; [by intros [= <-]|].
    intros Hout.
    destruct (merge_loop_spec _ _ _ _ [] _ _ Hout)
      as (gs & out' & _ & -> & _ & _ & Hle).
    unfold enumerate in Hle. by rewrite length_imap in Hle.
  - intros Hitems.
    destruct (merge_nearby_boxes_emits items threshold Hitems)
      as (out & gs & Hout & Hgs & Hem & Hinv & _).
    exists out, gs. split; [done|]. split; [done|].
    split; [by eapply merge_groups_partition|].
    clear Hout Hgs.
    induction Hem as [|g o gs out Hgo Hrest IH]; constructor.
    + apply Forall_cons in Hinv as [[Hne Hall] _]. by apply emitted_contains.
    + apply IH. by apply Forall_cons in Hinv as [_ ?].
Qed.

Lemma C5_merge_shrinks_and_contains_witness :
  (merge_nearby_boxes [Scenario.hello; Scenario.world] 50
   = Some [Item (Ustr.lit "Hello World")
             [(95, 45); (145, 45); (145, 57); (95, 57)]%Q
             (((0 + (1 # 2)) + (1 # 4)) / 2)%Q None None]
   ∧ (1 <= 2)%nat)
  ∧ Forall (λ it, box it ≠ []) [Scenario.hello; Scenario.world]
  ∧ ∃ out gs,
      merge_nearby_boxes [Scenario.hello; Scenario.world] 50 = Some out
      ∧ merge_groups [Scenario.hello; Scenario.world] 50 = Some gs
      ∧ concat gs ≡ₚ [Scenario.hello; Scenario.world]
      ∧ Forall2
          (λ g o,
             ∃ ro, rect_of o = Some ro
                   ∧ ∀ c, c ∈ g →
                          ∃ rc, rect_of c = Some rc ∧ contains ro rc)
          gs out.
Proof.
  assert (H : Forall (λ it, box it ≠ []) [Scenario.hello; Scenario.world])
    by (repeat constructor; discriminate).
  assert (Hout : merge_nearby_boxes [Scenario.hello; Scenario.world] 50
                 = Some [Item (Ustr.lit "Hello World")
                           [(95, 45); (145, 45); (145, 57); (95, 57)]%Q
                           (((0 + (1 # 2)) + (1 # 4)) / 2)%Q None None])
    by reflexivity.
  split; [split; [exact Hout|]|split; [exact H|]].
  - exact (proj1 (C5_merge_shrinks_and_contains
                    [Scenario.hello; Scenario.world] 50) _ Hout).
  - exact (proj2 (C5_merge_shrinks_and_contains
                    [Scenario.hello; Scenario.world] 50) H).
Defined.

(** ** The batched translation engine *)

Section Translate.
Variable e : env.

Lemma parse_translations_length texts r l :
  parse_translations e texts r = inr l → length l = length texts.
Proof.
  unfold parse_translations.
  destruct (message_content r) as [err|raw]; [done|].
  destruct (json_loads e _) as [err|data]; [done|].
  destruct data as [| | | | | |d]; try done.
  destruct (default PNone _) as [| | | | |translations|]; try done.
  destruct (length translations =? length texts)%nat eqn:E; [|done].
  intros [= <-]. rewrite length_imap. by apply Nat.eqb_eq.
Qed.

Lemma attempts_length req texts max_retries todo :
  ∀ last_err h l h',
    attempts e req texts max_retries todo last_err h = (inl l, h') →
    length l = length texts.
Proof.
  induction todo as [|attempt todo IH]; intros last_err h l h'; simpl.
  - done.
  - unfold bind, post, sleep, rate_limit_sleep, ret.
    destruct (chat_post e h req) as [err|r]; [by apply IH|].
    destruct (status_code r =? 429)%Z.
    + destruct (quota_exhausted r); [done|].
      destruct (min2 45 <$> _) as [sleep_s|]; by apply IH.
    + destruct (negb (status_ok (status_code r))); [done|].
      destruct (parse_translations e texts r) as [err|translations] eqn:E.
      * by apply IH.
      * intros [= <- <-]. by eapply parse_translations_length.
Qed.

Lemma translate_openai_batch_length texts src tgt api_key model max_retries h :
  length (translate_openai_batch e texts src tgt api_key model max_retries h).1
  = length texts.
Proof.
  unfold translate_openai_batch.
  destruct (negb (Latin1.truthy api_key)); simpl; [by rewrite length_map|].
  unfold bind.
  destruct (attempts e _ texts max_retries (seq 0 max_retries) None h)
    as [[l|last_err] h'] eqn:E; simpl.
  - by eapply attempts_length.
  - by rewrite length_map.
Qed.

(** [translate_libre] never raises. *)
Lemma translate_libre_returns text src tgt h :
  ∃ v, (translate_libre e text src tgt h).1 = Some v.
Proof.
  unfold translate_libre, bind, libre_try, ret.
  destruct (libre_post e h _) as [r|]; [|by eexists].
  destruct (status_ok (libre_status r)); [|by eexists].
  destruct (libre_json r) as [[| | | | | |d]|]; by eexists.
Qed.

(** When the fallback call fails, [translate_libre] makes that one call
    and returns the text it was given. *)
Lemma translate_libre_on_failure text src tgt h :
  fallback_fails e h (LibreRequest text src tgt) →
  translate_libre e text src tgt h
  = (Some (PStr text), h ++ [LibreCall (LibreRequest text src tgt)]).
Proof.
  unfold fallback_fails, translate_libre, bind, libre_try, ret.
  destruct (libre_post e h _) as [r|]; [|done].
  destruct (status_ok (libre_status r)); [|done].
  intros [?|[->|(o & -> & Ho)]]; [done|done|]. by destruct o.
Qed.

Lemma libre_each_length src tgt items :
  ∀ h, ∃ out, (libre_each e src tgt items h).1 = Some out
              ∧ length out = length items.
Proof.
  induction items as [|it items IH]; intros h; simpl.
  - by exists [].
  - unfold bind.
    destruct (translate_libre_returns (Ustr.strip (text it)) src tgt h)
      as [v Hv].
    destruct (translate_libre e _ src tgt h) as [r h1]. simpl in Hv. subst r.
    destruct (IH h1) as (out & Hout & Hlen).
    destruct (libre_each e src tgt items h1) as [rest h2].
    simpl in *. subst rest.
    exists (set_translation it v :: out). simpl. by rewrite Hlen.
Qed.

Lemma translate_batch_length src tgt key model items backend batch_size h :
  batch_size ≠ 0%Z →
  ∃ out,
    (translate_batch e src tgt key model items backend batch_size h).1
    = Some out
    ∧ length out = length items.
Proof.
  intros Hbs. unfold translate_batch.
  destruct items as [|it items]; [by exists []|].
  destruct (Latin1.startswith backend "OpenAI").
  - unfold py_range. rewrite (proj2 (Z.eqb_neq _ _) Hbs).
    destruct (batch_size <? 0)%Z; unfold bind;
      destruct (batches _ _ _ _ _ _ _ _ _ _) as [tt h']; cbn [fst ret];
      eexists; (split; [reflexivity|]); by rewrite length_imap.
  - apply libre_each_length.
Qed.

(** In the reconciliation loop, an item whose batched result is tagged as
    failed and whose fallback call fails costs one fallback call and
    receives its original text. *)
Lemma reconcile_fallback_failure src tgt original result pairs acc h :
  Ustr.startswith result (Ustr.lit "[OpenAI failed") = true →
  fallback_fails e h (LibreRequest original src tgt) →
  reconcile e src tgt ((original, result) :: pairs) acc h
  = reconcile e src tgt pairs (acc ++ [PStr original])
      (h ++ [LibreCall (LibreRequest original src tgt)]).
Proof.
  intros Htag Hfail. cbn [reconcile]. rewrite Htag. unfold bind.
  by rewrite translate_libre_on_failure.
Qed.

End Translate.

(** C1: whatever the remote services do, [translate_openai_batch] returns
    as many strings as it was given texts, and [translate_batch], for any
    items, any backend and any non-zero batch size, returns as many items
    as it was given. *)
Theorem C1_output_length_is_input_length (e : env) :
  (∀ texts src tgt api_key model max_retries h,
     length
       (translate_openai_batch e texts src tgt api_key model max_retries h).1
     = length texts)
  ∧ (∀ ocr_lang target_lang openai_key openai_model items backend
       batch_size h,
       batch_size ≠ 0%Z →
       ∃ out,
         (translate_batch e ocr_lang target_lang openai_key openai_model
            items backend batch_size h).1 = Some out
         ∧ length out = length items).
Proof.
  split.
  - intros. apply translate_openai_batch_length.
  - intros. by apply translate_batch_length.
Qed.

Lemma C1_output_length_is_input_length_witness :
  18%Z ≠ 0%Z
  ∧ ∃ out,
      (translate_batch Scenario.outage "ja" "en" "key" "gpt-4o-mini"
         [Scenario.hello; Scenario.world] "OpenAI (API key required, batched)"
         18 []).1 = Some out
      ∧ length out = 2%nat.
Proof.
  assert (H : 18%Z ≠ 0%Z) by discriminate.
  split; [exact H|].
  exact (proj2 (C1_output_length_is_input_length Scenario.outage)
           "ja" "en" "key" "gpt-4o-mini" [Scenario.hello; Scenario.world]
           "OpenAI (API key required, batched)" 18%Z [] H).
Defined.

(** A zero batch size is the one argument on which [translate_batch]
    raises. *)
Example zero_batch_size_raises :
  (translate_batch Scenario.outage "ja" "en" "key" "gpt-4o-mini"
     [Scenario.hello] "OpenAI" 0 []).1 = None.
Proof. reflexivity. Qed.

(** C2, on an item whose batched result is tagged as failed and whose
    fallback call fails too: the primary service answers HTTP 500, so the
    batched result of "Hello" is the tagged string; one fallback call is
    made and fails; the translation stored for the item is the original
    text "Hello", not the tagged string. *)
Theorem C2_failed_fallback_loses_the_tag :
  translate_openai_batch Scenario.outage [Ustr.lit "Hello"] "ja" "en" "key"
    "gpt-4o-mini" 5 []
  = ([Ustr.lit "[OpenAI failed: OpenAI error 500: boom] Hello"],
     [ChatCall (ChatRequest "key" "gpt-4o-mini" "ja" "en" [Ustr.lit "Hello"])])
  ∧ ∃ h,
      translate_batch Scenario.outage "ja" "en" "key" "gpt-4o-mini"
        [Scenario.hello] "OpenAI (API key required, batched)" 18 []
      = (Some [set_translation Scenario.hello (PStr (Ustr.lit "Hello"))], h)
      ∧ libre_calls h = [LibreRequest (Ustr.lit "Hello") "ja" "en"]
      ∧ PStr (Ustr.lit "Hello")
        ≠ PStr (Ustr.lit "[OpenAI failed: OpenAI error 500: boom] Hello").
Proof.
  split; [vm_compute; reflexivity|].
  eexists. split; [vm_compute; reflexivity|].
  split; [|discriminate]. reflexivity.
Qed.

(** The fence removal on a fenced and on a bare payload. *)
Example strip_fences_fenced :
  strip_fences (Ustr.lit "```json {} ```") = Ustr.lit "{}".
Proof. reflexivity. Qed.

Example strip_fences_bare : strip_fences (Ustr.lit "{}") = Ustr.lit "{}".
Proof. reflexivity. Qed.

(** C9: with an empty API key [translate_openai_batch] returns every text
    prefixed with the missing-key tag and performs no call and no sleep:
    the history is left as it was. *)
Theorem C9_missing_key_short_circuits
    (e : env) (texts : list ustr) (src tgt model : string)
    (max_retries : nat) (h : history) :
  translate_openai_batch e texts src tgt "" model max_retries h
  = (map (λ t, Ustr.lit "[Missing OpenAI key] " ++ t) texts, h).
Proof. reflexivity. Qed.


Lemma all_digits_of_ascii s :
  forallb Latin1.is_ascii_digit (list_ascii_of_string s) = true →
  Latin1.all_digits s = true.
Proof.
  induction s as [|c s IH]; [done|]. simpl.
  intros [Hc Hs]%andb_prop. rewrite (IH Hs), andb_true_r.
  unfold Latin1.isdigit_char. unfold Latin1.is_ascii_digit in Hc.
  by rewrite Hc.
Qed.

Lemma int_acc_of_ascii s :
  forallb Latin1.is_ascii_digit (list_ascii_of_string s) = true →
  ∀ acc, ∃ v, Latin1.int_acc acc s = Some v.
Proof.
  induction s as [|c s IH]; intros Hall acc; simpl; [by eexists|].
  simpl in Hall. apply andb_prop in Hall as [Hc Hs]. rewrite Hc.
  by apply IH.
Qed.

Lemma leading_digits_le s : Latin1.leading_digits s ≤ String.length s.
Proof.
  induction s as [|c s IH]; simpl; [done|].
  destruct (Latin1.is_ascii_digit c); lia.
Qed.

(** A string of at most 4300 decimal digits is accepted by [isdigit] and
    has a value. *)
Lemma ascii_digits_have_a_value s :
  s ≠ "" → String.length s ≤ 4300 →
  forallb Latin1.is_ascii_digit (list_ascii_of_string s) = true →
  Latin1.isdigit s = true ∧ ∃ v, Latin1.int s = Some v.
Proof.
  intros Hne Hlen Hall. split.
  - unfold Latin1.isdigit. rewrite (all_digits_of_ascii s Hall).
    by destruct s.
  - unfold Latin1.int. destruct s as [|c s]; [done|].
    pose proof (leading_digits_le (String c s)) as Hle.
    unfold Latin1.max_str_digits.
    rewrite (proj2 (Nat.ltb_ge _ _)) by lia.
    by apply int_acc_of_ascii.
Qed.

(** The loop only adds to the history. *)
Lemma attempts_extends e req texts max_retries todo :
  ∀ last_err h, ∃ evs,
    (attempts e req texts max_retries todo last_err h).2 = h ++ evs.
Proof.
  induction todo as [|attempt todo IH]; intros last_err h.
  { exists []. simpl. by rewrite app_nil_r. }
  assert (Hgo : ∀ err evs0, ∃ evs,
    (attempts e req texts max_retries todo err (h ++ evs0)).2 = h ++ evs).
  { intros err evs0. destruct (IH err (h ++ evs0)) as [evs ->].
    exists (evs0 ++ evs). by rewrite <- app_assoc. }
  cbn [attempts]. unfold bind, post, sleep, rate_limit_sleep, ret.
  destruct (chat_post e h req) as [err|r].
  { rewrite <- app_assoc. apply Hgo. }
  destruct (status_code r =? 429)%Z.
  - destruct (quota_exhausted r); [by eexists|].
    destruct (min2 45 <$> _) as [d|]; rewrite <- app_assoc; apply Hgo.
  - destruct (negb (status_ok (status_code r))); [by eexists|].
    destruct (parse_translations e texts r); [|by eexists].
    rewrite <- app_assoc. apply Hgo.
Qed.

(** One turn of the loop on a 429 that does not name the quota: the
    request, the sleep, and the attempts that are left. *)
Lemma attempts_rate_limited e req texts max_retries attempt todo last_err h r :
  chat_post e h req = inr r →
  status_code r = 429%Z →
  quota_exhausted r = false →
  attempts e req texts max_retries (attempt :: todo) last_err h
  = match (rate_limit_sleep e (retry_after r) attempt
             (h ++ [ChatCall req])).1 with
    | Some d =>
        attempts e req texts max_retries todo
          (Some (rate_limit_message attempt max_retries d))
          (h ++ [ChatCall req; Sleep d])
    | None =>
        attempts e req texts max_retries todo
          (Some (describe (int_error (default "" (retry_after r)))))
          (h ++ [ChatCall req; Sleep (handler_sleep attempt)])
    end.
Proof.
  intros Hpost Hstatus Hquota. cbn [attempts]. unfold bind at 1.
  unfold post. rewrite Hpost, Hstatus, Hquota. cbn [Z.eqb Pos.eqb].
  unfold bind at 1. unfold rate_limit_sleep. cbn [fst].
  destruct (min2 45 <$> _) as [d|]; unfold bind, sleep;
    by rewrite <- app_assoc.
Qed.

Lemma failure_tag_describe err :
  failure_tag (Some (describe err))
  = Ustr.lit "[OpenAI failed: " ++ describe err ++ Ustr.lit "]".
Proof. by destruct err. Qed.

(** C10: the guard [isdigit] does not keep [int] from raising.  On an
    HTTP 429 without quota signal whose Retry-After header [isdigit]
    accepts and [int] rejects (a superscript digit, or more than 4300
    digits), the sleep is neither [min(45, v)] nor the exponential
    backoff: the [ValueError] reaches the general handler, which records
    an unexpected error and sleeps [min(10, 1.5 + attempt)], 1.5 seconds
    at the first attempt.  With one attempt allowed that is all that
    happens, and the texts come back behind the error. *)
Theorem C10_unparsable_digits_reach_the_handler
    (e : env) (texts : list ustr) (src tgt api_key model : string) (n : nat)
    (h : history) (r : chat_response) (s : string) :
  Latin1.truthy api_key = true →
  let req := ChatRequest api_key model (lang_map src) (lang_map tgt) texts in
  chat_post e h req = inr r →
  status_code r = 429%Z →
  quota_exhausted r = false →
  retry_after r = Some s →
  Latin1.isdigit s = true →
  Latin1.int s = None →
  ∃ out evs,
    translate_openai_batch e texts src tgt api_key model (S n) h
    = (out, h ++ [ChatCall req; Sleep (3 # 2)] ++ evs)
    ∧ (n = 0 →
       evs = []
       ∧ out = map (λ t, Ustr.lit "[OpenAI failed: "
                         ++ describe (int_error s) ++ Ustr.lit "] " ++ t)
                   texts).
Proof.
  intros Hkey req Hpost Hstatus Hquota Hra Hdigit Hint.
  unfold translate_openai_batch. rewrite Hkey. cbn [negb]. fold req.
  unfold bind. change (seq 0 (S n)) with (0 :: seq 1 n).
  rewrite (attempts_rate_limited _ _ _ _ _ _ _ _ _ Hpost Hstatus Hquota).
  unfold rate_limit_sleep. rewrite Hra, Hdigit, Hint.
  cbn [fst fmap option_fmap option_map default].
  change (handler_sleep 0) with (3 # 2)%Q.
  destruct (attempts_extends e req texts (S n) (seq 1 n)
              (Some (describe (int_error s)))
              (h ++ [ChatCall req; Sleep (3 # 2)])) as [evs Hevs].
  destruct (attempts e req texts (S n) (seq 1 n) _ _) as [res h'] eqn:E.
  simpl in Hevs. subst h'.
  exists (match res with
          | inl translations => translations
          | inr last_err =>
              map (λ t, failure_tag last_err ++ Ustr.lit " " ++ t) texts
          end), evs.
  split; [rewrite <- app_assoc; by destruct res|].
  intros ->. simpl in E. unfold ret in E. injection E as <- Hh.
  split.
  - apply (app_inv_head (h ++ [ChatCall req; Sleep (3 # 2)])).
    by rewrite app_nil_r.
  - apply map_ext. intros t.
    by rewrite failure_tag_describe, <- !app_assoc.
Qed.

Lemma C10_unparsable_digits_reach_the_handler_witness :
  Latin1.truthy "key" = true
  ∧ Latin1.isdigit Cases.long_header = true
  ∧ Latin1.int Cases.long_header = None
  ∧ ∃ out evs,
      translate_openai_batch (Scenario.throttled (Some Cases.long_header))
        [Ustr.lit "hello"] "ja" "en" "key" "gpt-4o-mini" 1 []
      = (out, [] ++ [ChatCall Scenario.request; Sleep (3 # 2)] ++ evs)
      ∧ (0 = 0 →
         evs = []
         ∧ out = map (λ t, Ustr.lit "[OpenAI failed: "
                           ++ describe (int_error Cases.long_header)
                           ++ Ustr.lit "] " ++ t)
                     [Ustr.lit "hello"]).
Proof.
  assert (H1 : Latin1.truthy "key" = true) by reflexivity.
  assert (H2 : Latin1.isdigit Cases.long_header = true)
    by (vm_compute; reflexivity).
  assert (H3 : Latin1.int Cases.long_header = None)
    by (vm_compute; reflexivity).
  split; [exact H1|]. split; [exact H2|]. split; [exact H3|].
  exact (C10_unparsable_digits_reach_the_handler
           (Scenario.throttled (Some Cases.long_header))
           [Ustr.lit "hello"] "ja" "en" "key" "gpt-4o-mini" 0 []
           (ChatResponse 429 (Some Cases.long_header) false [] (inr []))
           Cases.long_header H1 eq_refl eq_refl eq_refl eq_refl H2 H3).
Defined.

(** The header made of SUPERSCRIPT TWO: one request, a sleep of 1.5
    seconds, and the text behind the error of [int]. *)
Example superscript_retry_after :
  translate_openai_batch (Scenario.throttled (Some Scenario.superscript_two))
    [Ustr.lit "hello"] "ja" "en" "key" "gpt-4o-mini" 1 []
  = ([Ustr.lit "[OpenAI failed: Unexpected error: invalid literal for int() "
      ++ Ustr.lit "with base 10: '" ++ [178%N] ++ Ustr.lit "'] hello"],
     [ChatCall Scenario.request; Sleep (3 # 2)]).
Proof. vm_compute. reflexivity. Qed.

(** A header of 4301 digits: [isdigit] accepts it, [int] raises on the
    digit limit, and the sleep is 1.5 seconds, not 45. *)
Example long_retry_after :
  Latin1.isdigit Cases.long_header = true
  ∧ translate_openai_batch (Scenario.throttled (Some Cases.long_header))
      [Ustr.lit "hello"] "ja" "en" "key" "gpt-4o-mini" 1 []
    = ([Ustr.lit "[OpenAI failed: Unexpected error: Exceeds the limit "
        ++ Ustr.lit "(4300 digits) for integer string conversion: value has "
        ++ Ustr.lit "4301 digits; use sys.set_int_max_str_digits() to "
        ++ Ustr.lit "increase the limit] hello"],
       [ChatCall Scenario.request; Sleep (3 # 2)]).
Proof. vm_compute. split; reflexivity. Qed.

(** The scenario of the specification: 20 texts in batches of 18, the
    first request throttled with [Retry-After: 2]. *)
Example batch_of_twenty :
  let e :=
    Env (λ h req,
           match h with
           | [] => inr (ChatResponse 429 (Some "2") false [] (inr []))
           | _ => inr (ChatResponse 200 None false []
                         (inr (replicate (length (req_segments req)) 120%N)))
           end)
        (λ _ _, None) (λ _, 0%Q)
        (λ c, inr (PDict
                     [(Ustr.lit "translations",
                       PList (replicate (length c) (PStr (Ustr.lit "t"))))]))
        (λ _, []) in
  let '(out, h) :=
    translate_batch e "ja" "en" "key" "gpt-4o-mini"
      (replicate 20 Scenario.hello) "OpenAI" 18 [] in
  (length <$> out) = Some 20%nat
  ∧ (map (λ ev, match ev with
                | ChatCall req => inl (length (req_segments req))
                | LibreCall _ => inl 0%nat
                | Sleep s => inr s
                end) h)
    = [inl 18%nat; inr 2%Q; inl 18%nat; inr (1 # 2)%Q; inl 2%nat;
       inr (1 # 2)%Q].
Proof. vm_compute. split; reflexivity. Qed.

(** * Further properties *)

Import Detect Pipeline EffectSpec.

(** ** Further properties of the geometry helpers *)

Lemma py_min_le_py_max xs lo hi :
  py_min xs = Some lo → py_max xs = Some hi → (lo <= hi)%Q.
Proof.
  intros [Hin Hlo]%py_min_spec [_ Hhi]%py_max_spec.
  by apply Hhi.
Qed.

(** X1: the rectangle of a non-empty box is well formed and tight: its
    left edge is not right of its right edge, its top not below its bottom,
    every point of the box lies inside it, and each of its four
    coordinates is the coordinate of some point of the box. *)
Theorem box_to_rect_bounds (b : list point) :
  b ≠ [] →
  ∃ r, box_to_rect b = Some r
       ∧ (rx1 r <= rx2 r)%Q ∧ (ry1 r <= ry2 r)%Q
       ∧ (∀ p, p ∈ b →
            (rx1 r <= p.1 <= rx2 r)%Q ∧ (ry1 r <= p.2 <= ry2 r)%Q)
       ∧ rx1 r ∈ map fst b ∧ rx2 r ∈ map fst b
       ∧ ry1 r ∈ map snd b ∧ ry2 r ∈ map snd b.
Proof.
  intros Hne. unfold box_to_rect.
  destruct (py_min (map fst b)) as [x1|] eqn:E1; [|by destruct b].
  destruct (py_min (map snd b)) as [y1|] eqn:E2; [|by destruct b].
  destruct (py_max (map fst b)) as [x2|] eqn:E3; [|by destruct b].
  destruct (py_max (map snd b)) as [y2|] eqn:E4; [|by destruct b].
  simpl. eexists. split; [reflexivity|]. simpl.
  split; [by eapply py_min_le_py_max|]. split; [by eapply py_min_le_py_max|].
  apply py_min_spec in E1 as [I1 B1]. apply py_min_spec in E2 as [I2 B2].
  apply py_max_spec in E3 as [I3 B3]. apply py_max_spec in E4 as [I4 B4].
  split; [|done]. intros p Hp. repeat split.
  - apply B1. by apply list_elem_of_fmap_2.
  - apply B3. by apply list_elem_of_fmap_2.
  - apply B2. by apply list_elem_of_fmap_2.
  - apply B4. by apply list_elem_of_fmap_2.
Qed.

Lemma midpoint_between a b :
  (a <= b)%Q → (a <= (a + b) / 2)%Q ∧ ((a + b) / 2 <= b)%Q.
Proof.
  intros Hab. unfold Qdiv. change (/ 2)%Q with (1 # 2)%Q. split; lra.
Qed.

(** X2: the centre [rect_center] computes for the rectangle of a
    non-empty box lies inside that rectangle. *)
Theorem rect_center_inside (b : list point) :
  b ≠ [] →
  ∃ r, box_to_rect b = Some r
       ∧ (rx1 r <= (rect_center r).1 <= rx2 r)%Q
       ∧ (ry1 r <= (rect_center r).2 <= ry2 r)%Q.
Proof.
  intros Hne. unfold box_to_rect.
  destruct (py_min (map fst b)) as [x1|] eqn:E1; [|by destruct b].
  destruct (py_min (map snd b)) as [y1|] eqn:E2; [|by destruct b].
  destruct (py_max (map fst b)) as [x2|] eqn:E3; [|by destruct b].
  destruct (py_max (map snd b)) as [y2|] eqn:E4; [|by destruct b].
  simpl. eexists. split; [reflexivity|]. unfold rect_center. simpl.
  split; apply midpoint_between; by eapply py_min_le_py_max.
Qed.

Lemma box_to_rect_bounds_witness :
  Scenario.square 100 50 ≠ []
  ∧ ∃ r, box_to_rect (Scenario.square 100 50) = Some r
         ∧ (rx1 r <= rx2 r)%Q ∧ (ry1 r <= ry2 r)%Q
         ∧ (∀ p, p ∈ Scenario.square 100 50 →
              (rx1 r <= p.1 <= rx2 r)%Q ∧ (ry1 r <= p.2 <= ry2 r)%Q)
         ∧ rx1 r ∈ map fst (Scenario.square 100 50)
         ∧ rx2 r ∈ map fst (Scenario.square 100 50)
         ∧ ry1 r ∈ map snd (Scenario.square 100 50)
         ∧ ry2 r ∈ map snd (Scenario.square 100 50).
Proof.
  assert (H : Scenario.square 100 50 ≠ []) by discriminate.
  split; [exact H|]. exact (box_to_rect_bounds (Scenario.square 100 50) H).
Defined.

Lemma rect_center_inside_witness :
  Scenario.square 100 50 ≠ []
  ∧ ∃ r, box_to_rect (Scenario.square 100 50) = Some r
         ∧ (rx1 r <= (rect_center r).1 <= rx2 r)%Q
         ∧ (ry1 r <= (rect_center r).2 <= ry2 r)%Q.
Proof.
  assert (H : Scenario.square 100 50 ≠ []) by discriminate.
  split; [exact H|]. exact (rect_center_inside (Scenario.square 100 50) H).
Defined.

(** ** Further properties of the reading order *)

Lemma flat_map_ext_elem {A B} (f g : A → list B) l :
  (∀ x, x ∈ l → f x = g x) → flat_map f l = flat_map g l.
Proof.
  induction l as [|x l IH]; intros H; simpl; [done|].
  rewrite H by left. rewrite IH; [done|]. intros y Hy. apply H. by right.
Qed.

Lemma flat_map_perm {A B} (f g : A → list B) l :
  (∀ x, f x ≡ₚ g x) → flat_map f l ≡ₚ flat_map g l.
Proof.
  intros H. induction l as [|x l IH]; simpl; [done|]. by rewrite H, IH.
Qed.

(** Laying a list out key by key rearranges it. *)
Lemma flat_map_filter_perm {A K} `{EqDecision K} (key : A → K) ks :
  NoDup ks →
  ∀ l, (∀ x, x ∈ l → key x ∈ ks) →
       flat_map (λ k, filter (λ x, key x = k) l) ks ≡ₚ l.
Proof.
  induction 1 as [|k ks Hnotin Hnd IH]; intros l Hkeys.
  - destruct l as [|x l]; [done|]. specialize (Hkeys x). set_solver.
  - cbn [flat_map].
    rewrite (flat_map_ext_elem _
               (λ k', filter (λ x, key x = k')
                        (filter (λ x, key x ≠ k) l))).
    + rewrite IH.
      * apply (filter_app_complement (λ x, key x = k)).
      * intros x [Hne Hx]%list_elem_of_filter. specialize (Hkeys x Hx).
        set_solver.
    + intros k' Hk'. rewrite list_filter_filter.
      apply list_filter_iff. intros x. split; [|tauto].
      intros ->. split; [done|]. by intros ->.
Qed.

Lemma order_centered_perm rb cs : order_centered rb cs ≡ₚ cs.
Proof.
  rewrite order_centered_chunks.
  rewrite (flat_map_perm _ (λ k, filter (λ c, key_of rb c = k) cs)).
  - apply flat_map_filter_perm; [apply sorted_keys_NoDup|].
    intros c Hc. rewrite elem_of_sorted_keys, group_rows_dom. by exists c.
  - intros k. unfold chunk_of. apply py_sorted_perm.
Qed.

(** X3: when [sort_reading_order] returns, its output is a rearrangement
    of its input: no region is lost, added or duplicated. *)
Theorem sort_reading_order_permutation (items out : list item) :
  sort_reading_order items = Some out → out ≡ₚ items.
Proof.
  destruct items as [|it items]; [by intros [= <-]|].
  destruct (mapM center_item (it :: items)) as [cs|] eqn:Ecs.
  2:{ unfold sort_reading_order. by rewrite Ecs. }
  rewrite (sort_reading_order_centered _ cs) by done. intros [= <-].
  destruct (mapM_center_item_inv _ _ Ecs) as [<- _].
  apply fmap_Permutation, order_centered_perm.
Qed.

(** X4: [sort_reading_order] raises exactly when the list is not empty
    and some region has an empty box. *)
Theorem sort_reading_order_raises_iff (items : list item) :
  sort_reading_order items = None
  ↔ items ≠ [] ∧ ∃ it, it ∈ items ∧ box it = [].
Proof.
  split.
  - intros Hnone. destruct items as [|it0 items]; [done|]. split; [done|].
    destruct (decide (Forall (λ it, box it ≠ []) (it0 :: items)))
      as [Hall|Hnot].
    + destruct (mapM_center_item_is_Some _ Hall) as [cs Hcs].
      rewrite (sort_reading_order_centered _ cs) in Hnone; done.
    + apply not_Forall_Exists in Hnot; [|apply _].
      apply Exists_exists in Hnot as (it & Hin & Hbox).
      exists it. split; [done|]. by apply dec_stable.
  - intros [Hne (it & Hin & Hbox)]. destruct items as [|it0 items]; [done|].
    unfold sort_reading_order.
    destruct (mapM center_item (it0 :: items)) as [cs|] eqn:Ecs; [|done].
    exfalso. apply mapM_Some_1 in Ecs.
    apply list_elem_of_lookup in Hin as [i Hi].
    destruct (Forall2_lookup_l _ _ _ _ _ Ecs Hi) as (c & _ & Hc).
    unfold center_item in Hc. by rewrite Hbox in Hc.
Qed.

(** X5: the sorted output goes from the top row down.  Of two output
    positions the earlier region is in the same row as the later one or
    in a row above, the row being [floor(center_y / row_height)] under
    the row height computed from the input. *)
Theorem sort_reading_order_rows_descend (items : list item) :
  Forall (λ it, box it ≠ []) items →
  ∃ out,
    sort_reading_order items = Some out
    ∧ let rh := row_height items in
      ∀ i j a b ca cb,
        (i < j)%nat → out !! i = Some a → out !! j = Some b →
        centre a = Some ca → centre b = Some cb →
        (row_of rh ca <= row_of rh cb)%Z.
Proof.
  intros Hboxes.
  destruct (sorted_output_view items Hboxes)
    as (cs & sorted & Hcs & -> & Hout & _ & Hview).
  eexists. split; [exact Hout|]. cbv zeta.
  intros i j a b ca cb Hij Ha Hb Hca Hcb.
  destruct (StronglySorted_lookup _ _ _ _ _ _
              (order_centered_row_major (row_height items) cs) Hij
              (Hview _ _ _ Ha Hca) (Hview _ _ _ Hb Hcb))
    as [Hlt|[Heq _]];
    unfold key_of, row_key in *; unfold row_of; simpl in *; lia.
Qed.

Lemma sort_reading_order_permutation_witness :
  sort_reading_order Scenario.page
  = Some [Scenario.region "first" 50 10 (1 # 2);
          Scenario.region "second" 300 12 (1 # 2);
          Scenario.region "third" 10 200 (1 # 2)]
  ∧ [Scenario.region "first" 50 10 (1 # 2);
     Scenario.region "second" 300 12 (1 # 2);
     Scenario.region "third" 10 200 (1 # 2)] ≡ₚ Scenario.page.
Proof.
  assert (H : sort_reading_order Scenario.page
              = Some [Scenario.region "first" 50 10 (1 # 2);
                      Scenario.region "second" 300 12 (1 # 2);
                      Scenario.region "third" 10 200 (1 # 2)])
    by (vm_compute; reflexivity).
  split; [exact H|]. exact (sort_reading_order_permutation _ _ H).
Defined.

Lemma sort_reading_order_rows_descend_witness :
  Forall (λ it, box it ≠ []) Cases.tall_page
  ∧ ∃ out,
      sort_reading_order Cases.tall_page = Some out
      ∧ let rh := row_height Cases.tall_page in
        ∀ i j a b ca cb,
          (i < j)%nat → out !! i = Some a → out !! j = Some b →
          centre a = Some ca → centre b = Some cb →
          (row_of rh ca <= row_of rh cb)%Z.
Proof.
  assert (H : Forall (λ it, box it ≠ []) Cases.tall_page)
    by (repeat constructor; discriminate).
  split; [exact H|].
  exact (sort_reading_order_rows_descend Cases.tall_page H).
Defined.

(** The rows of the output of the page of [sort_tall_page], in output
    order. *)
Example tall_page_rows :
  match sort_reading_order Cases.tall_page with
  | Some out =>
      omap (λ it, row_of (row_height Cases.tall_page) <$> centre it) out
  | None => []
  end = [0; 9; 10; 19]%Z.
Proof. vm_compute. reflexivity. Qed.

(** ** Further properties of box merging *)

Lemma box_to_rect_None b : box_to_rect b = None ↔ b = [].
Proof.
  split; [|by intros ->]. destruct b as [|p b]; [done|].
  destruct (box_to_rect_is_Some (p :: b)) as [r Hr]; [done|]. by rewrite Hr.
Qed.

(** The scan raises on an unclaimed region with an empty box. *)
Lemma scan_partners_raises items th ci js :
  NoDup js →
  ∀ tm skip j it,
    j ∈ js → j ∉ skip → items !! j = Some it → box it = [] →
    scan_partners items th ci js tm skip = None.
Proof.
  induction 1 as [|j0 js Hnotin Hnd IH]; intros tm skip j it Hj Hskip Hit Hbox.
  - by apply elem_of_nil in Hj.
  - simpl. apply elem_of_cons in Hj as [->|Hj].
    + rewrite decide_False by done. rewrite Hit. simpl.
      by rewrite Hbox.
    + assert (j ≠ j0) by (by intros ->).
      destruct (decide (j0 ∈ skip)); [by eapply IH|].
      destruct (items !! j0) as [it0|]; [|done]. simpl.
      destruct (box_to_rect (box it0)) as [r0|]; [|done]. simpl.
      destruct (same_line th ci (rect_center r0)); eapply IH; try done.
      set_solver.
Qed.

(** X6: [merge_nearby_boxes] raises exactly when it is given two or more
    regions of which one has an empty box; a list of at most one region is
    returned as it is, whatever its box. *)
Theorem merge_nearby_boxes_raises_iff (items : list item) (threshold : Q) :
  merge_nearby_boxes items threshold = None
  ↔ (2 <= length items)%nat ∧ ∃ it, it ∈ items ∧ box it = [].
Proof.
  split.
  - intros Hnone.
    assert (Hlen : (2 <= length items)%nat).
    { unfold merge_nearby_boxes in Hnone.
      destruct (length items <=? 1)%nat eqn:E; [done|].
      apply Nat.leb_gt in E. lia. }
    split; [done|].
    destruct (decide (Forall (λ it, box it ≠ []) items)) as [Hall|Hnot].
    + destruct (merge_nearby_boxes_emits items threshold Hall)
        as (out & _ & Hout & _). congruence.
    + apply not_Forall_Exists in Hnot; [|apply _].
      apply Exists_exists in Hnot as (it & Hin & Hbox).
      exists it. split; [done|]. by apply dec_stable.
  - intros [Hlen (it & Hin & Hbox)]. unfold merge_nearby_boxes.
    destruct (length items <=? 1)%nat eqn:E; [apply Nat.leb_le in E; lia|].
    destruct items as [|it0 items]; [simpl in Hlen; lia|].
    unfold enumerate. cbn [imap merge_loop].
    rewrite decide_False by set_solver.
    destruct (box_to_rect (box it0)) as [r0|] eqn:E0; [|done]. simpl.
    apply list_elem_of_lookup in Hin as [j Hj].
    destruct j as [|j].
    { injection Hj as ->. rewrite Hbox in E0. done. }
    apply lookup_lt_Some in Hj as Hlt. simpl in Hlt.
    rewrite (scan_partners_raises _ _ _ _ (NoDup_seq _ _) _ _ (S j) it);
      [done| |apply not_elem_of_empty|done|done].
    apply elem_of_seq. simpl. lia.
Qed.

(** Without a partner the scan changes nothing. *)
Lemma scan_partners_no_partner items th ci js tm :
  Forall (λ it, box it ≠ []) items →
  Forall (λ j, j < length items)%nat js →
  (∀ j it r, j ∈ js → items !! j = Some it → box_to_rect (box it) = Some r →
             same_line th ci (rect_center r) = false) →
  scan_partners items th ci js tm ∅ = Some (tm, ∅).
Proof.
  intros Hitems. induction js as [|j js IH]; intros Hjs Hno; simpl; [done|].
  apply Forall_cons in Hjs as [Hj Hjs].
  rewrite decide_False by set_solver.
  destruct (lookup_lt_is_Some_2 items j Hj) as [it_j Ej]. rewrite Ej. simpl.
  assert (Hbox : box it_j ≠ []).
  { rewrite Forall_forall in Hitems. apply Hitems.
    by eapply list_elem_of_lookup_2. }
  destruct (box_to_rect_is_Some _ Hbox) as [rect_j Er]. rewrite Er. simpl.
  rewrite (Hno j it_j rect_j); [|by left|done|done].
  apply IH; [done|]. intros j' it' r' Hj'. apply Hno. by right.
Qed.

Lemma merge_loop_no_partner items th :
  Forall (λ it, box it ≠ []) items →
  (∀ i j a b ra rb,
     (i < j)%nat → items !! i = Some a → items !! j = Some b →
     box_to_rect (box a) = Some ra → box_to_rect (box b) = Some rb →
     same_line th (rect_center ra) (rect_center rb) = false) →
  ∀ rest merged,
    Forall (λ p : nat * item, items !! p.1 = Some p.2) rest →
    merge_loop items th rest merged ∅ = Some (merged ++ map snd rest).
Proof.
  intros Hitems Hno. induction rest as [|[i it] rest IH]; intros merged Hrest.
  - simpl. by rewrite app_nil_r.
  - apply Forall_cons in Hrest as [Hi Hrest]. simpl in Hi. cbn [merge_loop].
    rewrite decide_False by set_solver.
    assert (Hbox : box it ≠ []).
    { rewrite Forall_forall in Hitems. apply Hitems.
      by eapply list_elem_of_lookup_2. }
    destruct (box_to_rect_is_Some _ Hbox) as [ri Er]. rewrite Er. simpl.
    rewrite scan_partners_no_partner; try done.
    + simpl. rewrite IH by done. simpl. by rewrite <- app_assoc.
    + apply Forall_forall. intros j Hj%elem_of_seq. lia.
    + intros j it' r' Hj%elem_of_seq Hit' Hr'.
      eapply (Hno i j); try done. lia.
Qed.

Lemma enumerate_lookup {A} (l : list A) :
  Forall (λ p : nat * A, l !! p.1 = Some p.2) (enumerate l).
Proof.
  apply Forall_forall. intros [i x] Hin. unfold enumerate in Hin.
  by apply elem_of_lookup_imap in Hin as (j & y & [= -> ->] & Hj).
Qed.

Lemma map_snd_enumerate {A} (l : list A) : map snd (enumerate l) = l.
Proof.
  unfold enumerate.
  assert (H : ∀ (f : nat → nat), map snd (imap (λ i x, (f i, x)) l) = l).
  { induction l as [|x l IH]; intros f; simpl; [done|].
    f_equal. apply (IH (f ∘ S)). }
  apply (H id).
Qed.

(** X7: when no region satisfies the merge predicate against an earlier
    one, [merge_nearby_boxes] returns its input unchanged. *)
Theorem merge_without_partners_is_identity
    (items : list item) (threshold : Q) :
  Forall (λ it, box it ≠ []) items →
  (∀ i j a b ra rb,
     (i < j)%nat → items !! i = Some a → items !! j = Some b →
     box_to_rect (box a) = Some ra → box_to_rect (box b) = Some rb →
     same_line threshold (rect_center ra) (rect_center rb) = false) →
  merge_nearby_boxes items threshold = Some items.
Proof.
  intros Hitems Hno. unfold merge_nearby_boxes.
  destruct (length items <=? 1)%nat; [done|].
  rewrite (merge_loop_no_partner items threshold Hitems Hno);
    [|apply enumerate_lookup].
  by rewrite map_snd_enumerate.
Qed.

Lemma same_line_nonpositive th a b :
  (th <= 0)%Q → same_line th a b = false.
Proof.
  intros Hth. unfold same_line. apply andb_false_intro1. apply Qltb_ge.
  pose proof (Qabs_nonneg (a.2 - b.2)) as Habs.
  unfold Qdiv. change (/ 2)%Q with (1 # 2)%Q. lra.
Qed.

(** X8: a threshold of zero or less disables merging: the input is
    returned unchanged. *)
Theorem merge_disabled_by_nonpositive_threshold
    (items : list item) (threshold : Q) :
  Forall (λ it, box it ≠ []) items → (threshold <= 0)%Q →
  merge_nearby_boxes items threshold = Some items.
Proof.
  intros Hitems Hth. unfold merge_nearby_boxes.
  destruct (length items <=? 1)%nat; [done|].
  rewrite (merge_loop_no_partner items threshold Hitems);
    [by rewrite map_snd_enumerate| |apply enumerate_lookup].
  intros. by apply same_line_nonpositive.
Qed.

Lemma merge_without_partners_is_identity_witness :
  Forall (λ it, box it ≠ []) Scenario.page
  ∧ merge_nearby_boxes Scenario.page 50 = Some Scenario.page.
Proof.
  assert (H : Forall (λ it, box it ≠ []) Scenario.page)
    by (repeat constructor; discriminate).
  split; [exact H|].
  refine (merge_without_partners_is_identity Scenario.page 50 H _).
  intros i j a b ra rb Hij Ha Hb Hra Hrb.
  destruct i as [|[|[|i]]]; destruct j as [|[|[|j]]];
    try lia; try discriminate;
    injection Ha as <-; injection Hb as <-;
    injection Hra as <-; injection Hrb as <-; reflexivity.
Defined.

Lemma merge_disabled_by_nonpositive_threshold_witness :
  Forall (λ it, box it ≠ []) [Scenario.hello; Scenario.world]
  ∧ (0 <= 0)%Q
  ∧ merge_nearby_boxes [Scenario.hello; Scenario.world] 0
    = Some [Scenario.hello; Scenario.world].
Proof.
  assert (H : Forall (λ it, box it ≠ []) [Scenario.hello; Scenario.world])
    by (repeat constructor; discriminate).
  assert (H0 : (0 <= 0)%Q) by discriminate.
  split; [exact H|]. split; [exact H0|].
  exact (merge_disabled_by_nonpositive_threshold
           [Scenario.hello; Scenario.world] 0 H H0).
Defined.

(** The partners the scan picks satisfy the merge predicate against the
    anchor. *)
Lemma scan_partners_same_line items th ci js tm skip tm' skip' :
  scan_partners items th ci js tm skip = Some (tm', skip') →
  ∃ parts,
    tm' = tm ++ parts
    ∧ Forall (λ c, ∃ rc, rect_of c = Some rc
                         ∧ same_line th ci (rect_center rc) = true) parts.
Proof.
  revert tm skip. induction js as [|j js IH]; intros tm skip; simpl.
  - intros [= <- <-]. exists []. by rewrite app_nil_r.
  - destruct (decide (j ∈ skip)); [by apply IH|].
    destruct (items !! j) as [it_j|]; [|done]. simpl.
    destruct (box_to_rect (box it_j)) as [rect_j|] eqn:Er; [|done]. simpl.
    destruct (same_line th ci (rect_center rect_j)) eqn:Esame; [|by apply IH].
    intros H. destruct (IH _ _ H) as (parts & -> & Hparts).
    exists (it_j :: parts). rewrite <- app_assoc. split; [done|].
    constructor; [|done]. exists rect_j. by unfold rect_of.
Qed.

Lemma merge_groups_loop_anchored items th (P : list item → Prop) :
  (∀ a ra parts,
     rect_of a = Some ra →
     Forall (λ c, ∃ rc, rect_of c = Some rc
                  ∧ same_line th (rect_center ra) (rect_center rc) = true)
            parts →
     P (a :: parts)) →
  ∀ rest groups skip final,
    merge_groups_loop items th rest groups skip = Some final →
    Forall P groups → Forall P final.
Proof.
  intros HP. induction rest as [|[i it] rest IH];
    intros groups skip final; simpl.
  - by intros [= <-].
  - destruct (decide (i ∈ skip)); [by apply IH|].
    destruct (box_to_rect (box it)) as [ri|] eqn:Er; [|done]. simpl.
    destruct (scan_partners _ _ _ _ _ _) as [[tm skip']|] eqn:Escan; [|done].
    simpl. intros H Hgroups. eapply IH; [done|].
    apply Forall_app. split; [done|]. constructor; [|done].
    destruct (scan_partners_same_line _ _ _ _ _ _ _ _ Escan)
      as (parts & -> & Hparts).
    by eapply HP.
Qed.

Lemma merge_groups_anchored items threshold gs :
  merge_groups items threshold = Some gs →
  Forall (λ g,
            ∃ a parts,
              g = a :: parts
              ∧ ∀ c, c ∈ parts →
                     ∃ ra rc,
                       rect_of a = Some ra ∧ rect_of c = Some rc
                       ∧ same_line threshold (rect_center ra)
                                   (rect_center rc) = true) gs.
Proof.
  unfold merge_groups. destruct (length items <=? 1)%nat.
  - intros [= <-]. apply Forall_fmap, Forall_forall. intros it _. simpl.
    exists it, []. split; [done|]. by intros c Hc%elem_of_nil.
  - intros H. eapply merge_groups_loop_anchored; [|exact H|constructor].
    intros a ra parts Ha Hparts. exists a, parts. split; [done|].
    intros c Hc. rewrite Forall_forall in Hparts.
    destruct (Hparts c Hc) as (rc & Hrc & Hsame). by exists ra, rc.
Qed.

(** X9: merging is anchored.  On regions with non-empty boxes, every
    group the function fuses is its first region, the anchor, followed by
    regions that each satisfy the merge predicate against the anchor's
    centre; two partners need not satisfy it against each other. *)
Theorem merge_groups_are_anchored (items : list item) (threshold : Q) :
  Forall (λ it, box it ≠ []) items →
  ∃ out gs,
    merge_nearby_boxes items threshold = Some out
    ∧ merge_groups items threshold = Some gs
    ∧ Forall2 emitted gs out
    ∧ Forall (λ g,
                ∃ a parts,
                  g = a :: parts
                  ∧ ∀ c, c ∈ parts →
                         ∃ ra rc,
                           rect_of a = Some ra ∧ rect_of c = Some rc
                           ∧ same_line threshold (rect_center ra)
                                       (rect_center rc) = true) gs.
Proof.
  intros Hitems.
  destruct (merge_nearby_boxes_emits items threshold Hitems)
    as (out & gs & Hout & Hgs & Hem & _).
  exists out, gs. repeat (split; [done|]). by eapply merge_groups_anchored.
Qed.

Lemma merge_groups_are_anchored_witness :
  Forall (λ it, box it ≠ []) [Scenario.hello; Scenario.world]
  ∧ ∃ out gs,
      merge_nearby_boxes [Scenario.hello; Scenario.world] 50 = Some out
      ∧ merge_groups [Scenario.hello; Scenario.world] 50 = Some gs
      ∧ Forall2 emitted gs out
      ∧ Forall (λ g,
                  ∃ a parts,
                    g = a :: parts
                    ∧ ∀ c, c ∈ parts →
                           ∃ ra rc,
                             rect_of a = Some ra ∧ rect_of c = Some rc
                             ∧ same_line 50 (rect_center ra)
                                         (rect_center rc) = true) gs.
Proof.
  assert (H : Forall (λ it, box it ≠ []) [Scenario.hello; Scenario.world])
    by (repeat constructor; discriminate).
  split; [exact H|].
  exact (merge_groups_are_anchored [Scenario.hello; Scenario.world] 50 H).
Defined.

Lemma omap_sublist {A B} (f : A → option B) l1 l2 :
  l1 `sublist_of` l2 → omap f l1 `sublist_of` omap f l2.
Proof.
  induction 1 as [|x l1 l2 Hs IH|x l1 l2 Hs IH]; simpl.
  - constructor.
  - destruct (f x); [by apply sublist_skip | done].
  - destruct (f x); [by apply sublist_cons | done].
Qed.

Lemma at_indices_omap items ig g :
  at_indices items ig g → g = omap (items !!.) ig.
Proof.
  induction 1 as [|j it ig g Hj Hrest IH]; simpl; [done|].
  by rewrite Hj, IH.
Qed.

Lemma merge_groups_loop_sublists items th :
  ∀ rest groups skip final,
    Forall (λ p : nat * item, items !! p.1 = Some p.2) rest →
    merge_groups_loop items th rest groups skip = Some final →
    Forall (λ g, g `sublist_of` items) groups →
    Forall (λ g, g `sublist_of` items) final.
Proof.
  induction rest as [|[i it] rest IH]; intros groups skip final Hrest; simpl.
  - by intros [= <-].
  - apply Forall_cons in Hrest as [Hi Hrest]. simpl in Hi.
    destruct (decide (i ∈ skip)); [by apply IH|].
    destruct (box_to_rect (box it)) as [ri|] eqn:Er; [|done]. simpl.
    destruct (scan_partners _ _ _ _ _ _) as [[tm skip']|] eqn:Escan; [|done].
    simpl. intros H Hgroups. eapply IH; [done|done|].
    apply Forall_app. split; [done|]. constructor; [|done].
    destruct (scan_partners_picks _ _ _ _ _ _ _ _ Escan)
      as (picked & parts & -> & Hparts & Hsub & _).
    assert (Hg : at_indices items (i :: picked) ([it] ++ parts))
      by (by constructor).
    rewrite (at_indices_omap _ _ _ Hg).
    pose proof (omap_lookup_seq items []) as Hseq. simpl in Hseq.
    enough (Hs : omap (items !!.) (i :: picked)
                 `sublist_of` omap (items !!.) (seq 0 (length items)))
      by (by rewrite Hseq in Hs).
    apply omap_sublist.
    apply lookup_lt_Some in Hi.
    replace (seq 0 (length items))
      with (seq 0 i ++ i :: seq (S i) (length items - S i)).
    + apply sublist_inserts_l. by apply sublist_skip.
    + change (i :: seq (S i) (length items - S i))
        with (seq i (S (length items - S i))).
      rewrite <- seq_app. f_equal. lia.
Qed.

Lemma merge_groups_sublists items threshold gs :
  merge_groups items threshold = Some gs →
  Forall (λ g, g `sublist_of` items) gs.
Proof.
  unfold merge_groups. destruct (length items <=? 1)%nat.
  - intros [= <-]. apply Forall_fmap, Forall_forall. intros it Hit. simpl.
    by apply singleton_sublist_l.
  - intros H. eapply merge_groups_loop_sublists; [|exact H|constructor].
    apply enumerate_lookup.
Qed.

(** X10: on regions with non-empty boxes, every group the function fuses
    lists its regions in the order they have in the input, so that the
    text of a merged region joins the texts in input order. *)
Theorem merge_groups_keep_input_order (items : list item) (threshold : Q) :
  Forall (λ it, box it ≠ []) items →
  ∃ out gs,
    merge_nearby_boxes items threshold = Some out
    ∧ merge_groups items threshold = Some gs
    ∧ Forall2 emitted gs out
    ∧ Forall (λ g, g `sublist_of` items) gs.
Proof.
  intros Hitems.
  destruct (merge_nearby_boxes_emits items threshold Hitems)
    as (out & gs & Hout & Hgs & Hem & _).
  exists out, gs. repeat (split; [done|]). by eapply merge_groups_sublists.
Qed.

Lemma merge_groups_keep_input_order_witness :
  Forall (λ it, box it ≠ []) [Scenario.hello; Scenario.world]
  ∧ ∃ out gs,
      merge_nearby_boxes [Scenario.hello; Scenario.world] 50 = Some out
      ∧ merge_groups [Scenario.hello; Scenario.world] 50 = Some gs
      ∧ Forall2 emitted gs out
      ∧ Forall (λ g, g `sublist_of` [Scenario.hello; Scenario.world]) gs.
Proof.
  assert (H : Forall (λ it, box it ≠ []) [Scenario.hello; Scenario.world])
    by (repeat constructor; discriminate).
  split; [exact H|].
  exact (merge_groups_keep_input_order [Scenario.hello; Scenario.world] 50 H).
Defined.

(** ** Further properties of the language normaliser *)

Lemma lower_char_idem c :
  Latin1.lower_char (Latin1.lower_char c) = Latin1.lower_char c.
Proof. destruct c as [[] [] [] [] [] [] [] []]; reflexivity. Qed.

Lemma isspace_lower_char c :
  Latin1.isspace (Latin1.lower_char c) = Latin1.isspace c.
Proof. destruct c as [[] [] [] [] [] [] [] []]; reflexivity. Qed.

Lemma lower_idem s : Latin1.lower (Latin1.lower s) = Latin1.lower s.
Proof.
  induction s as [|c s IH]; simpl; [done|]. by rewrite lower_char_idem, IH.
Qed.

Lemma lower_lstrip s :
  Latin1.lower (Latin1.lstrip s) = Latin1.lstrip (Latin1.lower s).
Proof.
  induction s as [|c s IH]; simpl; [done|]. rewrite isspace_lower_char.
  by destruct (Latin1.isspace c).
Qed.

Lemma lower_rstrip s :
  Latin1.lower (Latin1.rstrip s) = Latin1.rstrip (Latin1.lower s).
Proof.
  induction s as [|c s IH]; simpl; [done|]. rewrite <- IH.
  rewrite isspace_lower_char.
  destruct (Latin1.rstrip s) as [|c' r']; simpl; [|done].
  by destruct (Latin1.isspace c).
Qed.

Lemma lower_strip s :
  Latin1.lower (Latin1.strip s) = Latin1.strip (Latin1.lower s).
Proof. unfold Latin1.strip. by rewrite lower_rstrip, lower_lstrip. Qed.

Lemma rstrip_cons c r :
  Latin1.rstrip (String c r)
  = match Latin1.rstrip r with
    | EmptyString =>
        if Latin1.isspace c then EmptyString else String c EmptyString
    | r' => String c r'
    end.
Proof. reflexivity. Qed.

Lemma rstrip_idem s : Latin1.rstrip (Latin1.rstrip s) = Latin1.rstrip s.
Proof.
  induction s as [|c s IH]; [done|]. rewrite rstrip_cons.
  destruct (Latin1.rstrip s) as [|c' r'] eqn:E.
  - destruct (Latin1.isspace c) eqn:Ec; [done|].
    rewrite rstrip_cons. simpl. by rewrite Ec.
  - rewrite rstrip_cons, IH. done.
Qed.

Lemma lstrip_head s :
  match Latin1.lstrip s with
  | EmptyString => True
  | String c _ => Latin1.isspace c = false
  end.
Proof.
  induction s as [|c s IH]; simpl; [done|].
  destruct (Latin1.isspace c) eqn:E; [done|]. simpl. done.
Qed.

Lemma lstrip_rstrip_fixed s :
  match s with
  | EmptyString => True
  | String c _ => Latin1.isspace c = false
  end →
  Latin1.lstrip (Latin1.rstrip s) = Latin1.rstrip s.
Proof.
  destruct s as [|c s]; [done|]. intros Hc. rewrite rstrip_cons.
  destruct (Latin1.rstrip s); rewrite ?Hc; simpl; by rewrite Hc.
Qed.

Lemma strip_idem s : Latin1.strip (Latin1.strip s) = Latin1.strip s.
Proof.
  unfold Latin1.strip.
  rewrite (lstrip_rstrip_fixed (Latin1.lstrip s)) by apply lstrip_head.
  apply rstrip_idem.
Qed.

Lemma normalized_primary_fixed primary :
  Latin1.truthy (normalized_primary primary) = true →
  normalized_primary (Some (normalized_primary primary))
  = normalized_primary primary.
Proof.
  intros Ht. unfold normalized_primary at 1. rewrite Ht.
  unfold normalized_primary.
  by rewrite lower_strip, lower_idem, <- lower_strip, strip_idem.
Qed.

(** X11: the pairing rule of the normaliser.  The result is one tag, or
    one tag followed by ["en"]; in the second case the tag is a Chinese
    variant, ["ja"], ["ko"], ["ar"] or a Latin tag other than English; and
    a Chinese tag never comes out as anything but ["ch_sim"; "en"] or
    ["ch_tra"; "en"], so that no two non-English scripts share a
    reader. *)
Theorem safe_easyocr_lang_list_pairs (primary : option string) :
  let p := normalized_primary primary in
  (∃ t, safe_easyocr_lang_list primary = [t]
        ∨ (safe_easyocr_lang_list primary = [t; "en"]
           ∧ In t (["ch_sim"; "ch_tra"; "ja"; "ko"; "ar"] ++ latin_tags)))
  ∧ (In p chinese_tags →
     safe_easyocr_lang_list primary = ["ch_sim"; "en"]
     ∨ safe_easyocr_lang_list primary = ["ch_tra"; "en"]).
Proof.
  intros p. unfold safe_easyocr_lang_list. fold p. split.
  - destruct (Latin1.mem p chinese_tags) eqn:E1.
    { destruct (_ || _);
        [exists "ch_sim" | exists "ch_tra"]; right; split; try done;
        simpl; tauto. }
    destruct (Latin1.mem p ["ja"; "ko"]) eqn:E2.
    { exists p. right. split; [done|]. apply mem_In in E2. simpl in *. tauto. }
    destruct (String.eqb p "ar") eqn:E3.
    { exists "ar". right. split; [done|]. simpl. tauto. }
    destruct (Latin1.mem p latin_tags) eqn:E4.
    { exists p. right. split; [done|]. apply mem_In in E4.
      apply in_or_app. by right. }
    eexists. by left.
  - intros Hin. apply mem_In in Hin. rewrite Hin.
    destruct (_ || _); tauto.
Qed.

Lemma safe_easyocr_lang_list_head (primary : option string) t rest :
  safe_easyocr_lang_list primary = t :: rest →
  safe_easyocr_lang_list (Some t) = t :: rest.
Proof.
  unfold safe_easyocr_lang_list at 1.
  set (p := normalized_primary primary).
  destruct (Latin1.mem p chinese_tags) eqn:E1.
  { destruct (_ || _); intros [= <- <-]; reflexivity. }
  destruct (Latin1.mem p ["ja"; "ko"]) eqn:E2.
  { intros [= <- <-]. apply mem_In in E2. simpl in E2.
    destruct E2 as [<-|[<-|[]]]; reflexivity. }
  destruct (String.eqb p "ar") eqn:E3.
  { intros [= <- <-]. reflexivity. }
  destruct (Latin1.mem p latin_tags) eqn:E4.
  { intros [= <- <-]. apply mem_In in E4. simpl in E4.
    repeat (destruct E4 as [<-|E4]; [reflexivity|]). done. }
  destruct (Latin1.truthy p) eqn:Ht; intros [= <- <-]; [|reflexivity].
  subst p. unfold safe_easyocr_lang_list.
  rewrite (normalized_primary_fixed primary Ht).
  by rewrite E1, E2, E3, E4, Ht.
Qed.

(** X12: the normaliser is stable.  Given the first tag of one of its
    results it returns that same result again. *)
Theorem safe_easyocr_lang_list_stable (primary : option string) :
  safe_easyocr_lang_list (head (safe_easyocr_lang_list primary))
  = safe_easyocr_lang_list primary.
Proof.
  destruct (safe_easyocr_lang_list primary) as [|t rest] eqn:E.
  - exfalso. revert E. unfold safe_easyocr_lang_list.
    repeat (destruct (_ : bool); try done).
  - simpl. by eapply safe_easyocr_lang_list_head.
Qed.

Lemma safe_easyocr_lang_list_pairs_witness :
  In (normalized_primary (Some " ZH_TRA ")) chinese_tags
  ∧ (safe_easyocr_lang_list (Some " ZH_TRA ") = ["ch_sim"; "en"]
     ∨ safe_easyocr_lang_list (Some " ZH_TRA ") = ["ch_tra"; "en"]).
Proof.
  assert (H : In (normalized_primary (Some " ZH_TRA ")) chinese_tags)
    by (vm_compute; tauto).
  split; [exact H|].
  exact (proj2 (safe_easyocr_lang_list_pairs (Some " ZH_TRA ")) H).
Defined.

(** ** Further properties of the auto language prober *)

(** The product of the count and the rounded mean need not give the sum
    back: forty-seven confidences that add up to 6 score less than 6. *)
Example score_rounds_below_six :
  (Qsum (map snd (clean Cases.near_six)) == 6)%Q
  ∧ score Cases.near_six = (6755399441055743 # 1125899906842624)%Q
  ∧ Qle_bool 6 (score Cases.near_six) = false.
Proof. split; [|split]; vm_compute; reflexivity. Qed.

(** What the probe can hold as its best result: the default, or the
    detections of a candidate, whose score is positive. *)
Lemma probe_provenance (ocr : ocr_oracle) (todo : list string) :
  ∀ calls best,
    (∀ p, p ∈ todo → p ∈ candidates) →
    ((best = Best "en" [] 0)
     ∨ (best_lang best ∈ candidates
        ∧ (0 < best_score best)%Q
        ∧ best_score best = score (best_raw best)
        ∧ ∃ n, ocr n (safe_easyocr_lang_list (Some (best_lang best)))
               = Some (best_raw best))) →
    let r := probe ocr calls todo best in
    (r = Best "en" [] 0)
    ∨ (best_lang r ∈ candidates
       ∧ (0 < best_score r)%Q
       ∧ best_score r = score (best_raw r)
       ∧ ∃ n, ocr n (safe_easyocr_lang_list (Some (best_lang r)))
              = Some (best_raw r)).
Proof.
  induction todo as [|primary todo IH]; intros calls best Hsub Hbest; simpl.
  - done.
  - assert (Hsub' : ∀ p, p ∈ todo → p ∈ candidates).
    { intros p Hp. apply Hsub. by right. }
    destruct (ocr calls (safe_easyocr_lang_list (Some primary)))
      as [raw|] eqn:Eocr; [|by apply IH].
    assert (Hnew :
      let best' := if Qltb (best_score best) (score raw)
                   then Best primary raw (score raw) else best in
      (best' = Best "en" [] 0)
      ∨ (best_lang best' ∈ candidates
         ∧ (0 < best_score best')%Q
         ∧ best_score best' = score (best_raw best')
         ∧ ∃ n, ocr n (safe_easyocr_lang_list (Some (best_lang best')))
                = Some (best_raw best'))).
    { simpl. destruct (Qltb (best_score best) (score raw)) eqn:E; [|done].
      right. simpl. split; [apply Hsub; left|]. split.
      - apply Qltb_lt in E. eapply Qle_lt_trans; [|exact E].
        destruct Hbest as [->|(_ & Hpos & _)]; simpl; [apply Qle_refl|].
        by apply Qlt_le_weak.
      - split; [done|]. by exists calls. }
    simpl in Hnew.
    destruct (Qle_bool 6 _ && _); [exact Hnew|]. by apply IH.
Qed.

(** X14: what [run_ocr_auto] returns.  The language is one of the seven
    candidates; either it is the default ["en"] with no detection, or the
    detections are what the engine read with the configuration of that
    language, and their score is positive. *)
Theorem run_ocr_auto_provenance (ocr : ocr_oracle) :
  let '(lang, raw) := run_ocr_auto ocr in
  lang ∈ candidates
  ∧ ((lang = "en" ∧ raw = [])
     ∨ ((0 < score raw)%Q
        ∧ ∃ n, ocr n (safe_easyocr_lang_list (Some lang)) = Some raw)).
Proof.
  unfold run_ocr_auto.
  destruct (probe_provenance ocr candidates 0 (Best "en" [] 0))
    as [->|(Hin & Hpos & Hscore & Hocr)]; [done|by left| |].
  - simpl. split; [|by left]. unfold candidates. set_solver.
  - split; [done|]. right. rewrite <- Hscore. done.
Qed.

Lemma probe_skips_raising (ocr : ocr_oracle) pre :
  ∀ calls todo best,
    (∀ n p, p ∈ pre → ocr n (safe_easyocr_lang_list (Some p)) = None) →
    probe ocr calls (pre ++ todo) best
    = probe ocr (calls + length pre) todo best.
Proof.
  induction pre as [|p pre IH]; intros calls todo best Hfail; simpl.
  - by rewrite Nat.add_0_r.
  - rewrite Hfail by left. rewrite IH.
    + f_equal. lia.
    + intros n q Hq. apply Hfail. by right.
Qed.

(** X15: the early exit.  If the engine raises on the candidates before
    [primary] and then reads, with the configuration of [primary], at
    least eight non-blank detections whose score, computed in floats as
    the code computes it, is 6 or more, [run_ocr_auto] returns that
    language and reading, whatever the later candidates would give. *)
Theorem run_ocr_auto_early_exit
    (ocr : ocr_oracle) (pre post : list string) (primary : string)
    (raw : list detection) :
  candidates = pre ++ primary :: post →
  (∀ n p, p ∈ pre → ocr n (safe_easyocr_lang_list (Some p)) = None) →
  ocr (length pre) (safe_easyocr_lang_list (Some primary)) = Some raw →
  (6 <= score raw)%Q → (8 <= length (clean raw))%nat →
  run_ocr_auto ocr = (primary, raw).
Proof.
  intros Hcand Hfail Hocr Hscore Hcount. unfold run_ocr_auto.
  rewrite Hcand, (probe_skips_raising ocr pre) by done.
  simpl. rewrite Hocr.
  assert (Hlt : Qltb 0 (score raw) = true).
  { apply Qltb_lt. eapply Qlt_le_trans; [|exact Hscore]. reflexivity. }
  rewrite Hlt. simpl.
  apply Qle_bool_iff in Hscore. rewrite Hscore.
  apply Nat.leb_le in Hcount. simpl in Hcount. by rewrite Hcount.
Qed.

Lemma run_ocr_auto_early_exit_witness :
  candidates = ["ja"] ++ "ch_sim" :: ["ko"; "en"; "ar"; "fr"; "ch_tra"]
  ∧ run_ocr_auto Cases.chinese_page = ("ch_sim", Cases.eight_lines).
Proof.
  assert (H1 : candidates
               = ["ja"] ++ "ch_sim" :: ["ko"; "en"; "ar"; "fr"; "ch_tra"])
    by reflexivity.
  assert (H2 : ∀ n p, p ∈ ["ja"] →
                 Cases.chinese_page n (safe_easyocr_lang_list (Some p)) = None).
  { intros n p Hp. apply list_elem_of_singleton in Hp. by subst p. }
  assert (H3 : Cases.chinese_page (length ["ja"])
                 (safe_easyocr_lang_list (Some "ch_sim"))
               = Some Cases.eight_lines) by reflexivity.
  assert (H4 : (6 <= score Cases.eight_lines)%Q) by (vm_compute; discriminate).
  assert (H5 : (8 <= length (clean Cases.eight_lines))%nat)
    by (vm_compute; lia).
  split; [exact H1|].
  exact (run_ocr_auto_early_exit Cases.chinese_page ["ja"]
           ["ko"; "en"; "ar"; "fr"; "ch_tra"] "ch_sim" Cases.eight_lines
           H1 H2 H3 H4 H5).
Defined.

(** A reading whose confidences add up to 6 scores less in floats: the
    probe does not stop at it, and a later candidate wins. *)
Example no_early_exit_below_six :
  run_ocr_auto Cases.two_readings = ("ch_sim", Cases.eight_lines).
Proof. vm_compute. reflexivity. Qed.

(** ** Language detection *)

Lemma has_range_app s1 s2 lo hi :
  has_range (s1 ++ s2) lo hi = has_range s1 lo hi || has_range s2 lo hi.
Proof. apply existsb_app. Qed.

Lemma has_range_join sep parts lo hi :
  has_range sep lo hi = false →
  has_range (Ustr.join sep parts) lo hi
  = existsb (λ t, has_range t lo hi) parts.
Proof.
  intros Hsep. induction parts as [|s parts IH]; [done|].
  destruct parts as [|s' parts].
  - simpl. by rewrite orb_false_r.
  - change (Ustr.join sep (s :: s' :: parts))
      with (s ++ sep ++ Ustr.join sep (s' :: parts)).
    rewrite !has_range_app, Hsep, IH. done.
Qed.

Lemma has_range_lstrip_by drop s lo hi :
  (∀ ch, (lo <= ch <= hi)%N → drop ch = false) →
  has_range (Ustr.lstrip_by drop s) lo hi = has_range s lo hi.
Proof.
  intros Hkeep. induction s as [|c s IH]; [done|]. simpl.
  destruct (drop c) eqn:E; [|done]. rewrite IH.
  destruct ((lo <=? c)%N && (c <=? hi)%N) eqn:Ein; [|done].
  apply andb_prop in Ein as [H1%N.leb_le H2%N.leb_le].
  rewrite Hkeep in E; [done|lia].
Qed.

Lemma rstrip_by_cons drop c r :
  Ustr.rstrip_by drop (c :: r)
  = match Ustr.rstrip_by drop r with
    | [] => if drop c then [] else [c]
    | r' => c :: r'
    end.
Proof. reflexivity. Qed.

Lemma has_range_rstrip_by drop s lo hi :
  (∀ ch, (lo <= ch <= hi)%N → drop ch = false) →
  has_range (Ustr.rstrip_by drop s) lo hi = has_range s lo hi.
Proof.
  intros Hkeep. induction s as [|c s IH]; [done|]. rewrite rstrip_by_cons.
  cbn [has_range existsb]. fold (has_range s lo hi). rewrite <- IH.
  destruct (Ustr.rstrip_by drop s) as [|c' r']; [|done].
  simpl. rewrite orb_false_r.
  destruct (drop c) eqn:E; simpl; [|by rewrite orb_false_r].
  destruct ((lo <=? c)%N && (c <=? hi)%N) eqn:Ein; [|done].
  apply andb_prop in Ein as [H1%N.leb_le H2%N.leb_le].
  rewrite Hkeep in E; [done|lia].
Qed.

(** Stripping and joining with spaces do not change which of the ranges
    above U+00C0 without whitespace occur. *)
Lemma has_range_strip_join parts lo hi :
  (∀ ch, (lo <= ch <= hi)%N → Ustr.isspace ch = false) →
  has_range (Ustr.strip (Ustr.join (Ustr.lit " ") parts)) lo hi
  = existsb (λ t, has_range t lo hi) parts.
Proof.
  intros Hkeep. unfold Ustr.strip.
  rewrite has_range_rstrip_by, has_range_lstrip_by by done.
  apply has_range_join. simpl. rewrite orb_false_r.
  destruct ((lo <=? 32)%N && (32 <=? hi)%N) eqn:E; [|done].
  apply andb_prop in E as [H1%N.leb_le H2%N.leb_le].
  specialize (Hkeep 32%N ltac:(lia)). by vm_compute in Hkeep.
Qed.

Lemma existsb_map {A B} (f : A → B) (p : B → bool) l :
  existsb p (map f l) = existsb (λ x, p (f x)) l.
Proof. induction l as [|x l IH]; [done|]. simpl. by rewrite IH. Qed.

Lemma no_space_from_192 lo hi :
  (192 <= lo)%N →
  (hi < 5760 ∨ 12288 < lo)%N →
  ∀ ch, (lo <= ch <= hi)%N → Ustr.isspace ch = false.
Proof.
  intros Hlo Hhi ch Hch. unfold Ustr.isspace.
  repeat (apply orb_false_intro); try (apply N.eqb_neq; lia);
    try (apply andb_false_iff; rewrite !N.leb_gt; lia).
Qed.

(** X16: [detect_batch_language] depends only on which of its seven
    Unicode ranges occur in the texts of the items.  The join with spaces
    and the strip play no part, since no range holds a space; and the
    ranges are tried in a fixed order, Arabic first, so that a single
    Arabic letter outweighs any amount of other text. *)
Theorem detect_batch_language_by_ranges (items : list item) :
  detect_batch_language items =
    if mentions items 0x0600 0x06FF || mentions items 0x0750 0x077F then "ar"
    else if mentions items 0x3040 0x309F || mentions items 0x30A0 0x30FF
    then "ja"
    else if mentions items 0xAC00 0xD7AF then "ko"
    else if mentions items 0x4E00 0x9FFF then "ch_sim"
    else if mentions items 0x00C0 0x00FF then "fr"
    else "en".
Proof.
  unfold detect_batch_language, mentions.
  set (parts := map text items).
  assert (Hr : ∀ lo hi, (192 <= lo)%N → (hi < 5760 ∨ 12288 < lo)%N →
    has_range (Ustr.strip (Ustr.join (Ustr.lit " ") parts)) lo hi
    = existsb (λ it, has_range (text it) lo hi) items).
  { intros lo hi H1 H2. rewrite has_range_strip_join
      by (by apply no_space_from_192).
    subst parts. by rewrite existsb_map. }
  rewrite <- !Hr by lia.
  destruct (Ustr.strip (Ustr.join (Ustr.lit " ") parts)); done.
Qed.

(** ** Effects of the translation functions *)

Lemma min2_le_l a b : (min2 a b <= a)%Q.
Proof.
  unfold min2. destruct (Qltb b a) eqn:E.
  - apply Qltb_lt in E. by apply Qlt_le_weak.
  - apply Qle_refl.
Qed.

Lemma chat_calls_app h1 h2 :
  chat_calls (h1 ++ h2) = chat_calls h1 ++ chat_calls h2.
Proof. apply omap_app. Qed.

Lemma sleeps_app h1 h2 : sleeps (h1 ++ h2) = sleeps h1 ++ sleeps h2.
Proof. apply omap_app. Qed.

Lemma libre_calls_app h1 h2 :
  libre_calls (h1 ++ h2) = libre_calls h1 ++ libre_calls h2.
Proof. apply omap_app. Qed.

Section Effects.
Variable e : env.

(** What one run of the retry loop adds to the history. *)
Lemma attempts_trace req texts max_retries todo :
  ∀ last_err h, ∃ evs n,
    (attempts e req texts max_retries todo last_err h).2 = h ++ evs
    ∧ n ≤ length todo
    ∧ chat_calls evs = replicate n req
    ∧ libre_calls evs = []
    ∧ Forall (λ s, (s <= 45)%Q) (sleeps evs)
    ∧ length (sleeps evs) ≤ n.
Proof.
  induction todo as [|attempt todo IH]; intros last_err h.
  { exists [], 0. simpl. rewrite app_nil_r. by repeat split. }
  assert (Hstep : ∀ s err, (s <= 45)%Q → ∃ evs n,
    (attempts e req texts max_retries todo err
       (h ++ [ChatCall req] ++ [Sleep s])).2 = h ++ evs
    ∧ n ≤ length (attempt :: todo)
    ∧ chat_calls evs = replicate n req
    ∧ libre_calls evs = []
    ∧ Forall (λ s, (s <= 45)%Q) (sleeps evs)
    ∧ length (sleeps evs) ≤ n).
  { intros s err Hs.
    destruct (IH err (h ++ [ChatCall req] ++ [Sleep s]))
      as (evs & n & -> & Hn & Hc & Hl & Hs' & Hlen).
    exists ([ChatCall req] ++ [Sleep s] ++ evs), (S n).
    rewrite <- !app_assoc. split; [done|]. split; [simpl; lia|].
    simpl. fold (chat_calls evs) (libre_calls evs) (sleeps evs).
    rewrite Hc, Hl. repeat split; [by constructor|lia]. }
  assert (Hstop : ∃ evs n,
    h ++ [ChatCall req] = h ++ evs
    ∧ n ≤ length (attempt :: todo)
    ∧ chat_calls evs = replicate n req
    ∧ libre_calls evs = []
    ∧ Forall (λ s, (s <= 45)%Q) (sleeps evs)
    ∧ length (sleeps evs) ≤ n).
  { exists [ChatCall req], 1. simpl. repeat split; [lia|constructor|lia]. }
  assert (Hh : (handler_sleep attempt <= 45)%Q).
  { eapply Qle_trans; [apply min2_le_l|]. by vm_compute. }
  cbn [attempts]. unfold bind, post, sleep, rate_limit_sleep, ret.
  destruct (chat_post e h req) as [err|r].
  { rewrite <- app_assoc. by apply Hstep. }
  destruct (status_code r =? 429)%Z.
  - destruct (quota_exhausted r); [done|].
    destruct (match retry_after r with Some _ => _ | None => _ end)
      as [s|]; cbn [fmap option_fmap option_map].
    + rewrite <- app_assoc. apply Hstep, min2_le_l.
    + rewrite <- app_assoc. by apply Hstep.
  - destruct (negb (status_ok (status_code r))); [done|].
    destruct (parse_translations e texts r); [|done].
    rewrite <- app_assoc. by apply Hstep.
Qed.

Lemma translate_openai_batch_events texts src tgt api_key model max_retries h :
  ∃ evs n,
    (translate_openai_batch e texts src tgt api_key model max_retries h).2
    = h ++ evs
    ∧ n ≤ max_retries
    ∧ chat_calls evs
      = replicate n
          (ChatRequest api_key model (lang_map src) (lang_map tgt) texts)
    ∧ libre_calls evs = []
    ∧ Forall (λ s, (s <= 45)%Q) (sleeps evs)
    ∧ length (sleeps evs) ≤ n.
Proof.
  unfold translate_openai_batch.
  destruct (negb (Latin1.truthy api_key)).
  { exists [], 0. simpl. rewrite app_nil_r. repeat split; first [lia | done]. }
  unfold bind.
  destruct (attempts_trace
              (ChatRequest api_key model (lang_map src) (lang_map tgt) texts)
              texts max_retries (seq 0 max_retries) None h)
    as (evs & n & Hh & Hn & Hrest).
  rewrite length_seq in Hn.
  destruct (attempts e _ texts max_retries (seq 0 max_retries) None h)
    as [[l|err] h']; simpl in *; subst h'; by exists evs, n.
Qed.

(** The responses the loop does not retry. *)
Lemma attempts_fatal req texts max_retries attempt todo last_err h r :
  chat_post e h req = inr r →
  (status_code r = 429%Z ∧ quota_exhausted r = true)
  ∨ (status_code r ≠ 429%Z ∧ status_ok (status_code r) = false) →
  attempts e req texts max_retries (attempt :: todo) last_err h
  = (inr (Some (if (status_code r =? 429)%Z
                then Ustr.lit "insufficient_quota"
                else Ustr.lit "OpenAI error " ++ Ustr.dec (status_code r)
                     ++ Ustr.lit ": " ++ take 200 (body_text r))),
     h ++ [ChatCall req]).
Proof.
  intros Hpost Hcase. cbn [attempts]. unfold bind, post, ret. rewrite Hpost.
  destruct Hcase as [[-> ->]|[Hne Hok]]; [done|].
  apply Z.eqb_neq in Hne. by rewrite Hne, Hok.
Qed.

(** A successful run ends with the request whose response it decodes. *)
Lemma attempts_success req texts max_retries todo :
  ∀ last_err h out h',
    attempts e req texts max_retries todo last_err h = (inl out, h') →
    ∃ h0 r, h' = h0 ++ [ChatCall req]
            ∧ chat_post e h0 req = inr r
            ∧ status_code r ≠ 429%Z
            ∧ status_ok (status_code r) = true
            ∧ parse_translations e texts r = inr out.
Proof.
  induction todo as [|attempt todo IH]; intros last_err h out h'; [done|].
  cbn [attempts]. unfold bind, post, sleep, rate_limit_sleep, ret.
  destruct (chat_post e h req) as [err|r] eqn:Hpost; [by apply IH|].
  destruct (status_code r =? 429)%Z eqn:E429.
  - destruct (quota_exhausted r); [done|].
    destruct (min2 45 <$> _) as [s|]; by apply IH.
  - destruct (status_ok (status_code r)) eqn:Hok; [|done]. cbn [negb].
    destruct (parse_translations e texts r) as [err|l] eqn:Hparse;
      [by apply IH|].
    intros [= <- <-]. exists h, r. by apply Z.eqb_neq in E429.
Qed.

Lemma failure_tag_prefix last_err :
  Ustr.startswith (failure_tag last_err) (Ustr.lit "[OpenAI failed") = true.
Proof. by destruct last_err as [[|c err]|]. Qed.

End Effects.

(** X17: the effects of [translate_openai_batch] are bounded.  Whatever
    the services answer, it makes at most [max_retries] requests, all with
    the same payload, sleeps at most once per request and never more than
    45 seconds at a time, and never calls the fallback service. *)
Theorem translate_openai_batch_retries
    (e : env) (texts : list ustr) (src tgt api_key model : string)
    (max_retries : nat) (h : history) :
  ∃ evs,
    (translate_openai_batch e texts src tgt api_key model max_retries h).2
    = h ++ evs
    ∧ retry_trace
        (ChatRequest api_key model (lang_map src) (lang_map tgt) texts)
        max_retries evs.
Proof.
  destruct (translate_openai_batch_events e texts src tgt api_key model
              max_retries h) as (evs & n & Hh & Hrest).
  exists evs. split; [done|]. by exists n.
Qed.

(** X18: responses that are not retried.  When the first response is a
    429 that names an exhausted quota, or an error status other than 429,
    [translate_openai_batch] makes that one request, does not sleep, and
    returns every text behind a tag that states the reason. *)
Theorem translate_openai_batch_fatal
    (e : env) (texts : list ustr) (src tgt api_key model : string)
    (max_retries : nat) (h : history) (r : chat_response) :
  Latin1.truthy api_key = true →
  0 < max_retries →
  let req := ChatRequest api_key model (lang_map src) (lang_map tgt) texts in
  chat_post e h req = inr r →
  (status_code r = 429%Z ∧ quota_exhausted r = true)
  ∨ (status_code r ≠ 429%Z ∧ status_ok (status_code r) = false) →
  let reason :=
    if (status_code r =? 429)%Z then Ustr.lit "insufficient_quota"
    else Ustr.lit "OpenAI error " ++ Ustr.dec (status_code r)
         ++ Ustr.lit ": " ++ take 200 (body_text r) in
  translate_openai_batch e texts src tgt api_key model max_retries h
  = (map (λ t, Ustr.lit "[OpenAI failed: " ++ reason ++ Ustr.lit "] " ++ t)
         texts,
     h ++ [ChatCall req]).
Proof.
  intros Hkey Hpos req Hpost Hcase reason.
  unfold translate_openai_batch. rewrite Hkey. cbn [negb]. unfold bind.
  destruct max_retries as [|n]; [lia|]. fold req.
  change (seq 0 (S n)) with (0 :: seq 1 n).
  rewrite (attempts_fatal _ _ _ _ _ _ _ _ _ Hpost Hcase). fold reason.
  unfold ret. f_equal. apply map_ext. intros t.
  assert (Hne : ∃ c r', reason = c :: r').
  { subst reason. destruct (status_code r =? 429)%Z; by eexists _, _. }
  destruct Hne as (c & r' & ->). unfold failure_tag.
  by rewrite <- !app_assoc.
Qed.

Lemma translate_openai_batch_fatal_witness :
  Latin1.truthy "key" = true
  ∧ 0 < 5
  ∧ translate_openai_batch Scenario.outage [Ustr.lit "hello"] "ja" "en" "key"
      "gpt-4o-mini" 5 []
    = ([Ustr.lit "[OpenAI failed: OpenAI error 500: boom] hello"],
       [ChatCall Scenario.request]).
Proof.
  assert (H1 : Latin1.truthy "key" = true) by reflexivity.
  assert (H2 : 0 < 5) by lia.
  split; [exact H1|]. split; [exact H2|].
  refine (translate_openai_batch_fatal Scenario.outage [Ustr.lit "hello"]
            "ja" "en" "key" "gpt-4o-mini" 5 []
            (ChatResponse 500 None false (Ustr.lit "boom") (inr []))
            H1 H2 _ _).
  - reflexivity.
  - right. split; [discriminate|reflexivity].
Defined.

(** X19: the two outcomes of [translate_openai_batch] with a key.  Either
    the output is the decoded content of a response with a successful
    status, and the request that got it is the last event; or every text
    comes back behind a tag that starts with [[OpenAI failed], which is
    what [translate_batch] looks for to fall back. *)
Theorem translate_openai_batch_outcome
    (e : env) (texts : list ustr) (src tgt api_key model : string)
    (max_retries : nat) (h : history) :
  Latin1.truthy api_key = true →
  let req := ChatRequest api_key model (lang_map src) (lang_map tgt) texts in
  let '(out, h') :=
    translate_openai_batch e texts src tgt api_key model max_retries h in
  (∃ h0 r, h' = h0 ++ [ChatCall req]
           ∧ chat_post e h0 req = inr r
           ∧ status_code r ≠ 429%Z
           ∧ status_ok (status_code r) = true
           ∧ parse_translations e texts r = inr out)
  ∨ (∃ tag, Ustr.startswith tag (Ustr.lit "[OpenAI failed") = true
            ∧ out = map (λ t, tag ++ Ustr.lit " " ++ t) texts).
Proof.
  intros Hkey req. unfold translate_openai_batch. rewrite Hkey. cbn [negb].
  unfold bind. fold req.
  destruct (attempts e req texts max_retries (seq 0 max_retries) None h)
    as [[l|err] h'] eqn:E; unfold ret.
  - left. by eapply attempts_success.
  - right. eexists. split; [apply failure_tag_prefix|done].
Qed.

Lemma translate_openai_batch_outcome_witness :
  Latin1.truthy "key" = true
  ∧ let req := Scenario.request in
    let '(out, h') :=
      translate_openai_batch Scenario.outage [Ustr.lit "hello"] "ja" "en"
        "key" "gpt-4o-mini" 5 [] in
    (∃ h0 r, h' = h0 ++ [ChatCall req]
             ∧ chat_post Scenario.outage h0 req = inr r
             ∧ status_code r ≠ 429%Z
             ∧ status_ok (status_code r) = true
             ∧ parse_translations Scenario.outage [Ustr.lit "hello"] r
               = inr out)
    ∨ (∃ tag, Ustr.startswith tag (Ustr.lit "[OpenAI failed") = true
              ∧ out = map (λ t, tag ++ Ustr.lit " " ++ t)
                          [Ustr.lit "hello"]).
Proof.
  assert (H1 : Latin1.truthy "key" = true) by reflexivity.
  split; [exact H1|].
  exact (translate_openai_batch_outcome Scenario.outage [Ustr.lit "hello"]
           "ja" "en" "key" "gpt-4o-mini" 5 [] H1).
Defined.




(** The delay is a float, and so is what the message shows of it: with
    [random()] at 0.1 the backoff of the first attempt is just below 1.15
    and reads "1.1". *)
Example backoff_message_in_floats :
  translate_openai_batch Cases.throttled_jitter [Ustr.lit "hello"] "ja" "en"
    "key" "gpt-4o-mini" 1 []
  = ([Ustr.lit "[OpenAI failed: 429 rate limit (attempt 1/1), waiting 1.1s]"
      ++ Ustr.lit " hello"],
     [ChatCall Scenario.request;
      Sleep (2589569785738035 # 2251799813685248)]).
Proof. vm_compute. reflexivity. Qed.

(** ** Batching *)

(** The chunks [texts[i : i + k]] at the offsets of [range] cover the
    texts. *)
Lemma chunks_cover {A} (k : nat) :
  0 < k →
  ∀ m (l : list A), length l ≤ m * k →
    concat (map (λ i, take k (drop i l)) (map (λ n, n * k) (seq 0 m))) = l.
Proof.
  intros Hk. induction m as [|m IH]; intros l Hlen.
  - destruct l; [done|simpl in Hlen; lia].
  - change (seq 0 (S m)) with (0 :: seq 1 m). rewrite <- fmap_S_seq.
    cbn [map concat]. rewrite drop_0.
    change (@fmap list _ _ _ S (seq 0 m)) with (map S (seq 0 m)).
    rewrite !map_map.
    rewrite (map_ext _ (λ n, take k (drop (n * k) (drop k l)))).
    + rewrite <- (map_map (λ n, n * k) (λ i, take k (drop i (drop k l)))).
      rewrite IH by (rewrite length_drop; lia). apply take_drop.
    + intros n. by rewrite drop_drop.
Qed.

Lemma chunk_count_covers n k : 0 < k → n ≤ chunk_count n k * k.
Proof.
  intros Hk. unfold chunk_count.
  pose proof (Nat.div_mod_eq (n + k - 1) k) as Hd.
  pose proof (Nat.mod_upper_bound (n + k - 1) k ltac:(lia)) as Hm.
  nia.
Qed.

Lemma py_range_positive stop step :
  (0 < step)%Z →
  py_range stop step
  = Some (map (λ n, n * Z.to_nat step)
              (seq 0 (chunk_count stop (Z.to_nat step)))).
Proof.
  intros Hs. unfold py_range.
  rewrite (proj2 (Z.eqb_neq _ _)) by lia.
  by rewrite (proj2 (Z.ltb_ge _ _)) by lia.
Qed.

Lemma imap_lookup_map {A B C} (f : A → B) (g : A → option B → C)
    (l : list A) :
  imap (λ i x, g x (map f l !! i)) l = map (λ x, g x (Some (f x))) l.
Proof.
  rewrite <- (imap_const (λ x, g x (Some (f x)))). apply imap_ext.
  intros i x Hi. simpl. by rewrite list_lookup_fmap, Hi.
Qed.

Section Batching.
Variables (e : env) (ocr_lang target_lang openai_key openai_model : string).

Lemma set_translation_fields it t :
  let o := set_translation it t in
  text o = text it ∧ box o = box it ∧ conf o = conf it
  ∧ index o = index it ∧ translation o = Some t.
Proof. done. Qed.

Lemma libre_each_trace items :
  ∀ h, ∃ ts,
    libre_each e ocr_lang target_lang items h
    = (Some (zip_with set_translation items ts),
       h ++ map (λ it, LibreCall (LibreRequest (Ustr.strip (text it))
                                    ocr_lang target_lang)) items)
    ∧ length ts = length items.
Proof.
  induction items as [|it items IH]; intros h.
  - exists []. simpl. by rewrite app_nil_r.
  - cbn [libre_each]. unfold bind.
    assert (Ht : ∃ v, translate_libre e (Ustr.strip (text it)) ocr_lang
                        target_lang h
                      = (Some v, h ++ [LibreCall (LibreRequest
                           (Ustr.strip (text it)) ocr_lang target_lang)])).
    { unfold translate_libre, bind, libre_try, ret.
      destruct (libre_post e h _) as [r|]; [|by eexists].
      destruct (status_ok (libre_status r)); [|by eexists].
      destruct (libre_json r) as [[| | | | | |d]|]; by eexists. }
    destruct Ht as (v & ->).
    destruct (IH (h ++ [LibreCall (LibreRequest (Ustr.strip (text it))
                                     ocr_lang target_lang)]))
      as (ts & -> & Hlen).
    exists (v :: ts). unfold ret. simpl. rewrite <- app_assoc.
    split; [done|]. by rewrite Hlen.
Qed.

Lemma zip_with_set_translation_fields items ts :
  length ts = length items →
  Forall2 (λ it o, text o = text it ∧ box o = box it ∧ conf o = conf it
                   ∧ index o = index it ∧ is_Some (translation o))
          items (zip_with set_translation items ts).
Proof.
  revert ts. induction items as [|it items IH]; intros [|t ts] Hlen;
    simplify_eq/=; constructor; [|by apply IH].
  repeat split; by eexists.
Qed.

Lemma imap_set_translation_fields (f : nat → item → pyobj) items :
  Forall2 (λ it o, text o = text it ∧ box o = box it ∧ conf o = conf it
                   ∧ index o = index it ∧ is_Some (translation o))
          items (imap (λ i it, set_translation it (f i it)) items).
Proof.
  revert f. induction items as [|it items IH]; intros f; simpl;
    constructor.
  - repeat split; by eexists.
  - apply (IH (λ i, f (S i))).
Qed.

End Batching.

Lemma translate_batch_translated
    (e : env) (ocr_lang target_lang openai_key openai_model : string)
    (items : list item) (backend : string) (batch_size : Z) (h : history) :
  batch_size ≠ 0%Z →
  ∃ out,
    (translate_batch e ocr_lang target_lang openai_key openai_model items
       backend batch_size h).1 = Some out
    ∧ translated items out.
Proof.
  intros Hbs. unfold translate_batch, translated.
  destruct items as [|it items]; [by exists []|].
  destruct (Latin1.startswith backend "OpenAI").
  - unfold py_range. rewrite (proj2 (Z.eqb_neq _ _) Hbs).
    destruct (batch_size <? 0)%Z; unfold bind;
      destruct (batches _ _ _ _ _ _ _ _ _ _) as [ts h']; cbn [fst ret];
      eexists; (split; [reflexivity|]);
      apply (imap_set_translation_fields
               (λ i it, default (PStr (text it)) (ts !! i))).
  - destruct (libre_each_trace e ocr_lang target_lang (it :: items) h)
      as (ts & -> & Hlen).
    eexists. split; [done|]. by apply zip_with_set_translation_fields.
Qed.

(** X20: translation touches nothing but the translation.  For either
    backend and any non-zero batch size, [translate_batch] returns the
    items it was given, in order, each with its text, box, confidence and
    index unchanged and its translation set. *)
Theorem translate_batch_keeps_fields
    (e : env) (ocr_lang target_lang openai_key openai_model : string)
    (items : list item) (backend : string) (batch_size : Z) (h : history) :
  batch_size ≠ 0%Z →
  ∃ out,
    (translate_batch e ocr_lang target_lang openai_key openai_model items
       backend batch_size h).1 = Some out
    ∧ translated items out.
Proof. apply translate_batch_translated. Qed.

Lemma translate_batch_keeps_fields_witness :
  18%Z ≠ 0%Z
  ∧ ∃ out,
      (translate_batch Scenario.outage "ja" "en" "key" "gpt-4o-mini"
         [Scenario.hello; Scenario.world] "OpenAI" 18 []).1 = Some out
      ∧ translated [Scenario.hello; Scenario.world] out.
Proof.
  assert (H : 18%Z ≠ 0%Z) by discriminate.
  split; [exact H|].
  exact (translate_batch_keeps_fields Scenario.outage "ja" "en" "key"
           "gpt-4o-mini" [Scenario.hello; Scenario.world] "OpenAI" 18 [] H).
Defined.

(** X21: with a backend whose name does not start with [OpenAI],
    [translate_batch] makes exactly one fallback request per item, in the
    order of the items, each with the item's stripped text and the
    language tags as given, and nothing else: no chat request and no
    sleep, whatever the batch size. *)
Theorem translate_batch_libre_trace
    (e : env) (ocr_lang target_lang openai_key openai_model : string)
    (items : list item) (backend : string) (batch_size : Z) (h : history) :
  Latin1.startswith backend "OpenAI" = false →
  (translate_batch e ocr_lang target_lang openai_key openai_model items
     backend batch_size h).2
  = h ++ map (λ it, LibreCall (LibreRequest (Ustr.strip (text it))
                                 ocr_lang target_lang)) items.
Proof.
  intros Hb. unfold translate_batch. rewrite Hb.
  destruct items as [|it items]; [simpl; by rewrite app_nil_r|].
  by destruct (libre_each_trace e ocr_lang target_lang (it :: items) h)
    as (ts & -> & _).
Qed.

Lemma translate_batch_libre_trace_witness :
  Latin1.startswith "LibreTranslate (free)" "OpenAI" = false
  ∧ (translate_batch Scenario.outage "ja" "en" "" "gpt-4o-mini"
       [Scenario.hello; Scenario.world] "LibreTranslate (free)" 18 []).2
    = [LibreCall (LibreRequest (Ustr.lit "Hello") "ja" "en");
       LibreCall (LibreRequest (Ustr.lit "World") "ja" "en")].
Proof.
  assert (H : Latin1.startswith "LibreTranslate (free)" "OpenAI" = false)
    by reflexivity.
  split; [exact H|].
  exact (translate_batch_libre_trace Scenario.outage "ja" "en" ""
           "gpt-4o-mini" [Scenario.hello; Scenario.world]
           "LibreTranslate (free)" 18 [] H).
Defined.


Lemma map_snd_zip_map {A B C} (f : A → B) (g : B → C) (c : list A) :
  map (λ p : A * B, g p.2) (zip c (map f c)) = map (λ t, g (f t)) c.
Proof. induction c as [|t c IH]; [done|]. simpl. by rewrite IH. Qed.

Section MissingKey.
Variables (e : env) (ocr_lang target_lang openai_model : string).

Lemma reconcile_untagged pairs :
  ∀ acc h,
    Forall (λ p : ustr * ustr,
              Ustr.startswith p.2 (Ustr.lit "[OpenAI failed") = false) pairs →
    reconcile e ocr_lang target_lang pairs acc h
    = (acc ++ map (λ p, PStr p.2) pairs, h).
Proof.
  induction pairs as [|[original result] pairs IH]; intros acc h Hall.
  - simpl. by rewrite app_nil_r.
  - apply Forall_cons in Hall as [Hp Hall]. cbn [reconcile].
    cbn [snd] in Hp. rewrite Hp, IH by done. by rewrite <- app_assoc.
Qed.

Lemma batches_missing_key texts k offsets :
  ∀ acc h,
    batches e ocr_lang target_lang "" openai_model texts k offsets acc h
    = (acc ++ map (λ t, PStr (Ustr.lit "[Missing OpenAI key] " ++ t))
                  (concat (map (λ i, take k (drop i texts)) offsets)),
       h ++ replicate (length offsets) (Sleep (1 # 2))).
Proof.
  induction offsets as [|i offsets IH]; intros acc h.
  - simpl. by rewrite !app_nil_r.
  - cbn [batches]. unfold bind at 1.
    change (translate_openai_batch e ?c ocr_lang target_lang "" openai_model 5 h)
      with (map (λ t, Ustr.lit "[Missing OpenAI key] " ++ t) c, h).
    cbv iota beta. unfold bind at 1.
    rewrite reconcile_untagged.
    2:{ apply Forall_forall. intros [o r] Hin.
        apply elem_of_zip_r in Hin. apply list_elem_of_fmap in Hin.
        by destruct Hin as (t & -> & _). }
    unfold bind at 1, sleep. rewrite IH. cbn [map concat length replicate].
    rewrite map_snd_zip_map, map_app, <- !app_assoc. done.
Qed.

End MissingKey.

(** X22: the OpenAI backend without a key.  For a positive batch size
    every item's translation is its stripped text behind the missing-key
    tag, item by item in order: the chunks cover the texts exactly.  The
    only effects are the pacing sleeps of half a second, one per chunk;
    no request is made, and no fallback, since the tag is not the failure
    tag. *)
Theorem translate_batch_missing_key
    (e : env) (ocr_lang target_lang openai_model : string)
    (items : list item) (backend : string) (batch_size : Z) (h : history) :
  Latin1.startswith backend "OpenAI" = true →
  (0 < batch_size)%Z →
  translate_batch e ocr_lang target_lang "" openai_model items backend
    batch_size h
  = (Some (map (λ it, set_translation it
                        (PStr (Ustr.lit "[Missing OpenAI key] "
                               ++ Ustr.strip (text it)))) items),
     h ++ replicate (chunk_count (length items) (Z.to_nat batch_size))
            (Sleep (1 # 2))).
Proof.
  intros Hb Hpos. unfold translate_batch. rewrite Hb.
  destruct items as [|it items].
  { unfold ret, chunk_count. simpl.
    rewrite Nat.div_small by lia. simpl. by rewrite app_nil_r. }
  set (its := it :: items). rewrite length_map.
  rewrite py_range_positive by done. unfold bind.
  rewrite batches_missing_key. unfold ret.
  rewrite chunks_cover;
    [|lia|rewrite length_map; apply chunk_count_covers; lia].
  rewrite length_map, length_seq. f_equal. f_equal.
  rewrite app_nil_l, map_map.
  apply (imap_lookup_map
           (λ it, PStr (Ustr.lit "[Missing OpenAI key] "
                        ++ Ustr.strip (text it)))
           (λ it o, set_translation it (default (PStr (text it)) o))).
Qed.

Lemma translate_batch_missing_key_witness :
  Latin1.startswith "OpenAI" "OpenAI" = true
  ∧ (0 < 1)%Z
  ∧ translate_batch Scenario.outage "ja" "en" "" "gpt-4o-mini"
      [Scenario.hello; Scenario.world] "OpenAI" 1 []
    = (Some [set_translation Scenario.hello
               (PStr (Ustr.lit "[Missing OpenAI key] Hello"));
             set_translation Scenario.world
               (PStr (Ustr.lit "[Missing OpenAI key] World"))],
       [Sleep (1 # 2); Sleep (1 # 2)]).
Proof.
  assert (H1 : Latin1.startswith "OpenAI" "OpenAI" = true) by reflexivity.
  assert (H2 : (0 < 1)%Z) by lia.
  split; [exact H1|]. split; [exact H2|].
  exact (translate_batch_missing_key Scenario.outage "ja" "en" "gpt-4o-mini"
           [Scenario.hello; Scenario.world] "OpenAI" 1 [] H1 H2).
Defined.


Section Requests.
Variables (e : env) (ocr_lang target_lang openai_key openai_model : string).

Lemma translate_libre_trace text src tgt h :
  (translate_libre e text src tgt h).2
  = h ++ [LibreCall (LibreRequest text src tgt)].
Proof.
  unfold translate_libre, bind, libre_try, ret.
  destruct (libre_post e h _) as [r|]; [|done].
  destruct (status_ok (libre_status r)); [|done].
  by destruct (libre_json r) as [[| | | | | |d]|].
Qed.

Lemma reconcile_trace pairs :
  ∀ acc h, ∃ evs,
    (reconcile e ocr_lang target_lang pairs acc h).2 = h ++ evs
    ∧ chat_calls evs = []
    ∧ sleeps evs = []
    ∧ libre_calls evs
      `sublist_of` map (λ p, LibreRequest p.1 ocr_lang target_lang) pairs.
Proof.
  induction pairs as [|[original result] pairs IH]; intros acc h.
  - exists []. simpl. by rewrite app_nil_r.
  - cbn [reconcile].
    destruct (Ustr.startswith result _).
    + unfold bind.
      pose proof (translate_libre_trace original ocr_lang target_lang h) as Ht.
      destruct (translate_libre e original ocr_lang target_lang h)
        as [fallback h1]. simpl in Ht. subst h1.
      assert (Hgo : ∀ acc', ∃ evs,
        (reconcile e ocr_lang target_lang pairs acc'
           (h ++ [LibreCall (LibreRequest original ocr_lang target_lang)])).2
        = h ++ evs
        ∧ chat_calls evs = [] ∧ sleeps evs = []
        ∧ libre_calls evs
          `sublist_of` map (λ p, LibreRequest p.1 ocr_lang target_lang)
                           ((original, result) :: pairs)).
      { intros acc'. destruct (IH acc' (h ++ [LibreCall (LibreRequest original
          ocr_lang target_lang)])) as (evs & -> & Hc & Hs & Hl).
        exists (LibreCall (LibreRequest original ocr_lang target_lang) :: evs).
        rewrite <- app_assoc. split; [done|]. simpl.
        fold (chat_calls evs) (sleeps evs) (libre_calls evs).
        repeat split; [done..|]. by apply sublist_skip. }
      destruct fallback; apply Hgo.
    + destruct (IH (acc ++ [PStr result]) h) as (evs & -> & Hc & Hs & Hl).
      exists evs. repeat split; [done..|]. by apply sublist_cons.
Qed.

Lemma batches_trace texts k offsets :
  ∀ acc h, ∃ evs,
    (batches e ocr_lang target_lang openai_key openai_model texts k offsets
       acc h).2 = h ++ evs
    ∧ Forall (λ r, req_api_key r = openai_key ∧ req_model r = openai_model
                   ∧ req_source_language r = lang_map ocr_lang
                   ∧ req_target_language r = lang_map target_lang
                   ∧ length (req_segments r) ≤ k
                   ∧ Forall (λ t, t ∈ texts) (req_segments r))
             (chat_calls evs)
    ∧ Forall (λ r, libre_q r ∈ texts ∧ libre_source r = ocr_lang
                   ∧ libre_target r = target_lang)
             (libre_calls evs)
    ∧ Forall (λ s, (s <= 45)%Q) (sleeps evs)
    ∧ length (chat_calls evs) ≤ 5 * length offsets
    ∧ length (libre_calls evs)
      ≤ length (concat (map (λ i, take k (drop i texts)) offsets)).
Proof.
  induction offsets as [|i offsets IH]; intros acc h.
  { exists []. simpl. rewrite app_nil_r. repeat split; first [lia | done]. }
  cbn [batches]. unfold bind at 1.
  set (chunk := take k (drop i texts)).
  assert (Hchunk : Forall (λ t, t ∈ texts) chunk).
  { apply Forall_forall. intros t Ht. subst chunk.
    eapply elem_of_sublist; [done|].
    etrans; [apply sublist_take|apply sublist_drop]. }
  destruct (translate_openai_batch_events e chunk ocr_lang target_lang
              openai_key openai_model 5 h)
    as (ev1 & n & H1 & Hn & Hc1 & Hl1 & Hs1 & _).
  destruct (translate_openai_batch e chunk ocr_lang target_lang openai_key
              openai_model 5 h) as [results h1].
  simpl in H1. subst h1. unfold bind at 1.
  destruct (reconcile_trace (zip chunk results) acc (h ++ ev1))
    as (ev2 & H2 & Hc2 & Hs2 & Hl2).
  destruct (reconcile e ocr_lang target_lang (zip chunk results) acc
              (h ++ ev1)) as [acc' h2].
  simpl in H2. subst h2. unfold bind at 1, sleep.
  destruct (IH acc' ((h ++ ev1) ++ ev2 ++ [Sleep (1 # 2)]))
    as (ev3 & H3 & Hc3 & Hl3 & Hs3 & Hn3 & Hm3).
  rewrite <- !app_assoc in *.
  exists (ev1 ++ ev2 ++ [Sleep (1 # 2)] ++ ev3).
  split; [rewrite H3; by rewrite <- ?app_assoc|].
  rewrite !chat_calls_app, !libre_calls_app, !sleeps_app.
  rewrite Hc1, Hl1, Hc2, Hs2. cbn [chat_calls libre_calls sleeps omap].
  rewrite ?app_nil_l, ?app_nil_r.
  assert (Hlen2 : length (libre_calls ev2) ≤ length chunk).
  { apply sublist_length in Hl2.
    rewrite length_map, length_zip in Hl2. lia. }
  repeat split.
  - apply Forall_app. split; [|done].
    apply Forall_replicate. subst chunk. repeat split; [|done].
    simpl. rewrite length_take. lia.
  - apply Forall_app. split; [|done].
    apply Forall_forall. intros r Hr.
    eapply elem_of_sublist in Hr; [|exact Hl2].
    apply list_elem_of_fmap in Hr as ([o res] & -> & Hin).
    apply elem_of_zip_l in Hin. simpl. repeat split.
    by apply (proj1 (Forall_forall _ _) Hchunk).
  - apply Forall_app. split; [done|].
    apply Forall_cons. split; [by vm_compute|done].
  - rewrite length_app, length_replicate. simpl. lia.
  - cbn [map concat]. rewrite !length_app. fold chunk. lia.
Qed.

End Requests.

(** X23: what the OpenAI backend sends.  For a positive batch size,
    every chat request of [translate_batch] carries the key and the model
    it was given, the mapped language tags, and at most [batch_size]
    texts, each the stripped text of an item; every fallback request
    carries the stripped text of an item and the unmapped tags; no sleep
    exceeds 45 seconds; there are at most five chat requests per chunk and
    at most one fallback request per item. *)
Theorem translate_batch_requests
    (e : env) (ocr_lang target_lang openai_key openai_model : string)
    (items : list item) (backend : string) (batch_size : Z) (h : history) :
  Latin1.startswith backend "OpenAI" = true →
  (0 < batch_size)%Z →
  ∃ evs,
    (translate_batch e ocr_lang target_lang openai_key openai_model items
       backend batch_size h).2 = h ++ evs
    ∧ batch_trace ocr_lang target_lang openai_key openai_model
        (map (λ it, Ustr.strip (text it)) items) (Z.to_nat batch_size) evs.
Proof.
  intros Hb Hpos. unfold translate_batch, batch_trace. rewrite Hb.
  set (texts := map (λ it, Ustr.strip (text it)) items).
  destruct items as [|it items].
  { exists []. simpl. rewrite app_nil_r. repeat split; first [lia | done]. }
  rewrite py_range_positive by done. unfold bind.
  destruct (batches_trace e ocr_lang target_lang openai_key openai_model
              texts (Z.to_nat batch_size)
              (map (λ n, n * Z.to_nat batch_size)
                   (seq 0 (chunk_count (length texts) (Z.to_nat batch_size))))
              [] h) as (evs & Hh & Hc & Hl & Hs & Hn & Hm).
  destruct (batches _ _ _ _ _ _ _ _ _ _) as [ts h']. simpl in Hh. subst h'.
  exists evs. cbn [ret snd].
  rewrite chunks_cover in Hm;
    [|lia|apply chunk_count_covers; lia].
  rewrite length_map, length_seq in Hn. by repeat split.
Qed.

Lemma translate_batch_requests_witness :
  Latin1.startswith "OpenAI" "OpenAI" = true
  ∧ (0 < 18)%Z
  ∧ ∃ evs,
      (translate_batch Scenario.outage "ch_sim" "en" "key" "gpt-4o-mini"
         [Scenario.hello; Scenario.world] "OpenAI" 18 []).2 = [] ++ evs
      ∧ batch_trace "ch_sim" "en" "key" "gpt-4o-mini"
          (map (λ it, Ustr.strip (text it)) [Scenario.hello; Scenario.world])
          (Z.to_nat 18) evs.
Proof.
  assert (H1 : Latin1.startswith "OpenAI" "OpenAI" = true) by reflexivity.
  assert (H2 : (0 < 18)%Z) by lia.
  split; [exact H1|]. split; [exact H2|].
  exact (translate_batch_requests Scenario.outage "ch_sim" "en" "key"
           "gpt-4o-mini" [Scenario.hello; Scenario.world] "OpenAI" 18 []
           H1 H2).
Defined.

(** X24: a negative batch size.  With the OpenAI backend and a negative
    [batch_size] the loop over the offsets is empty: no request is made,
    and every item gets its own unstripped text as its translation. *)
Theorem translate_batch_negative_size
    (e : env) (ocr_lang target_lang openai_key openai_model : string)
    (items : list item) (backend : string) (batch_size : Z) (h : history) :
  Latin1.startswith backend "OpenAI" = true →
  (batch_size < 0)%Z →
  translate_batch e ocr_lang target_lang openai_key openai_model items
    backend batch_size h
  = (Some (map (λ it, set_translation it (PStr (text it))) items), h).
Proof.
  intros Hb Hneg. unfold translate_batch. rewrite Hb.
  destruct items as [|it items]; [done|].
  unfold py_range. rewrite (proj2 (Z.eqb_neq _ _)) by lia.
  rewrite (proj2 (Z.ltb_lt _ _)) by lia.
  cbn [batches bind ret]. unfold bind, ret. do 2 f_equal.
  rewrite <- (imap_const (λ it, set_translation it (PStr (text it)))).
  by apply imap_ext.
Qed.

Lemma translate_batch_negative_size_witness :
  Latin1.startswith "OpenAI" "OpenAI" = true
  ∧ (-1 < 0)%Z
  ∧ translate_batch Scenario.outage "ja" "en" "key" "gpt-4o-mini"
      [Scenario.hello] "OpenAI" (-1) []
    = (Some [set_translation Scenario.hello (PStr (Ustr.lit "Hello"))], []).
Proof.
  assert (H1 : Latin1.startswith "OpenAI" "OpenAI" = true) by reflexivity.
  assert (H2 : (-1 < 0)%Z) by lia.
  split; [exact H1|]. split; [exact H2|].
  exact (translate_batch_negative_size Scenario.outage "ja" "en" "key"
           "gpt-4o-mini" [Scenario.hello] "OpenAI" (-1) [] H1 H2).
Defined.

(** ** The data path of [process_local] *)

Lemma collect_items_elem raw min_conf it :
  it ∈ collect_items raw min_conf
  ↔ ∃ b t c, (b, t, c) ∈ raw
             ∧ Ustr.strip t ≠ [] ∧ (min_conf <= c)%Q
             ∧ it = Item (Ustr.strip t) b c None None.
Proof.
  unfold collect_items. rewrite list_elem_of_omap. split.
  - intros ([[b t] c] & Hin & Hsome). simpl in Hsome.
    destruct (bool_decide (Ustr.strip t = [])) eqn:Eb; [done|].
    destruct (Qltb c min_conf) eqn:Ec; [done|]. simpl in Hsome.
    injection Hsome as <-. exists b, t, c.
    apply bool_decide_eq_false in Eb. apply Qltb_ge in Ec. done.
  - intros (b & t & c & Hin & Ht & Hc & ->). exists (b, t, c).
    split; [done|]. simpl.
    rewrite (bool_decide_eq_false_2 _ Ht).
    by rewrite (proj2 (Qltb_ge _ _) Hc).
Qed.

Lemma collect_items_length raw min_conf :
  length (collect_items raw min_conf) ≤ length raw.
Proof.
  unfold collect_items. induction raw as [|d raw IH]; [done|].
  cbn [omap list_omap length].
  destruct (bool_decide _ || Qltb _ _); cbn [length]; lia.
Qed.

(** X25: the regions [process_local] keeps.  A region is kept exactly
    when it comes from a raw detection whose stripped text is not empty
    and whose confidence is not below [min_conf]; it carries the stripped
    text, the box and the confidence of that detection, and neither index
    nor translation.  No more regions are kept than were detected. *)
Theorem collect_items_keeps
    (raw : list detection) (min_conf : Q) (it : item) :
  (it ∈ collect_items raw min_conf
   ↔ ∃ b t c, (b, t, c) ∈ raw
              ∧ Ustr.strip t ≠ [] ∧ (min_conf <= c)%Q
              ∧ it = Item (Ustr.strip t) b c None None)
  ∧ length (collect_items raw min_conf) ≤ length raw.
Proof. split; [apply collect_items_elem|apply collect_items_length]. Qed.

Lemma collect_items_boxes raw min_conf :
  Forall (λ d : detection, d.1.1 ≠ []) raw →
  Forall (λ it, box it ≠ []) (collect_items raw min_conf).
Proof.
  intros Hall. apply Forall_forall. intros it Hin.
  apply collect_items_elem in Hin as (b & t & c & Hin & _ & _ & ->).
  by apply (proj1 (Forall_forall _ _) Hall (b, t, c)).
Qed.

Lemma index_items_length items : length (index_items items) = length items.
Proof. apply length_imap. Qed.

Lemma index_items_index items :
  map index (index_items items)
  = map (λ i, Some (Z.of_nat i + 1)%Z) (seq 0 (length items)).
Proof.
  unfold index_items. apply list_eq. intros i.
  rewrite !list_lookup_fmap, list_lookup_imap.
  destruct (items !! i) as [it|] eqn:E; simpl.
  - rewrite lookup_seq_lt by (by eapply lookup_lt_Some). done.
  - rewrite lookup_seq_ge by (by apply lookup_ge_None). done.
Qed.

Lemma index_items_fields items :
  Forall2 (λ it o, text o = text it ∧ box o = box it) items
          (index_items items).
Proof.
  unfold index_items.
  apply Forall2_same_length_lookup. split; [by rewrite length_imap|].
  intros i it o Hit Ho. rewrite list_lookup_imap, Hit in Ho.
  by injection Ho as <-.
Qed.

(** Merging regions with non-empty boxes gives regions with non-empty
    boxes, and at least one of them if there was one. *)
Lemma merge_nearby_boxes_closed items th :
  Forall (λ it, box it ≠ []) items →
  ∃ out, merge_nearby_boxes items th = Some out
         ∧ Forall (λ o, box o ≠ []) out
         ∧ length out ≤ length items
         ∧ (items ≠ [] → out ≠ []).
Proof.
  intros Hitems.
  destruct (merge_nearby_boxes_emits items th Hitems)
    as (out & gs & Hout & Hgs & Hem & Hinv & Hlen).
  exists out. split; [done|]. split; [|split; [done|]].
  - clear Hout Hgs Hlen.
    induction Hem as [|g o gs out Hgo Hrest IH]; constructor.
    + apply Forall_cons in Hinv as [[Hne Hall] _].
      destruct (emitted_contains g o Hne Hall Hgo) as (ro & Hro & _).
      intros Hb. unfold rect_of in Hro. by rewrite Hb in Hro.
    + apply IH. by apply Forall_cons in Hinv as [_ ?].
  - intros Hne ->. apply Forall2_nil_inv_r in Hem as ->.
    apply merge_groups_partition in Hgs. simpl in Hgs.
    by apply Permutation_nil in Hgs.
Qed.

Lemma sort_reading_order_returns items :
  Forall (λ it, box it ≠ []) items →
  ∃ out, sort_reading_order items = Some out ∧ out ≡ₚ items.
Proof.
  intros Hall. destruct items as [|it items]; [by exists []|].
  destruct (mapM_center_item_is_Some _ Hall) as [cs Hcs].
  rewrite (sort_reading_order_centered _ cs) by done.
  eexists. split; [done|].
  destruct (mapM_center_item_inv _ _ Hcs) as [<- _].
  apply fmap_Permutation, order_centered_perm.
Qed.

(** X26: the data path of [process_local] end to end.  If no raw
    detection has an empty box, no exception escapes, for any backend and
    any behaviour of the services.  Nothing is returned exactly when no
    detection is kept; otherwise at least one region and at most the kept
    ones come out, numbered 1, 2, ... in output order, each translated and
    with a non-empty box; without merging, the texts are the kept texts
    rearranged. *)
Theorem process_local_returns
    (e : env) (raw : list detection)
    (detected_lang target_lang backend : string) (min_conf : Q)
    (merge_lines : bool) (openai_key openai_model : string) (h : history) :
  Forall (λ d : detection, d.1.1 ≠ []) raw →
  let kept := collect_items raw min_conf in
  ∃ res,
    (process_local e raw detected_lang target_lang backend min_conf
       merge_lines openai_key openai_model h).1 = Some res
    ∧ match res with
      | None => kept = []
      | Some out =>
          0 < length out ≤ length kept
          ∧ map index out
            = map (λ i, Some (Z.of_nat i + 1)%Z) (seq 0 (length out))
          ∧ Forall (λ o, is_Some (translation o) ∧ box o ≠ []) out
          ∧ (merge_lines = false → map text out ≡ₚ map text kept)
      end.
Proof.
  intros Hraw kept. unfold process_local. fold kept.
  pose proof (collect_items_boxes raw min_conf Hraw) as Hboxes.
  fold kept in Hboxes.
  destruct kept as [|it0 kept0] eqn:Ekept; [by exists None|].
  rewrite <- Ekept in *. assert (Hne : kept ≠ []) by by rewrite Ekept.
  clear Ekept.
  assert (Hmerge : ∃ merged,
    (if merge_lines then merge_nearby_boxes kept 50 else Some kept)
    = Some merged
    ∧ Forall (λ o, box o ≠ []) merged
    ∧ 0 < length merged ≤ length kept
    ∧ (merge_lines = false → merged = kept)).
  { destruct merge_lines.
    - destruct (merge_nearby_boxes_closed kept 50 Hboxes)
        as (m & -> & Hb & Hlen & Hn).
      exists m. repeat split; try done.
      specialize (Hn Hne). destruct m; [done|simpl; lia].
    - exists kept. repeat split; try done. destruct kept; [done|simpl; lia]. }
  destruct Hmerge as (merged & -> & Hmb & Hmlen & Hmeq). cbn [mbind option_bind].
  destruct (sort_reading_order_returns merged Hmb) as (sorted & -> & Hperm).
  unfold bind.
  destruct (translate_batch_translated e detected_lang target_lang
              openai_key openai_model (index_items sorted) backend 18 h)
    as (out & Hout & Hfields); [done|]. unfold translated in Hfields.
  destruct (translate_batch _ _ _ _ _ _ _ _ _) as [r h']. simpl in Hout.
  subst r. exists (Some out). split; [done|].
  pose proof (Forall2_length _ _ _ Hfields) as Hlen.
  rewrite index_items_length in Hlen.
  pose proof (Permutation_length Hperm) as Hplen.
  split; [lia|]. split; [|split].
  - rewrite <- Hlen, <- index_items_index.
    clear -Hfields. induction Hfields as [|a b l k (_&_&_&Hi&_) _ IH];
      [done|]. simpl. by rewrite Hi, IH.
  - apply Forall_forall. intros o Ho.
    apply list_elem_of_lookup in Ho as [i Ho].
    destruct (Forall2_lookup_r _ _ _ _ _ Hfields Ho)
      as (a & Ha & _ & Hb & _ & _ & Ht).
    split; [done|]. rewrite Hb.
    apply list_lookup_imap_Some in Ha as (a' & Ha' & ->). simpl.
    apply (proj1 (Forall_forall _ _) Hmb). rewrite <- Hperm.
    by eapply list_elem_of_lookup_2.
  - intros Hm. rewrite <- (Hmeq Hm), <- Hperm.
    assert (map text out = map text sorted) as ->; [|done].
    pose proof (index_items_fields sorted) as Hidx.
    apply list_eq. intros i. rewrite !list_lookup_fmap.
    destruct (out !! i) as [o|] eqn:Eo.
    + destruct (Forall2_lookup_r _ _ _ _ _ Hfields Eo)
        as (a & Ha & Ht & _).
      destruct (Forall2_lookup_r _ _ _ _ _ Hidx Ha) as (s & -> & Hs & _).
      simpl. by rewrite Ht, Hs.
    + apply lookup_ge_None in Eo. rewrite <- Hlen in Eo.
      by rewrite (proj2 (lookup_ge_None _ _) Eo).
Qed.

Lemma process_local_returns_witness :
  Forall (λ d : detection, d.1.1 ≠ []) Cases.detections
  ∧ let kept := collect_items Cases.detections (3 # 10) in
    ∃ res,
      (process_local Scenario.outage Cases.detections "ja" "en" "OpenAI"
         (3 # 10) true "key" "gpt-4o-mini" []).1 = Some res
      ∧ match res with
        | None => kept = []
        | Some out =>
            0 < length out ≤ length kept
            ∧ map index out
              = map (λ i, Some (Z.of_nat i + 1)%Z) (seq 0 (length out))
            ∧ Forall (λ o, is_Some (translation o) ∧ box o ≠ []) out
            ∧ (true = false → map text out ≡ₚ map text kept)
        end.
Proof.
  assert (H : Forall (λ d : detection, d.1.1 ≠ []) Cases.detections)
    by (repeat constructor; discriminate).
  split; [exact H|].
  exact (process_local_returns Scenario.outage Cases.detections "ja" "en"
           "OpenAI" (3 # 10) true "key" "gpt-4o-mini" [] H).
Defined.

(** The detections of the scenario, filtered, sorted, numbered and
    translated by a fallback that fails. *)
Example process_local_detections :
  (process_local Scenario.outage Cases.detections "ja" "en" "OpenAI"
     (3 # 10) false "key" "gpt-4o-mini" []).1
  = Some (Some [Item (Ustr.lit "first") (Scenario.square 50 10) (9 # 10)
                  (Some 1%Z) (Some (PStr (Ustr.lit "first")));
                Item (Ustr.lit "third") (Scenario.square 10 200) (1 # 2)
                  (Some 2%Z) (Some (PStr (Ustr.lit "third")))]).
Proof. vm_compute. reflexivity. Qed.

(** ** The sandbox lifecycle *)

Import DaytonaRunner.

Section Daytona.
Variable d : sdk.

Lemma get_daytona_client_spec api_key s :
  let '(r, s') := get_daytona_client d api_key s in
  the_sandbox s' = the_sandbox s
  ∧ sandbox_ready s' = sandbox_ready s
  ∧ (∀ c, r = Some c → daytona_client s' = Some c)
  ∧ (is_Some (daytona_client s) → s' = s)
  ∧ ∃ pre, calls s' = calls s ++ pre ∧ length pre ≤ 1
           ∧ Forall (λ c, ∃ k, c = NewClient k) pre.
Proof.
  unfold get_daytona_client. destruct (daytona_client s) as [c|] eqn:E.
  - split; [done|]. split; [done|]. split; [by intros ? [= <-]|].
    split; [done|]. exists []. rewrite app_nil_r.
    split; [done|]. split; [simpl; lia|constructor].
  - destruct (new_client d (calls s) _) as [c|]; simpl;
      (split; [done|]); (split; [done|]); (split; [by intros ? [= <-]|]);
      (split; [by intros [? ?]|]); eexists [_];
      (split; [done|]); (split; [simpl; lia|]);
      repeat constructor; by eexists.
Qed.

Lemma exec_all_spec sb cmds :
  ∀ s, let '(r, s') := exec_all d sb cmds s in
       daytona_client s' = daytona_client s
       ∧ the_sandbox s' = the_sandbox s
       ∧ sandbox_ready s' = sandbox_ready s
       ∧ (r = Some tt → calls s' = calls s ++ map (Exec sb) cmds).
Proof.
  induction cmds as [|cmd cmds IH]; intros s.
  - simpl. repeat split. intros _. by rewrite app_nil_r.
  - cbn [exec_all].
    destruct (exec d (calls s) sb cmd) as [[]|]; [|by repeat split].
    specialize (IH (State (daytona_client s) (the_sandbox s)
                      (sandbox_ready s) (calls s ++ [Exec sb cmd]))).
    destruct (exec_all d sb cmds _) as [r s']. simpl in IH.
    destruct IH as (H1 & H2 & H3 & H4). repeat split; [done..|].
    intros Hr. rewrite (H4 Hr). simpl. by rewrite <- app_assoc.
Qed.

Lemma get_or_create_sandbox_spec api_key s sb s' :
  get_or_create_sandbox d api_key s = (Some sb, s') →
  the_sandbox s' = Some sb
  ∧ (∃ pre, calls s' = calls s ++ pre ∧ length pre ≤ 2
            ∧ Forall (λ c, (∃ k, c = NewClient k) ∨ ∃ cl, c = Create cl) pre
            ∧ (is_Some (the_sandbox s) → pre = []))
  ∧ ∀ api_key', get_or_create_sandbox d api_key' s' = (Some sb, s').
Proof.
  unfold get_or_create_sandbox at 1.
  destruct (the_sandbox s) as [sb0|] eqn:E.
  - intros [= <- <-]. split; [done|]. split.
    + exists []. rewrite app_nil_r. repeat split; [simpl; lia|constructor].
    + intros k. unfold get_or_create_sandbox. by rewrite E.
  - pose proof (get_daytona_client_spec api_key s) as Hspec.
    destruct (get_daytona_client d api_key s) as [[c|] s1]; [|done].
    destruct Hspec as (_ & _ & _ & _ & pre & Hpre & Hlen & Hall).
    destruct (create d (calls s1) c) as [sb1|]; [|done].
    intros [= <- <-]. split; [done|]. split.
    + exists (pre ++ [Create c]). simpl. rewrite Hpre, <- app_assoc.
      split; [done|]. split; [rewrite length_app; simpl; lia|].
      split; [|by intros [? ?]].
      apply Forall_app_2.
      * eapply Forall_impl; [done|]. intros ? ?. by left.
      * constructor; [|constructor]. right. by eexists.
    + intros k. by unfold get_or_create_sandbox.
Qed.

End Daytona.

(** X27: the module's globals stay consistent.  From a state in which a
    sandbox exists only together with a client and is marked ready only
    if it exists, each of the four functions leaves such a state, whether
    it returns or raises and whatever the SDK does. *)
Theorem consistent_preserved
    (d : sdk) (api_key : option string) (s : state) :
  consistent s →
  consistent (get_daytona_client d api_key s).2
  ∧ consistent (get_or_create_sandbox d api_key s).2
  ∧ consistent (reset_sandbox d api_key s).2
  ∧ consistent (ensure_sandbox_deps d api_key s).2.
Proof.
  intros Hcons. pose proof Hcons as [Hsb Hready].
  assert (Hget : ∀ s0, consistent s0 →
            consistent (get_daytona_client d api_key s0).2).
  { intros s0 [H1 H2]. unfold get_daytona_client.
    destruct (daytona_client s0) as [c|] eqn:E; [done|].
    destruct (new_client d (calls s0) _) as [c|]; split; simpl; try done.
    all: intros Hs; destruct (H1 Hs) as [? ?]; congruence. }
  assert (Hcreate : ∀ s0, consistent s0 →
            consistent (get_or_create_sandbox d api_key s0).2).
  { intros s0 Hs0. unfold get_or_create_sandbox.
    destruct (the_sandbox s0) as [sb|] eqn:E; [done|].
    pose proof (Hget s0 Hs0) as Hc1.
    pose proof (get_daytona_client_spec d api_key s0) as Hspec.
    destruct (get_daytona_client d api_key s0) as [[c|] s1]; [|done].
    destruct Hspec as (Hs1 & Hr1 & Hc & _). simpl in Hc1.
    destruct Hc1 as [Hc1 Hc2].
    assert (Hnr : sandbox_ready s1 = true → False).
    { intros Hr. apply Hc2 in Hr as [? Hr]. congruence. }
    assert (Hcl : is_Some (daytona_client s1)).
    { rewrite (Hc c eq_refl). by eexists. }
    destruct (create d (calls s1) c) as [sb|]; split; simpl;
      first [done | by intros _ | intros Hr; by destruct (Hnr Hr)
            | by intros [? ?]]. }
  split; [by apply Hget|]. split; [by apply Hcreate|]. split.
  - unfold reset_sandbox. destruct (the_sandbox s) as [sb|] eqn:E.
    + pose proof (Hget s Hcons) as Hc1.
      destruct (get_daytona_client d api_key s) as [[c|] s1]; [|done].
      destruct (delete d (calls s1) c sb); split; simpl;
        by intros [? ?] || done.
    + split; simpl; [by intros [? ?]|done].
  - unfold ensure_sandbox_deps.
    destruct (sandbox_ready s) eqn:Er; [done|].
    pose proof (Hcreate s Hcons) as Hc1.
    assert (Hsome : ∀ sb s1, get_or_create_sandbox d api_key s = (Some sb, s1)
                             → the_sandbox s1 = Some sb).
    { unfold get_or_create_sandbox. intros sb s1.
      destruct (the_sandbox s) as [sb0|] eqn:E; [by intros [= <- <-]|].
      destruct (get_daytona_client d api_key s) as [[c|] s0]; [|done].
      destruct (create d (calls s0) c); by intros [= <- <-]. }
    destruct (get_or_create_sandbox d api_key s) as [[sb|] s1] eqn:Eg;
      [|done].
    specialize (Hsome sb s1 eq_refl).
    pose proof (exec_all_spec d sb install_commands s1) as He.
    destruct (exec_all d sb install_commands s1) as [[[]|] s2];
      destruct He as (H1 & H2 & H3 & _); simpl in *;
      destruct Hc1 as [Hc1 Hc2]; split; simpl; rewrite ?H1, ?H2, ?H3;
      first [done | intros _; rewrite Hsome; by eexists].
Qed.

Lemma consistent_preserved_witness :
  consistent initial
  ∧ consistent (get_daytona_client Cases.cloud None initial).2
  ∧ consistent (get_or_create_sandbox Cases.cloud None initial).2
  ∧ consistent (reset_sandbox Cases.cloud None initial).2
  ∧ consistent (ensure_sandbox_deps Cases.cloud None initial).2.
Proof.
  assert (H : consistent initial).
  { split; simpl; [by intros [? ?]|done]. }
  split; [exact H|]. exact (consistent_preserved Cases.cloud None initial H).
Defined.

(** X28: the sandbox is created once and reused.  When
    [get_or_create_sandbox] returns a sandbox, that sandbox is the cached
    one; at most the client's construction and one creation were called,
    and nothing at all if a sandbox existed; and every later call, with
    any key, returns the same sandbox without calling the SDK. *)
Theorem get_or_create_sandbox_reuses
    (d : sdk) (api_key : option string) (s : state) (sb : sandbox)
    (s' : state) :
  get_or_create_sandbox d api_key s = (Some sb, s') →
  the_sandbox s' = Some sb
  ∧ (∃ pre, calls s' = calls s ++ pre ∧ setup_calls pre
            ∧ (is_Some (the_sandbox s) → pre = []))
  ∧ ∀ api_key', get_or_create_sandbox d api_key' s' = (Some sb, s').
Proof.
  intros H.
  destruct (get_or_create_sandbox_spec d _ _ _ _ H)
    as (Hs & (pre & Hpre & Hlen & Hall & Hnone) & Hagain).
  split; [done|]. split; [|done]. by exists pre.
Qed.

Lemma get_or_create_sandbox_reuses_witness :
  get_or_create_sandbox Cases.cloud None initial
  = (Some 7, State (Some 1) (Some 7) false [NewClient None; Create 1])
  ∧ ∀ api_key',
      get_or_create_sandbox Cases.cloud api_key'
        (State (Some 1) (Some 7) false [NewClient None; Create 1])
      = (Some 7, State (Some 1) (Some 7) false [NewClient None; Create 1]).
Proof.
  assert (H : get_or_create_sandbox Cases.cloud None initial
              = (Some 7,
                 State (Some 1) (Some 7) false [NewClient None; Create 1]))
    by reflexivity.
  split; [exact H|].
  exact (proj2 (proj2 (get_or_create_sandbox_reuses Cases.cloud None initial
                         7 _ H))).
Defined.

(** X29: the dependencies are installed once.  From a consistent state,
    when [ensure_sandbox_deps] returns the sandbox exists and is marked
    ready.  If it was ready already nothing happens; otherwise the calls
    made are the set-up of the sandbox, if it did not exist, followed by
    the three installation commands, in order, on that sandbox.  Any
    later call, with any key, does nothing. *)
Theorem ensure_sandbox_deps_installs
    (d : sdk) (api_key : option string) (s s' : state) :
  consistent s →
  ensure_sandbox_deps d api_key s = (Some tt, s') →
  sandbox_ready s' = true
  ∧ (∃ sb, the_sandbox s' = Some sb
           ∧ if sandbox_ready s then s' = s
             else ∃ pre,
                 calls s' = calls s ++ pre ++ map (Exec sb) install_commands
                 ∧ setup_calls pre)
  ∧ ∀ api_key', ensure_sandbox_deps d api_key' s' = (Some tt, s').
Proof.
  intros [Hsb Hready]. unfold ensure_sandbox_deps at 1.
  destruct (sandbox_ready s) eqn:Er.
  - intros [= <-]. split; [done|]. destruct (Hready eq_refl) as [sb Hs].
    split; [by exists sb|]. intros k. unfold ensure_sandbox_deps.
    by rewrite Er.
  - destruct (get_or_create_sandbox d api_key s) as [[sb|] s1] eqn:Eg;
      [|done].
    destruct (get_or_create_sandbox_spec d _ _ _ _ Eg)
      as (Hs1 & (pre & Hpre & Hlen & Hall & _) & _).
    pose proof (exec_all_spec d sb install_commands s1) as He.
    destruct (exec_all d sb install_commands s1) as [[[]|] s2]; [|done].
    destruct He as (H1 & H2 & H3 & H4). intros [= <-]. simpl.
    split; [done|]. split.
    + exists sb. split; [congruence|]. exists pre.
      rewrite (H4 eq_refl), Hpre, <- app_assoc. done.
    + intros k. by unfold ensure_sandbox_deps.
Qed.

Lemma ensure_sandbox_deps_installs_witness :
  consistent initial
  ∧ ensure_sandbox_deps Cases.cloud None initial
    = (Some tt,
       State (Some 1) (Some 7) true
         ([NewClient None; Create 1] ++ map (Exec 7) install_commands))
  ∧ ∀ api_key',
      ensure_sandbox_deps Cases.cloud api_key'
        (State (Some 1) (Some 7) true
           ([NewClient None; Create 1] ++ map (Exec 7) install_commands))
      = (Some tt,
         State (Some 1) (Some 7) true
           ([NewClient None; Create 1] ++ map (Exec 7) install_commands)).
Proof.
  assert (H1 : consistent initial).
  { split; simpl; [by intros [? ?]|done]. }
  assert (H2 : ensure_sandbox_deps Cases.cloud None initial
               = (Some tt,
                  State (Some 1) (Some 7) true
                    ([NewClient None; Create 1]
                     ++ map (Exec 7) install_commands))) by reflexivity.
  split; [exact H1|]. split; [exact H2|].
  exact (proj2 (proj2 (ensure_sandbox_deps_installs Cases.cloud None initial
                         _ H1 H2))).
Defined.

(** X30: resetting forgets the sandbox and never raises.  From a
    consistent state [reset_sandbox] returns; afterwards there is no
    sandbox and nothing is marked ready, the client is kept, and the only
    call made is the deletion of the sandbox there was, whose failure is
    swallowed. *)
Theorem reset_sandbox_forgets
    (d : sdk) (api_key : option string) (s : state) :
  consistent s →
  ∃ s', reset_sandbox d api_key s = (Some tt, s')
        ∧ the_sandbox s' = None
        ∧ sandbox_ready s' = false
        ∧ daytona_client s' = daytona_client s
        ∧ calls s'
          = calls s ++ match the_sandbox s, daytona_client s with
                       | Some sb, Some c => [Delete c sb]
                       | _, _ => []
                       end.
Proof.
  intros [Hsb Hready]. unfold reset_sandbox.
  destruct (the_sandbox s) as [sb|] eqn:E.
  - destruct (Hsb ltac:(by eexists)) as [c Hc].
    unfold get_daytona_client. rewrite Hc.
    destruct (delete d (calls s) c sb); eexists; by repeat split.
  - eexists. repeat split. simpl. by rewrite app_nil_r.
Qed.

Lemma reset_sandbox_forgets_witness :
  consistent (State (Some 1) (Some 7) true [])
  ∧ ∃ s', reset_sandbox Cases.cloud None (State (Some 1) (Some 7) true [])
          = (Some tt, s')
          ∧ the_sandbox s' = None
          ∧ sandbox_ready s' = false
          ∧ daytona_client s' = Some 1
          ∧ calls s' = [] ++ [Delete 1 7].
Proof.
  assert (H : consistent (State (Some 1) (Some 7) true [])).
  { split; simpl; intros _; by eexists. }
  split; [exact H|].
  exact (reset_sandbox_forgets Cases.cloud None
           (State (Some 1) (Some 7) true []) H).
Defined.
